(** * Fortune's sweep for Voronoi diagrams: a shallow embedding

    The development follows the Python sources file by file:
    [point.py], [line_segment.py], [event.py], [event_priority_queue.py],
    [parabolic_arc.py] and [voronoi.py].

    - Python floats are IEEE binary64 numbers: they are the kernel's
      primitive floats, so that every definition below computes.  [+], [-],
      [*], [/], [math.sqrt] and the comparisons are the IEEE operations;
      [x ** 2] is taken to be the correctly rounded square.  Python finds
      a NaN equal to itself when it is the same object; the model does not,
      and the properties below that depend on it are stated for points
      without NaN ([proper]).
    - Python exceptions are the [Raise] results of a small error monad.
    - Objects that the code mutates through several references (heap
      entries, events, arcs, line segments) live in explicit stores and are
      referred to by their index. *)

From Stdlib Require Import ZArith Lia Bool List.
From Stdlib Require Import Floats.
From Stdlib Require QArith Qfield.
From stdpp Require Import base option list.
Import ListNotations.

#[local] Set Warnings "-inexact-float".


(** ** Results: values, Python exceptions, and exhausted fuel *)

Inductive exn : Set :=
| ZeroDivisionError
| ValueError
| OverflowError
| KeyError
| AttributeError
| StopIteration.

Inductive result (A : Type) : Type :=
| Ok (a : A)
| Raise (e : exn)
| OutOfFuel.
Arguments Ok {A} a.
Arguments Raise {A} e.
Arguments OutOfFuel {A}.

Definition rbind {A B} (m : result A) (k : A -> result B) : result B :=
  match m with
  | Ok a => k a
  | Raise e => Raise e
  | OutOfFuel => OutOfFuel
  end.

Declare Scope result_scope.
Delimit Scope result_scope with result.
Notation "'let!' x ':=' m 'in' k" := (rbind m (fun x => k))
  (at level 10, x pattern, m at level 100, k at level 200) : result_scope.
#[local] Open Scope result_scope.

(** ** Python's float operations *)

Module PyFloat.
#[local] Open Scope float_scope.

Definition is_zero (x : float) : bool := x =? 0.
Definition isfinite (x : float) : bool := abs x <? infinity.

(** [a / b] raises [ZeroDivisionError] on a zero divisor. *)
Definition div (a b : float) : result float :=
  if b =? 0 then Raise ZeroDivisionError else Ok (a / b).

(** [math.sqrt] raises [ValueError] below zero. *)
Definition sqrt (a : float) : result float :=
  if a <? 0 then Raise ValueError else Ok (PrimFloat.sqrt a).

(** [a ** 2]: the square, [OverflowError] when a finite [a] has an
    infinite square.  CPython hands the power to the C library's [pow] on
    the absolute value of [a]; its result is taken to be the correctly
    rounded product, which a C library may miss by one unit in the last
    place. *)
Definition pow2 (a : float) : result float :=
  let r := a * a in
  if isfinite a && negb (isfinite r) then Raise OverflowError else Ok r.

(** Python's two-argument [max] and [min] keep the first argument unless
    the second is strictly better. *)
Definition max (a b : float) : float := if a <? b then b else a.
Definition min (a b : float) : float := if b <? a then b else a.

(** [f"{x:.1f}"] prints the exact binary value rounded to one decimal,
    ties to even; [tenths] is that decimal numeral times ten. *)
Definition tenths (m : positive) (e : Z) : Z :=
  let n := (10 * Zpos m)%Z in
  match e with
  | Z0 => n
  | Zpos k => Z.shiftl n (Zpos k)
  | Zneg k =>
      let d := Z.shiftl 1 (Zpos k) in
      let q := (n / d)%Z in
      let r := (n mod d)%Z in
      match (2 * r ?= d)%Z with
      | Lt => q
      | Gt => (q + 1)%Z
      | Eq => if Z.even q then q else (q + 1)%Z
      end
  end.

(** [float(s)] of the numeral [k/10]: the nearest binary64 number. *)
Definition of_tenths (s : bool) (k : Z) : float :=
  match k with
  | Zpos n => SF2Prim (SF64div (S754_finite s n 0) (S754_finite false 10 0))
  | _ => if s then (-0)%float else 0%float
  end.

(** [float(f"{x:.1f}")]. *)
Definition round1 (x : float) : float :=
  match Prim2SF x with
  | S754_finite s m e => of_tenths s (tenths m e)
  | _ => x
  end.
End PyFloat.

(** ** point.py *)

Record Point : Set := RawPoint { px : float; py : float }.

(** [Point.__init__] canonicalises both coordinates to one decimal. *)
Definition mkPoint (x y : float) : Point :=
  {| px := PyFloat.round1 x; py := PyFloat.round1 y |}.

(** The dataclass equality: both coordinates equal as floats. *)
Definition Point_eqb (a b : Point) : bool :=
  (px a =? px b)%float && (py a =? py b)%float.

Definition distance_to (a b : Point) : result float :=
  let! u := PyFloat.pow2 (px a - px b)%float in
  let! v := PyFloat.pow2 (py a - py b)%float in
  PyFloat.sqrt (u + v)%float.

(** ** line_segment.py *)

Record LineSegment : Set :=
  { start : Point; end_ : option Point; done : bool }.

Definition mkLineSegment (p : Point) : LineSegment :=
  {| start := p; end_ := None; done := false |}.

Definition finish (s : LineSegment) (p : Point) : LineSegment :=
  if done s then s else {| start := start s; end_ := Some p; done := true |}.

(** ** event.py

    An event object is mutated only through its [valid] flag, and the flag
    is reached through two references (the owning arc and the heap entry).
    The immutable fields are the record below; the flags live in the
    engine's [ev_valid] store under [ev_id]. *)

Record Event : Set :=
  { ev_id : nat; ev_x : float; ev_p : Point; ev_a : nat }.

(** [Event.__eq__]: equality on [(x, p)]. *)
Definition Event_eqb (a b : Event) : bool :=
  (ev_x a =? ev_x b)%float && Point_eqb (ev_p a) (ev_p b).

(** ** event_priority_queue.py *)

Section EventPriorityQueue.
Context {T : Type}.
(** The items' [__eq__] and their [x] attribute. *)
Variable item_eqb : T -> T -> bool.
Variable item_x : T -> float.

(** A heap entry [[x, count, item]]; [None] is the [_REMOVED] marker.
    Entries are mutable lists shared by the heap and the entry finder:
    [e_count] is unique and identifies the object. *)
Record entry : Type :=
  { e_x : float; e_count : nat; e_item : option T }.

(** Python compares the entry lists lexicographically: by [x], then by
    the count.  On the queues that the methods build the counts are
    pairwise distinct (shown below), so that the comparison never reaches
    the item; the [TypeError] that Python raises when two entries of one
    [x] and one count hold different items is not part of the model. *)
Definition entry_lt (a b : entry) : bool :=
  if (e_x a =? e_x b)%float then Nat.ltb (e_count a) (e_count b)
  else (e_x a <? e_x b)%float.

(** [_queue] is used through [heapq] only.  The binary heap is kept as
    the ascending list of its entries: [heappush] inserts in order and
    [heappop] takes the head, which is all that [heapq] lets a caller
    observe.  [_entry_finder] is a dict: insertion-ordered and keyed by
    [__eq__]; its values are entry objects, named here by their count. *)
Record EventPriorityQueue : Type :=
  { _queue : list entry;
    _entry_finder : list (T * nat);
    _counter : nat }.

Definition new_queue : EventPriorityQueue :=
  {| _queue := []; _entry_finder := []; _counter := 0 |}.

Fixpoint heappush (q : list entry) (n : entry) : list entry :=
  match q with
  | [] => [n]
  | h :: t => if entry_lt n h then n :: h :: t else h :: heappush t n
  end.

(** Dict operations on [_entry_finder].  A key is found by [__eq__]; that
    Python's dict also accepts the very same object before it asks [__eq__]
    matters only for items that are not equal to themselves (a [nan]
    coordinate), which are not found here. *)
Definition dict_mem (d : list (T * nat)) (k : T) : bool :=
  existsb (fun kv => item_eqb (fst kv) k) d.

Fixpoint dict_pop (d : list (T * nat)) (k : T) : option (nat * list (T * nat)) :=
  match d with
  | [] => None
  | (k', v) :: t =>
      if item_eqb k' k then Some (v, t)
      else match dict_pop t k with
           | Some (v', t') => Some (v', (k', v) :: t')
           | None => None
           end
  end.

Fixpoint dict_set (d : list (T * nat)) (k : T) (v : nat) : list (T * nat) :=
  match d with
  | [] => [(k, v)]
  | (k', v') :: t =>
      if item_eqb k' k then (k', v) :: t else (k', v') :: dict_set t k v
  end.

(** [entry[-1] = self._REMOVED] on the entry object numbered [c]; an
    entry that has left the heap is no longer observable. *)
Definition mark_removed (c : nat) (q : list entry) : list entry :=
  map (fun en => if Nat.eqb (e_count en) c
                 then {| e_x := e_x en; e_count := e_count en; e_item := None |}
                 else en) q.

Definition empty (s : EventPriorityQueue) : bool :=
  match _entry_finder s with [] => true | _ => false end.

Definition remove (s : EventPriorityQueue) (item : T) : result EventPriorityQueue :=
  match dict_pop (_entry_finder s) item with
  | None => Raise KeyError
  | Some (c, d) =>
      Ok {| _queue := mark_removed c (_queue s);
            _entry_finder := d;
            _counter := _counter s |}
  end.

Definition push (s : EventPriorityQueue) (item : T) : result EventPriorityQueue :=
  let! s1 := (if dict_mem (_entry_finder s) item then remove s item else Ok s) in
  let c := S (_counter s1) in
  let en := {| e_x := item_x item; e_count := c; e_item := Some item |} in
  Ok {| _queue := heappush (_queue s1) en;
        _entry_finder := dict_set (_entry_finder s1) item c;
        _counter := c |}.

(** The [while self._queue] loops of [pop] and [top]: drop removed
    entries from the front, stop at the first live one. *)
Fixpoint pop_live (q : list entry) : option (T * list entry) :=
  match q with
  | [] => None
  | en :: t =>
      match e_item en with
      | Some item => Some (item, t)
      | None => pop_live t
      end
  end.

Definition with_queue (s : EventPriorityQueue) (q : list entry) : EventPriorityQueue :=
  {| _queue := q; _entry_finder := _entry_finder s; _counter := _counter s |}.

Definition top (s : EventPriorityQueue) : result (option T * EventPriorityQueue) :=
  match pop_live (_queue s) with
  | None => Ok (None, with_queue s [])
  | Some (item, q) =>
      let! s' := push (with_queue s q) item in
      Ok (Some item, s')
  end.

Definition pop (s : EventPriorityQueue) : result (option T * EventPriorityQueue) :=
  match pop_live (_queue s) with
  | None => Ok (None, with_queue s [])
  | Some (item, q) =>
      match dict_pop (_entry_finder s) item with
      | None => Raise KeyError
      | Some (_, d) =>
          Ok (Some item,
              {| _queue := q; _entry_finder := d; _counter := _counter s |})
      end
  end.

(** Popping until [pop] returns nothing. *)
Fixpoint pop_all (fuel : nat) (s : EventPriorityQueue) : result (list T) :=
  match fuel with
  | O => OutOfFuel
  | S fuel =>
      let! (r, s') := pop s in
      match r with
      | None => Ok []
      | Some item => let! l := pop_all fuel s' in Ok (item :: l)
      end
  end.
End EventPriorityQueue.

Arguments entry : clear implicits.
Arguments EventPriorityQueue : clear implicits.

(** ** parabolic_arc.py

    Arcs are linked objects: they live in the engine's [arcs] store, in
    allocation order, and [pprev], [pnext] hold store indices.  The edges
    [s0], [s1] are indices into [output] (every edge an arc refers to is
    appended there when it is created). *)

Record ParabolicArc : Set :=
  { arc_p : Point;
    pprev : option nat;
    pnext : option nat;
    arc_e : option Event;
    s0 : option nat;
    s1 : option nat }.

Definition mkArc (p : Point) (prev next : option nat) : ParabolicArc :=
  {| arc_p := p; pprev := prev; pnext := next;
     arc_e := None; s0 := None; s1 := None |}.

Definition set_pprev (x : option nat) (a : ParabolicArc) : ParabolicArc :=
  {| arc_p := arc_p a; pprev := x; pnext := pnext a;
     arc_e := arc_e a; s0 := s0 a; s1 := s1 a |}.
Definition set_pnext (x : option nat) (a : ParabolicArc) : ParabolicArc :=
  {| arc_p := arc_p a; pprev := pprev a; pnext := x;
     arc_e := arc_e a; s0 := s0 a; s1 := s1 a |}.
Definition set_e (x : option Event) (a : ParabolicArc) : ParabolicArc :=
  {| arc_p := arc_p a; pprev := pprev a; pnext := pnext a;
     arc_e := x; s0 := s0 a; s1 := s1 a |}.
Definition set_s0 (x : option nat) (a : ParabolicArc) : ParabolicArc :=
  {| arc_p := arc_p a; pprev := pprev a; pnext := pnext a;
     arc_e := arc_e a; s0 := x; s1 := s1 a |}.
Definition set_s1 (x : option nat) (a : ParabolicArc) : ParabolicArc :=
  {| arc_p := arc_p a; pprev := pprev a; pnext := pnext a;
     arc_e := arc_e a; s0 := s0 a; s1 := x |}.

(** ** voronoi.py *)

Definition Circle : Set := (Point * float * (Point * Point * Point))%type.

Record Voronoi : Type :=
  { output : list LineSegment;
    parabolicArc : option nat;
    arcs : list ParabolicArc;
    points : EventPriorityQueue Point;
    events : EventPriorityQueue Event;
    ev_valid : list bool;
    largest_empty_circles : list Circle;
    max_circle_radius : float;
    x0 : float; y0 : float; x1 : float; y1 : float }.

Definition EPSILON : float := 1e-10%float.

Definition with_output (o : list LineSegment) (v : Voronoi) : Voronoi :=
  {| output := o; parabolicArc := parabolicArc v; arcs := arcs v;
     points := points v; events := events v; ev_valid := ev_valid v;
     largest_empty_circles := largest_empty_circles v;
     max_circle_radius := max_circle_radius v;
     x0 := x0 v; y0 := y0 v; x1 := x1 v; y1 := y1 v |}.
Definition with_head (h : option nat) (v : Voronoi) : Voronoi :=
  {| output := output v; parabolicArc := h; arcs := arcs v;
     points := points v; events := events v; ev_valid := ev_valid v;
     largest_empty_circles := largest_empty_circles v;
     max_circle_radius := max_circle_radius v;
     x0 := x0 v; y0 := y0 v; x1 := x1 v; y1 := y1 v |}.
Definition with_arcs (l : list ParabolicArc) (v : Voronoi) : Voronoi :=
  {| output := output v; parabolicArc := parabolicArc v; arcs := l;
     points := points v; events := events v; ev_valid := ev_valid v;
     largest_empty_circles := largest_empty_circles v;
     max_circle_radius := max_circle_radius v;
     x0 := x0 v; y0 := y0 v; x1 := x1 v; y1 := y1 v |}.
Definition with_points (q : EventPriorityQueue Point) (v : Voronoi) : Voronoi :=
  {| output := output v; parabolicArc := parabolicArc v; arcs := arcs v;
     points := q; events := events v; ev_valid := ev_valid v;
     largest_empty_circles := largest_empty_circles v;
     max_circle_radius := max_circle_radius v;
     x0 := x0 v; y0 := y0 v; x1 := x1 v; y1 := y1 v |}.
Definition with_events (q : EventPriorityQueue Event) (v : Voronoi) : Voronoi :=
  {| output := output v; parabolicArc := parabolicArc v; arcs := arcs v;
     points := points v; events := q; ev_valid := ev_valid v;
     largest_empty_circles := largest_empty_circles v;
     max_circle_radius := max_circle_radius v;
     x0 := x0 v; y0 := y0 v; x1 := x1 v; y1 := y1 v |}.
Definition with_valid (l : list bool) (v : Voronoi) : Voronoi :=
  {| output := output v; parabolicArc := parabolicArc v; arcs := arcs v;
     points := points v; events := events v; ev_valid := l;
     largest_empty_circles := largest_empty_circles v;
     max_circle_radius := max_circle_radius v;
     x0 := x0 v; y0 := y0 v; x1 := x1 v; y1 := y1 v |}.
Definition with_circles (l : list Circle) (r : float) (v : Voronoi) : Voronoi :=
  {| output := output v; parabolicArc := parabolicArc v; arcs := arcs v;
     points := points v; events := events v; ev_valid := ev_valid v;
     largest_empty_circles := l;
     max_circle_radius := r;
     x0 := x0 v; y0 := y0 v; x1 := x1 v; y1 := y1 v |}.

(** Dereferencing an arc or an edge; [None] stands for Python's [None]. *)
Definition get_arc (v : Voronoi) (i : nat) : result ParabolicArc :=
  match arcs v !! i with
  | Some a => Ok a
  | None => Raise AttributeError
  end.

Definition upd_arc (i : nat) (f : ParabolicArc -> ParabolicArc) (v : Voronoi) : Voronoi :=
  with_arcs (alter f i (arcs v)) v.

(** [ParabolicArc(...)]: a fresh object, named by the next free index. *)
Definition alloc_arc (a : ParabolicArc) (v : Voronoi) : nat * Voronoi :=
  (length (arcs v), with_arcs (arcs v ++ [a]) v).

(** [seg = LineSegment(z); self.output.append(seg)]. *)
Definition alloc_seg (z : Point) (v : Voronoi) : nat * Voronoi :=
  (length (output v), with_output (output v ++ [mkLineSegment z]) v).

Definition finish_seg (k : nat) (p : Point) (v : Voronoi) : Voronoi :=
  with_output (alter (fun s => finish s p) k (output v)) v.

(** [_initialize_structures], [_setup_bounds] and [_add_points]. *)
Definition _initialize_structures : Voronoi :=
  {| output := []; parabolicArc := None; arcs := [];
     points := new_queue; events := new_queue; ev_valid := [];
     largest_empty_circles := []; max_circle_radius := 0%float;
     x0 := 0%float; y0 := 0%float; x1 := 0%float; y1 := 0%float |}.

Definition _setup_bounds (w h : float) (v : Voronoi) : Voronoi :=
  {| output := output v; parabolicArc := parabolicArc v; arcs := arcs v;
     points := points v; events := events v; ev_valid := ev_valid v;
     largest_empty_circles := largest_empty_circles v;
     max_circle_radius := max_circle_radius v;
     x0 := 0%float; y0 := 0%float; x1 := w; y1 := h |}.

Definition push_point := push Point_eqb px.
Definition push_event := push Event_eqb ev_x.

Fixpoint _add_points (pts : list (float * float)) (v : Voronoi) : result Voronoi :=
  match pts with
  | [] => Ok v
  | (x, y) :: rest =>
      let! q := push_point (points v) (mkPoint x y) in
      _add_points rest (with_points q v)
  end.

Definition init (pts : list (float * float)) (w h : float) : result Voronoi :=
  _add_points pts (_setup_bounds w h _initialize_structures).

Section Geometry.
#[local] Open Scope float_scope.

(** The cross product tested by [_check_circle], its [G], and the solution
    [(ox, oy)] of its linear system. *)
Definition cross (a b c : Point) : float :=
  (px b - px a) * (py c - py a) - (px c - px a) * (py b - py a).

Definition circle_G (a b c : Point) : float :=
  let A := px b - px a in
  let B := py b - py a in
  2 * (A * (py c - py b) - B * (px c - px b)).

Definition circle_ox (a b c : Point) : float :=
  let A := px b - px a in
  let B := py b - py a in
  let C := px c - px a in
  let D := py c - py a in
  let E := A * (px a + px b) + B * (py a + py b) in
  let F := C * (px a + px c) + D * (py a + py c) in
  (D * E - B * F) / circle_G a b c.

Definition circle_oy (a b c : Point) : float :=
  let A := px b - px a in
  let B := py b - py a in
  let C := px c - px a in
  let D := py c - py a in
  let E := A * (px a + px b) + B * (py a + py b) in
  let F := C * (px a + px c) + D * (py a + py c) in
  (A * F - C * E) / circle_G a b c.

(** [_check_circle]: [None] is the rejection [(False, None, None)],
    [Some (x, o)] the answer [(True, x, o)]. *)
Definition _check_circle (a b c : Point) : result (option (float * Point)) :=
  if 0 <? cross a b c then Ok None
  else
    let G := circle_G a b c in
    if G =? 0 then Ok None
    else
      let ox := circle_ox a b c in
      let oy := circle_oy a b c in
      let o := mkPoint ox oy in
      let! u := PyFloat.pow2 (px a - ox) in
      let! w := PyFloat.pow2 (py a - oy) in
      let! r := PyFloat.sqrt (u + w) in
      Ok (Some (ox + r, o)).

(** [_find_intersection]. *)
Definition _find_intersection (p0 p1 : Point) (l : float) : result Point :=
  let! (p, y) :=
    (if px p0 =? px p1 then Ok (p0, (py p0 + py p1) / 2)
     else if px p1 =? l then Ok (p0, py p1)
     else if px p0 =? l then Ok (p1, py p0)
     else
       let z0 := 2 * (px p0 - l) in
       let z1 := 2 * (px p1 - l) in
       let! i0 := PyFloat.div 1 z0 in
       let! i1 := PyFloat.div 1 z1 in
       let a := i0 - i1 in
       let! b0 := PyFloat.div (py p0) z0 in
       let! b1 := PyFloat.div (py p1) z1 in
       let b := (-2) * (b0 - b1) in
       let! y0sq := PyFloat.pow2 (py p0) in
       let! x0sq := PyFloat.pow2 (px p0) in
       let! lsq := PyFloat.pow2 l in
       let! c0 := PyFloat.div (y0sq + x0sq - lsq) z0 in
       let! y1sq := PyFloat.pow2 (py p1) in
       let! x1sq := PyFloat.pow2 (px p1) in
       let! lsq' := PyFloat.pow2 l in
       let! c1 := PyFloat.div (y1sq + x1sq - lsq') z1 in
       let c := c0 - c1 in
       let! s := PyFloat.sqrt (b * b - 4 * a * c) in
       let! y := PyFloat.div (- b - s) (2 * a) in
       Ok (p0, y)) in
  let! xsq := PyFloat.pow2 (px p) in
  let! dsq := PyFloat.pow2 (py p - y) in
  let! lsq := PyFloat.pow2 l in
  let! x := PyFloat.div (xsq + dsq - lsq) (2 * px p - 2 * l) in
  Ok (mkPoint x y).

(** [_check_intersection]: [None] is [(False, None)]. *)
Definition _check_intersection (p : Point) (i : option nat) (v : Voronoi)
  : result (option Point) :=
  match i with
  | None => Ok None
  | Some i =>
      let! ai := get_arc v i in
      if px p =? px (arc_p ai) then Ok None
      else
        let! a :=
          (match pprev ai with
           | Some j =>
               let! aj := get_arc v j in
               let! q := _find_intersection (arc_p aj) (arc_p ai) (px p) in
               Ok (py q)
           | None => Ok infinity
           end) in
        let! b :=
          (match pnext ai with
           | Some j =>
               let! aj := get_arc v j in
               let! q := _find_intersection (arc_p ai) (arc_p aj) (px p) in
               Ok (py q)
           | None => Ok infinity
           end) in
        if (match pprev ai with None => true | Some _ => a <=? py p end)
           && (match pnext ai with None => true | Some _ => py p <=? b end)
        then
          let! xsq := PyFloat.pow2 (px (arc_p ai)) in
          let! dsq := PyFloat.pow2 (py (arc_p ai) - py p) in
          let! psq := PyFloat.pow2 (px p) in
          let! x := PyFloat.div (xsq + dsq - psq) (2 * px (arc_p ai) - 2 * px p) in
          Ok (Some (mkPoint x (py p)))
        else Ok None
  end.

(** The emptiness loop of [_check_potential_circle_event] over the keys
    of [self.points._entry_finder], with its [break]. *)
Fixpoint circle_is_empty (keys : list (Point * nat)) (a b c o : Point)
    (radius : float) : result bool :=
  match keys with
  | [] => Ok true
  | (entry, _) :: rest =>
      if Point_eqb entry a || Point_eqb entry b || Point_eqb entry c
      then circle_is_empty rest a b c o radius
      else
        let! u := PyFloat.pow2 (px entry - px o) in
        let! w := PyFloat.pow2 (py entry - py o) in
        let! dist := PyFloat.sqrt (u + w) in
        if dist <? radius - EPSILON then Ok false
        else circle_is_empty rest a b c o radius
  end.

(** The bookkeeping of the largest empty circles. *)
Definition record_circle (c : Circle) (radius : float) (v : Voronoi) : Voronoi :=
  if abs (radius - max_circle_radius v) <? EPSILON
  then with_circles (largest_empty_circles v ++ [c]) (max_circle_radius v) v
  else if max_circle_radius v <? radius
       then with_circles [c] radius v
       else v.

Definition invalidate (k : nat) (v : Voronoi) : Voronoi :=
  with_valid (<[k := false]> (ev_valid v)) v.

(** [if i.e and i.e.x != self.x0: i.e.valid = False]. *)
Definition invalidate_old (ai : ParabolicArc) (v : Voronoi) : Voronoi :=
  match arc_e ai with
  | Some ev => if negb (ev_x ev =? x0 v) then invalidate (ev_id ev) v else v
  | None => v
  end.

(** The body of [if flag and x > x0:]: schedule the event of arc [i]
    (with neighbours [ap], [an]) and test its circle for emptiness. *)
Definition schedule_circle_event (i : nat) (ap ai an : ParabolicArc)
    (x : float) (o : Point) (v : Voronoi) : result Voronoi :=
  let ev := {| ev_id := length (ev_valid v); ev_x := x; ev_p := o; ev_a := i |} in
  let v := with_valid (ev_valid v ++ [true]) v in
  let v := upd_arc i (set_e (Some ev)) v in
  let! q := push_event (events v) ev in
  let v := with_events q v in
  let! u := PyFloat.pow2 (px o - px (arc_p ai)) in
  let! w := PyFloat.pow2 (py o - py (arc_p ai)) in
  let! radius := PyFloat.sqrt (u + w) in
  let! is_empty :=
    circle_is_empty (_entry_finder (points v))
      (arc_p ap) (arc_p ai) (arc_p an) o radius in
  if is_empty : bool
  then Ok (record_circle (o, radius, (arc_p ap, arc_p ai, arc_p an)) radius v)
  else Ok v.

Definition _check_potential_circle_event (i : nat) (sweep : float) (v : Voronoi)
  : result Voronoi :=
  let! ai := get_arc v i in
  let v := upd_arc i (set_e None) (invalidate_old ai v) in
  match pprev ai, pnext ai with
  | Some ip, Some inx =>
      let! ap := get_arc v ip in
      let! an := get_arc v inx in
      let! r := _check_circle (arc_p ap) (arc_p ai) (arc_p an) in
      match r with
      | Some (x, o) =>
          if sweep <? x then schedule_circle_event i ap ai an x o v else Ok v
      | None => Ok v
      end
  | _, _ => Ok v
  end.
End Geometry.

Section Sweep.
#[local] Open Scope float_scope.

(** The scan [while i: ...; i = i.pnext] of [_add_parabolic_parabolicArc]
    for the first arc that [p] meets.  A walk longer than the store has
    entered a cycle, on which the Python loop does not end. *)
Fixpoint find_arc (fuel : nat) (p : Point) (i : option nat) (v : Voronoi)
  : result (option (nat * Point)) :=
  match i with
  | None => Ok None
  | Some i =>
      match fuel with
      | O => OutOfFuel
      | S fuel =>
          let! r := _check_intersection p (Some i) v in
          match r with
          | Some z => Ok (Some (i, z))
          | None =>
              let! ai := get_arc v i in
              find_arc fuel p (pnext ai) v
          end
      end
  end.

(** [while i.pnext: i = i.pnext]. *)
Fixpoint last_arc (fuel : nat) (i : nat) (v : Voronoi) : result nat :=
  match fuel with
  | O => OutOfFuel
  | S fuel =>
      let! ai := get_arc v i in
      match pnext ai with
      | Some j => last_arc fuel j v
      | None => Ok i
      end
  end.

(** [x.attr] on an optional reference. *)
Definition deref (o : option nat) : result nat :=
  match o with
  | Some k => Ok k
  | None => Raise AttributeError
  end.

(** The duplicate of the split arc:
    [if i.pnext and not flag: ... else: i.pnext = ParabolicArc(i.p, i)]. *)
Definition insert_copy (i : nat) (ai : ParabolicArc) (flag : option Point)
    (v : Voronoi) : Voronoi :=
  match pnext ai, flag with
  | Some n, None =>
      let (c, v) := alloc_arc (mkArc (arc_p ai) (Some i) (Some n)) v in
      let v := upd_arc n (set_pprev (Some c)) v in
      upd_arc i (set_pnext (Some c)) v
  | _, _ =>
      let (c, v) := alloc_arc (mkArc (arc_p ai) (Some i) None) v in
      upd_arc i (set_pnext (Some c)) v
  end.

(** [i.pnext.pprev = ParabolicArc(p, i, i.pnext); i.pnext = i.pnext.pprev]:
    the new arc goes between [i] and its successor [c]. *)
Definition insert_new (p : Point) (i c : nat) (v : Voronoi) : nat * Voronoi :=
  let (n, v) := alloc_arc (mkArc p (Some i) (Some c)) v in
  let v := upd_arc c (set_pprev (Some n)) v in
  (n, upd_arc i (set_pnext (Some n)) v).

(** The two edges that start at [z], on either side of the new arc [n]. *)
Definition new_edges (n : nat) (z : Point) (v : Voronoi) : result Voronoi :=
  (* seg = LineSegment(z); i.pprev.s1 = i.s0 = seg *)
  let (k, v) := alloc_seg z v in
  let! an := get_arc v n in
  let! l := deref (pprev an) in
  let v := upd_arc l (set_s1 (Some k)) v in
  let v := upd_arc n (set_s0 (Some k)) v in
  (* seg = LineSegment(z); i.pnext.s0 = i.s1 = seg *)
  let (k', v) := alloc_seg z v in
  let! an := get_arc v n in
  let! r := deref (pnext an) in
  let v := upd_arc r (set_s0 (Some k')) v in
  Ok (upd_arc n (set_s1 (Some k')) v).

(** The three re-evaluations around the new arc [n]. *)
Definition recheck_split (n : nat) (sweep : float) (v : Voronoi) : result Voronoi :=
  let! v := _check_potential_circle_event n sweep v in
  let! an := get_arc v n in
  let! l := deref (pprev an) in
  let! v := _check_potential_circle_event l sweep v in
  let! an := get_arc v n in
  let! r := deref (pnext an) in
  _check_potential_circle_event r sweep v.

(** The body of the [if flag:] branch: split arc [i] at [z]. *)
Definition split_arc (p : Point) (i : nat) (z : Point) (v : Voronoi)
  : result Voronoi :=
  let! ai := get_arc v i in
  let! flag := _check_intersection p (pnext ai) v in
  let v := insert_copy i ai flag v in
  (* i.pnext.s1 = i.s1 *)
  let! ai := get_arc v i in
  let! c := deref (pnext ai) in
  let v := upd_arc c (set_s1 (s1 ai)) v in
  let (n, v) := insert_new p i c v in
  let! v := new_edges n z v in
  recheck_split n (px p) v.

(** The special case after the scan: append [p] at the tail. *)
Definition append_arc (p : Point) (h : nat) (v : Voronoi) : result Voronoi :=
  let! i := last_arc (S (length (arcs v))) h v in
  let (n, v) := alloc_arc (mkArc p (Some i) None) v in
  let v := upd_arc i (set_pnext (Some n)) v in
  let! ai := get_arc v i in
  let! an := get_arc v n in
  let y := (py (arc_p an) + py (arc_p ai)) / 2 in
  let st := mkPoint (x0 v) y in
  let k := length (output v) in
  let v := upd_arc n (set_s0 (Some k)) v in
  let v := upd_arc i (set_s1 (Some k)) v in
  Ok (with_output (output v ++ [mkLineSegment st]) v).

Definition _add_parabolic_parabolicArc (p : Point) (v : Voronoi) : result Voronoi :=
  match parabolicArc v with
  | None =>
      let (n, v) := alloc_arc (mkArc p None None) v in
      Ok (with_head (Some n) v)
  | Some h =>
      let! r := find_arc (S (length (arcs v))) p (Some h) v in
      match r with
      | Some (i, z) => split_arc p i z v
      | None => append_arc p h v
      end
  end.

Definition pop_point := pop (T := Point) Point_eqb.
Definition top_point := top Point_eqb px.
Definition pop_event := pop (T := Event) Event_eqb.
Definition top_event := top Event_eqb ev_x.

(** [p = self.points.pop()]: the event loop calls this with a non-empty
    entry finder, and then [pop] hands out a site (lemma [wf_pop] below);
    a [None] here would be dereferenced as [p.x] by the scan. *)
Definition _process_site_event (v : Voronoi) : result Voronoi :=
  let! (r, q) := pop_point (points v) in
  let v := with_points q v in
  match r with
  | Some p => _add_parabolic_parabolicArc p v
  | None => Raise AttributeError
  end.

(** [if a.pprev: ...; if a.pnext: ...]: arc [a] leaves the beachline and
    its neighbours share the new edge [s]. *)
Definition unlink_arc (a s : nat) (v : Voronoi) : result Voronoi :=
  let! aa := get_arc v a in
  let v :=
    match pprev aa with
    | Some l => upd_arc l (set_s1 (Some s)) (upd_arc l (set_pnext (pnext aa)) v)
    | None => v
    end in
  let! aa := get_arc v a in
  match pnext aa with
  | Some r => Ok (upd_arc r (set_s0 (Some s)) (upd_arc r (set_pprev (pprev aa)) v))
  | None => Ok v
  end.

(** [if a.s0: a.s0.finish(e.p)] and [if a.s1: a.s1.finish(e.p)]. *)
Definition finish_arc_edges (a : nat) (p : Point) (v : Voronoi) : result Voronoi :=
  let! aa := get_arc v a in
  let v := match s0 aa with Some k => finish_seg k p v | None => v end in
  let! aa := get_arc v a in
  Ok (match s1 aa with Some k => finish_seg k p v | None => v end).

(** The re-evaluation of the two former neighbours of [a]. *)
Definition recheck_unlink (a : nat) (sweep : float) (v : Voronoi) : result Voronoi :=
  let! aa := get_arc v a in
  let! v :=
    (match pprev aa with
     | Some l => _check_potential_circle_event l sweep v
     | None => Ok v
     end) in
  let! aa := get_arc v a in
  match pnext aa with
  | Some r => _check_potential_circle_event r sweep v
  | None => Ok v
  end.

Definition is_valid (e : Event) (v : Voronoi) : bool :=
  match ev_valid v !! ev_id e with
  | Some b => b
  | None => false
  end.

Definition _process_circle_event (v : Voronoi) : result Voronoi :=
  let! (r, q) := pop_event (events v) in
  let v := with_events q v in
  match r with
  | None => Raise AttributeError
  | Some e =>
      if is_valid e v then
        let (s, v) := alloc_seg (ev_p e) v in
        let! v := unlink_arc (ev_a e) s v in
        let! v := finish_arc_edges (ev_a e) (ev_p e) v in
        recheck_unlink (ev_a e) (ev_x e) v
      else Ok v
  end.

Definition get_x {T} (f : T -> float) (r : option T) : result float :=
  match r with
  | Some t => Ok (f t)
  | None => Raise AttributeError
  end.

Fixpoint _process_all_events (fuel : nat) (v : Voronoi) : result Voronoi :=
  if empty (points v) then Ok v
  else
    match fuel with
    | O => OutOfFuel
    | S fuel =>
        let! (circle_first, v) :=
          (if empty (events v) then Ok (false, v)
           else
             let! (e, q) := top_event (events v) in
             let v := with_events q v in
             let! ex := get_x ev_x e in
             let! (p, q) := top_point (points v) in
             let v := with_points q v in
             let! x := get_x px p in
             Ok (ex <=? x, v)) in
        let! v := (if circle_first : bool then _process_circle_event v
                   else _process_site_event v) in
        _process_all_events fuel v
    end.

Fixpoint _process_remaining_events (fuel : nat) (v : Voronoi) : result Voronoi :=
  if empty (events v) then Ok v
  else
    match fuel with
    | O => OutOfFuel
    | S fuel =>
        let! v := _process_circle_event v in
        _process_remaining_events fuel v
    end.
End Sweep.

Section Finish.
#[local] Open Scope float_scope.

(** The [try] block of [_complete_unfinished_edges] for one pair of
    neighbouring arcs: [Ok None] is the [continue] of the
    too-close test, [Ok (Some p)] the point handed to [finish]. *)
Definition clip_point (v : Voronoi) (p1 p2 st : Point) : result (option Point) :=
  let margin := PyFloat.max (x1 v - x0 v) (y1 v - y0 v) in
  let mx := (px p1 + px p2) / 2 in
  let my := (py p1 + py p2) / 2 in
  let dx := px p2 - px p1 in
  let dy := py p2 - py p1 in
  if (abs dx <? EPSILON) && (abs dy <? EPSILON) then Ok None
  else
    let! length := PyFloat.sqrt (dx * dx + dy * dy) in
    let! nx := PyFloat.div (- dy) length in
    let! ny := PyFloat.div dx length in
    (* positive direction *)
    let t := margin in
    let qx := mx + nx * t in
    let qy := my + ny * t in
    let! t :=
      (if qx <? x0 v then PyFloat.div (x0 v - mx) nx
       else if x1 v <? qx then PyFloat.div (x1 v - mx) nx
       else Ok t) in
    let! t :=
      (if qy <? y0 v then
         let! u := PyFloat.div (y0 v - my) ny in Ok (PyFloat.min t u)
       else if y1 v <? qy then
         let! u := PyFloat.div (y1 v - my) ny in Ok (PyFloat.min t u)
       else Ok t) in
    let ax := mx + nx * t in
    let ay := my + ny * t in
    (* negative direction *)
    let t := margin in
    let qx := mx - nx * t in
    let qy := my - ny * t in
    let! t :=
      (if qx <? x0 v then PyFloat.div (mx - x0 v) nx
       else if x1 v <? qx then PyFloat.div (mx - x1 v) nx
       else Ok t) in
    let! t :=
      (if qy <? y0 v then
         let! u := PyFloat.div (my - y0 v) ny in Ok (PyFloat.min t u)
       else if y1 v <? qy then
         let! u := PyFloat.div (my - y1 v) ny in Ok (PyFloat.min t u)
       else Ok t) in
    let bx := mx - nx * t in
    let by_ := my - ny * t in
    if (px st =? bx) && (py st =? by_)
    then Ok (Some (mkPoint ax ay))
    else Ok (Some (mkPoint bx by_)).

(** One iteration of the [while i and i.pnext] loop at arc [i] with
    successor [j]; an exception in the [try] block is printed and the
    walk goes on. *)
Definition complete_edge (i j : nat) (v : Voronoi) : Voronoi :=
  match arcs v !! i, arcs v !! j with
  | Some ai, Some aj =>
      match s1 ai with
      | Some k =>
          match output v !! k with
          | Some seg =>
              match clip_point v (arc_p ai) (arc_p aj) (start seg) with
              | Ok (Some p) => finish_seg k p v
              | _ => v
              end
          | None => v
          end
      | None => v
      end
  | _, _ => v
  end.

Fixpoint complete_from (fuel : nat) (i : option nat) (v : Voronoi) : result Voronoi :=
  match i with
  | None => Ok v
  | Some i =>
      let! ai := get_arc v i in
      match pnext ai with
      | None => Ok v
      | Some j =>
          match fuel with
          | O => OutOfFuel
          | S fuel => complete_from fuel (Some j) (complete_edge i j v)
          end
      end
  end.

Definition _complete_unfinished_edges (v : Voronoi) : result Voronoi :=
  complete_from (S (length (arcs v))) (parabolicArc v) v.

(** [next(iter(self.points._entry_finder))]. *)
Definition first_key (q : EventPriorityQueue Point) : result Point :=
  match _entry_finder q with
  | (k, _) :: _ => Ok k
  | [] => Raise StopIteration
  end.

Definition _handle_two_points_case (v : Voronoi) : result Voronoi :=
  let! p1 := first_key (points v) in
  let! (_, q) := pop_point (points v) in
  let v := with_points q v in
  let! p2 := first_key (points v) in
  let mx := (px p1 + px p2) / 2 in
  let my := (py p1 + py p2) / 2 in
  let dx := px p2 - px p1 in
  let dy := py p2 - py p1 in
  let! se :=
    (if abs dx <? EPSILON then
       Ok (Some (mkPoint (mx - x1 v) my, mkPoint (mx + x1 v) my))
     else if abs dy <? EPSILON then
       Ok (Some (mkPoint mx (my - y1 v), mkPoint mx (my + y1 v)))
     else
       let! length := PyFloat.sqrt (dx * dx + dy * dy) in
       if length <? EPSILON then Ok None
       else
         let! ux := PyFloat.div (- dy) length in
         let! uy := PyFloat.div dx length in
         let margin := PyFloat.max (x1 v - x0 v) (y1 v - y0 v) in
         Ok (Some (mkPoint (mx + ux * margin) (my + uy * margin),
                   mkPoint (mx - ux * margin) (my - uy * margin)))) in
  match se with
  | Some (s, e) => Ok (with_output (output v ++ [finish (mkLineSegment s) e]) v)
  | None => Ok v
  end.

Definition generate_voronoi_diagram (fuel : nat) (v : Voronoi) : result Voronoi :=
  if Nat.eqb (length (_entry_finder (points v))) 2
  then _handle_two_points_case v
  else
    let! v := _process_all_events fuel v in
    let! v := _process_remaining_events fuel v in
    _complete_unfinished_edges v.

Definition edge_tuple (o : LineSegment) : option (float * float * float * float) :=
  match end_ o with
  | Some e => Some (px (start o), py (start o), px e, py e)
  | None => None
  end.

(** [get_voronoi_line_segments]; a finished edge always has its end. *)
Definition get_voronoi_line_segments (v : Voronoi)
  : list (float * float * float * float) :=
  omap edge_tuple (filter (fun o => done o = true) (output v)).

Definition get_largest_empty_circles (v : Voronoi) : list Circle :=
  largest_empty_circles v.

(** [Voronoi(pts, w, h)] followed by [generate_voronoi_diagram()]. *)
Definition run (fuel : nat) (pts : list (float * float)) (w h : float)
  : result Voronoi :=
  let! v := init pts w h in
  generate_voronoi_diagram fuel v.
End Finish.

(** * Vocabulary of the properties *)

(** ** The priority queue *)

Section QueueSpec.
Context {T : Type}.
Variable item_eqb : T -> T -> bool.
Variable item_x : T -> float.

Definition live_pair (en : entry T) : option (T * nat) :=
  match e_item en with
  | Some item => Some (item, e_count en)
  | None => None
  end.

(** The live entries of the heap, in heap order, as [(item, count)]. *)
Definition live_pairs (q : list (entry T)) : list (T * nat) := omap live_pair q.

Fixpoint keys_distinct (l : list (T * nat)) : Prop :=
  match l with
  | [] => True
  | kv :: t => Forall (fun kv' => item_eqb (fst kv) (fst kv') = false) t /\ keys_distinct t
  end.

Record wf (s : EventPriorityQueue T) : Prop :=
  { wf_counts : NoDup (map e_count (_queue s));
    wf_bound : Forall (fun en => e_count en <= _counter s) (_queue s);
    wf_live : live_pairs (_queue s) ≡ₚ _entry_finder s;
    wf_keys : keys_distinct (_entry_finder s);
    wf_refl : Forall (fun kv => item_eqb (fst kv) (fst kv) = true) (_entry_finder s) }.

Fixpoint count_eqb (item : T) (l : list T) : nat :=
  match l with
  | [] => 0
  | x :: t => (if item_eqb x item then 1 else 0) + count_eqb item t
  end.

Inductive reachable : EventPriorityQueue T -> Prop :=
| reach_new : reachable new_queue
| reach_push s item s' :
    reachable s -> item_eqb item item = true -> push item_eqb item_x s item = Ok s' ->
    reachable s'
| reach_pop s r s' : reachable s -> pop item_eqb s = Ok (r, s') -> reachable s'
| reach_top s r s' : reachable s -> top item_eqb item_x s = Ok (r, s') -> reachable s'
| reach_remove s item s' : reachable s -> remove item_eqb s item = Ok s' -> reachable s'.
End QueueSpec.


(** ** The running maximum *)

(** [b] is [a] or strictly above it. *)
Definition radius_le (a b : float) : Prop := a = b \/ (a <? b)%float = true.

(** The running maximum does not decrease from [v] to [v']. *)
Definition max_grows (v v' : Voronoi) : Prop :=
  radius_le (max_circle_radius v) (max_circle_radius v').

(** ** Sites and outputs *)

(** A point that equals itself: its coordinates are not NaN. *)
Definition proper (p : Point) : Prop := Point_eqb p p = true.

(** The site built from an input pair. *)
Definition site (xy : float * float) : Point := mkPoint (fst xy) (snd xy).

(** Emptying a queue of sites with [pop]. *)
Definition drain (s : EventPriorityQueue Point) : result (list Point) :=
  pop_all Point_eqb (S (length (_queue s))) s.

(** The three sites that define a reported circle. *)
Definition defining (s : Point) (c : Circle) : bool :=
  let '(_, _, (a, b, d)) := c in
  Point_eqb s a || Point_eqb s b || Point_eqb s d.

(** [distance(s, center) < radius - EPSILON]. *)
Definition strictly_inside (s : Point) (c : Circle) : bool :=
  let '(o, r, _) := c in
  match distance_to s o with
  | Ok d => (d <? r - EPSILON)%float
  | _ => false
  end.

(** No site other than the defining ones lies strictly inside a reported
    circle. *)
Definition emptiness_invariant (pts : list (float * float)) (v : Voronoi) : Prop :=
  forall c xy, c ∈ get_largest_empty_circles v -> xy ∈ pts ->
    defining (site xy) c = false -> strictly_inside (site xy) c = false.

(** Both endpoints of a reported edge within [tol] of the box
    [[0, w] x [0, h]]. *)
Definition coord_in (tol lo hi c : float) : bool :=
  ((lo - tol <=? c) && (c <=? hi + tol))%float.

Definition in_box (tol w h : float) (e : float * float * float * float) : bool :=
  let '(ax, ay, bx, by_) := e in
  coord_in tol 0 w ax && coord_in tol 0 h ay &&
  coord_in tol 0 w bx && coord_in tol 0 h by_.

Definition on_boundary (w h : float) (p : Point) : bool :=
  ((px p =? 0) || (px p =? w) || (py p =? 0) || (py p =? h))%float.

Definition containment (tol : float) (pts : list (float * float)) (w h : float)
    (v : Voronoi) : Prop :=
  (forall xy, xy ∈ pts -> on_boundary w h (site xy) = false) ->
  forall e, e ∈ get_voronoi_line_segments v -> in_box tol w h e = true.

Definition midpoint (e : float * float * float * float) : float * float :=
  let '(ax, ay, bx, by_) := e in (((ax + bx) / 2)%float, ((ay + by_) / 2)%float).

Definition vertical (e : float * float * float * float) : bool :=
  let '(ax, ay, bx, by_) := e in ((ax =? bx) && negb (ay =? by_))%float.

(** ** The beachline as a doubly linked list *)

(** The arcs met from arc [i] along [pnext].  A walk that outlasts the
    store has run into a cycle and repeats an arc. *)
Fixpoint walk (fuel : nat) (i : nat) (v : Voronoi) : list nat :=
  match fuel with
  | O => []
  | S fuel =>
      i :: match arcs v !! i with
           | Some a =>
               match pnext a with
               | Some j => walk fuel j v
               | None => []
               end
           | None => []
           end
  end.

Definition beachline (v : Voronoi) : list nat :=
  match parabolicArc v with
  | Some h => walk (S (length (arcs v))) h v
  | None => []
  end.

Record dll_invariant (v : Voronoi) : Prop :=
  { dll_head : forall h a,
      parabolicArc v = Some h -> arcs v !! h = Some a -> pprev a = None;
    dll_links : forall i j a b,
      i ∈ beachline v -> arcs v !! i = Some a -> pnext a = Some j ->
      arcs v !! j = Some b -> pprev b = Some i;
    dll_acyclic : NoDup (beachline v) }.

(** [n] circle events in a row. *)
Fixpoint circle_events (n : nat) (v : Voronoi) : result Voronoi :=
  match n with
  | O => Ok v
  | S n => let! v := _process_circle_event v in circle_events n v
  end.

(** [n] site events in a row. *)
Fixpoint site_events (n : nat) (v : Voronoi) : result Voronoi :=
  match n with
  | O => Ok v
  | S n => let! v := _process_site_event v in site_events n v
  end.

(** The distance from [a] to the point [(x, y)], as [_check_circle]
    computes it. *)
Definition dist_xy (a : Point) (x y : float) : result float :=
  let! u := PyFloat.pow2 (px a - x)%float in
  let! w := PyFloat.pow2 (py a - y)%float in
  PyFloat.sqrt (u + w)%float.

(** A queue of sites that holds one removed entry. *)
Definition tombstone_queue : EventPriorityQueue Point :=
  {| _queue := [{| e_x := 1%float; e_count := 1; e_item := None |}];
     _entry_finder := [];
     _counter := 1 |}.

(** Pushing a list of sites onto a fresh queue. *)
Fixpoint push_sites (l : list Point) (s : EventPriorityQueue Point)
  : result (EventPriorityQueue Point) :=
  match l with
  | [] => Ok s
  | p :: l => let! s := push_point s p in push_sites l s
  end.

(** [top()] followed by pops until the queue is empty. *)
Definition peek_then_drain (s : EventPriorityQueue Point)
  : result (option Point * list Point) :=
  let! (r, s') := top_point s in
  let! l := drain s' in
  Ok (r, l).

(** The queue of sites after [push(Point(1, 1))]. *)
Definition one_site_queue : EventPriorityQueue Point :=
  {| _queue := [{| e_x := 1%float; e_count := 1; e_item := Some (mkPoint 1 1) |}];
     _entry_finder := [(mkPoint 1 1, 1)];
     _counter := 1 |}.

(** The sites of the two-site example and the edge it produces. *)
Definition two_sites : list (float * float) := [(0, 0); (10, 0)]%float.

Definition two_sites_edge : LineSegment :=
  {| start := mkPoint 5 (-10); end_ := Some (mkPoint 5 10); done := true |}.

(** Four sites strictly inside a 10 x 10 box. *)
Definition four_sites : list (float * float) := [(2, 2); (2, 3); (3, 2); (3, 4)]%float.

(** The circle through (2,2), (2,3) and (3,4). *)
Definition four_sites_circle : Circle :=
  (mkPoint 3.5 2.5, PrimFloat.sqrt 2.5, (mkPoint 2 2, mkPoint 2 3, mkPoint 3 4))%float.

(** The run on [four_sites] after its four site events and the first of
    its circle events.  The circle-event queue is empty until the third site
    event has been handled, so the loop of [_process_all_events] peeks at
    both queues once, before the fourth site event. *)
Definition four_sites_midway : result Voronoi :=
  let! v := init four_sites 10 10 in
  let! v := site_events 3 v in
  let! (_, q) := top_event (events v) in
  let v := with_events q v in
  let! (_, q) := top_point (points v) in
  let v := with_points q v in
  let! v := _process_site_event v in
  _process_circle_event v.

(** Two sites strictly inside a 10 x 10 box, on one horizontal line. *)
Definition level_sites : list (float * float) := [(2, 5); (8, 5)]%float.

(** Five sites to the left of the box. *)
Definition left_sites : list (float * float) :=
  [(-10, 0); (-8, -4); (-8, 4); (-6, 0); (-4, -1.5)]%float.

Definition link_ok (v : Voronoi) (i : nat) : bool :=
  match arcs v !! i with
  | Some a =>
      match pnext a with
      | Some j =>
          match arcs v !! j with
          | Some b => bool_decide (pprev b = Some i)
          | None => true
          end
      | None => true
      end
  | None => true
  end.

Definition head_ok (v : Voronoi) : bool :=
  match parabolicArc v with
  | Some h =>
      match arcs v !! h with
      | Some a => bool_decide (pprev a = None)
      | None => true
      end
  | None => true
  end.

(** A decision procedure for [dll_invariant]. *)
Definition dll_check (v : Voronoi) : bool :=
  head_ok v && forallb (link_ok v) (beachline v) && bool_decide (NoDup (beachline v)).

(** *** The beachline by its list of arcs *)

(** The two links of arc [i] in the store [s]. *)
Definition lk (s : list ParabolicArc) (i : nat) : option (option nat * option nat) :=
  (fun a => (pprev a, pnext a)) <$> s !! i.

(** The first arc of [l], or [nxt] when there is none; the last one, or
    [prev]. *)
Definition hd_or (l : list nat) (nxt : option nat) : option nat :=
  match l with
  | [] => nxt
  | i :: _ => Some i
  end.

Definition last_or (l : list nat) (prev : option nat) : option nat :=
  match last l with
  | Some i => Some i
  | None => prev
  end.

(** The arcs of [l] follow one another along [pnext], and [pprev] leads
    back; [prev] comes before the first one and [nxt] after the last. *)
Fixpoint linked (s : list ParabolicArc) (prev : option nat) (l : list nat)
    (nxt : option nat) : Prop :=
  match l with
  | [] => True
  | i :: t => lk s i = Some (prev, hd_or t nxt) /\ linked s (Some i) t nxt
  end.

(** [l] is the beachline of [v], from the head on, properly linked. *)
Definition is_beachline (v : Voronoi) (l : list nat) : Prop :=
  parabolicArc v = head l /\ linked (arcs v) None l None /\ NoDup l.

(** Every arc of the beachline is an object of the store. *)
Definition in_store (v : Voronoi) : Prop :=
  Forall (fun i => i < length (arcs v)) (beachline v).

(** [v'] has the head and the links of [v]. *)
Definition keep (v v' : Voronoi) : Prop :=
  parabolicArc v' = parabolicArc v /\ forall x, lk (arcs v') x = lk (arcs v) x.


(** The three-site example of the specification. *)
Definition three_sites : list (float * float) := [(0, 0); (10, 0); (5, 10)]%float.

(** ** Signs of binary64 numbers *)

(** A decoded binary64 number that is not below zero (or is NaN). *)
Definition sf_nonneg (x : spec_float) : Prop :=
  match x with
  | S754_zero s | S754_infinity s | S754_finite s _ _ => s = false
  | S754_nan => True
  end.

(** ** The edge of the two-site path *)

(** The bisector of two sites on one horizontal line, as the two-site path
    draws it: through the midpoint, [h] up and [h] down. *)
Definition level_edge (p1 p2 : Point) (h : float) : LineSegment :=
  let mx := ((px p1 + px p2) / 2)%float in
  let my := ((py p1 + py p2) / 2)%float in
  {| start := mkPoint mx (my - h); end_ := Some (mkPoint mx (my + h)); done := true |}.

(** ** The formulas of [_check_circle], in binary64 and over the rationals *)

(** The arithmetic of [_check_circle] (source lines 60 to 77) as syntax over
    the six coordinates, so that one and the same formula is evaluated in
    binary64, as the code does, and over the rationals, where it can be
    compared with the geometry. *)
Module Formula.
Import QArith.
#[local] Open Scope Q_scope.

Inductive coord : Set := a_x | a_y | b_x | b_y | c_x | c_y.

Inductive expr : Set :=
| Co (k : coord)
| Two
| Add (e1 e2 : expr)
| Sub (e1 e2 : expr)
| Mul (e1 e2 : expr)
| Div (e1 e2 : expr).

Fixpoint evalF (env : coord -> float) (e : expr) : float :=
  match e with
  | Co k => env k
  | Two => 2%float
  | Add e1 e2 => (evalF env e1 + evalF env e2)%float
  | Sub e1 e2 => (evalF env e1 - evalF env e2)%float
  | Mul e1 e2 => (evalF env e1 * evalF env e2)%float
  | Div e1 e2 => (evalF env e1 / evalF env e2)%float
  end.

Fixpoint evalQ (env : coord -> Q) (e : expr) : Q :=
  match e with
  | Co k => env k
  | Two => 2%Q
  | Add e1 e2 => (evalQ env e1 + evalQ env e2)%Q
  | Sub e1 e2 => (evalQ env e1 - evalQ env e2)%Q
  | Mul e1 e2 => (evalQ env e1 * evalQ env e2)%Q
  | Div e1 e2 => (evalQ env e1 / evalQ env e2)%Q
  end.

(** The coordinates of three points. *)
Definition coords (a b c : Point) (k : coord) : float :=
  match k with
  | a_x => px a | a_y => py a
  | b_x => px b | b_y => py b
  | c_x => px c | c_y => py c
  end.

(** [(b.x - a.x)*(c.y - a.y) - (c.x - a.x)*(b.y - a.y)]. *)
Definition cross_expr : expr :=
  Sub (Mul (Sub (Co b_x) (Co a_x)) (Sub (Co c_y) (Co a_y)))
      (Mul (Sub (Co c_x) (Co a_x)) (Sub (Co b_y) (Co a_y))).

(** [A], [B], [C], [D], [E], [F] and [G] of the source. *)
Definition A_expr : expr := Sub (Co b_x) (Co a_x).
Definition B_expr : expr := Sub (Co b_y) (Co a_y).
Definition C_expr : expr := Sub (Co c_x) (Co a_x).
Definition D_expr : expr := Sub (Co c_y) (Co a_y).
Definition E_expr : expr :=
  Add (Mul A_expr (Add (Co a_x) (Co b_x))) (Mul B_expr (Add (Co a_y) (Co b_y))).
Definition F_expr : expr :=
  Add (Mul C_expr (Add (Co a_x) (Co c_x))) (Mul D_expr (Add (Co a_y) (Co c_y))).
Definition G_expr : expr :=
  Mul Two (Sub (Mul A_expr (Sub (Co c_y) (Co b_y))) (Mul B_expr (Sub (Co c_x) (Co b_x)))).

(** [ox = (D*E - B*F) / G] and [oy = (A*F - C*E) / G]. *)
Definition ox_expr : expr := Div (Sub (Mul D_expr E_expr) (Mul B_expr F_expr)) G_expr.
Definition oy_expr : expr := Div (Sub (Mul A_expr F_expr) (Mul C_expr E_expr)) G_expr.

(** The squared distance between [(x, y)] and [(u, v)]. *)
Definition sqdist (x y u v : Q) : Q := ((x - u) * (x - u) + (y - v) * (y - v))%Q.

(** The point [(X, Y)] is at one distance from the three points of [env]. *)
Definition equidistant (env : coord -> Q) (X Y : Q) : Prop :=
  (sqdist (env a_x) (env a_y) X Y == sqdist (env b_x) (env b_y) X Y /\
   sqdist (env a_x) (env a_y) X Y == sqdist (env c_x) (env c_y) X Y)%Q.

(** The bisector system of [env] has one solution. *)
Definition nonsingular (env : coord -> Q) : Prop := ~ evalQ env G_expr == 0.

(** The sites [(0, 0)], [(0, 1)], [(1/2, 0)]. *)
Definition half_sites (k : coord) : Q :=
  match k with
  | b_y => 1 | c_x => 1 # 2 | _ => 0
  end.

(** Over the rationals the formulas give [(1/4, 1/2)] for these sites. *)
Definition half_sites_centre : Prop :=
  evalQ half_sites ox_expr == 1 # 4 /\ evalQ half_sites oy_expr == 1 # 2.
End Formula.

(** ** Edges, flags, circles and schedules over a run *)

(** The heap in ascending order: no entry is before an earlier one. *)
Fixpoint ascending {T} (q : list (entry T)) : Prop :=
  match q with
  | [] => True
  | en :: t => Forall (fun en' => entry_lt en' en = false) t /\ ascending t
  end.

(** A live entry carries the [x] of its item as its priority. *)
Definition keyed {T} (item_x : T -> float) (q : list (entry T)) : Prop :=
  Forall (fun en => forall it, e_item en = Some it -> e_x en = item_x it) q.

(** An edge that is [done] has its [end]. *)
Definition seg_ok (s : LineSegment) : Prop := done s = true -> is_Some (end_ s).

(** From [v] to [v'] no edge is dropped, no edge changes its start, and no
    finished edge changes at all. *)
Definition edges_kept (v v' : Voronoi) : Prop :=
  forall k seg, output v !! k = Some seg ->
    exists seg', output v' !! k = Some seg' /\ start seg' = start seg /\
                 (done seg = true -> seg' = seg).

(** A reported circle has the running maximum as its radius, up to
    [EPSILON]. *)
Definition circle_at_max (m : float) (c : Circle) : Prop :=
  let '(_, r, _) := c in r = m \/ (abs (r - m) <? EPSILON)%float = true.

(** The radius of a reported circle is the distance from its centre to its
    middle site, as [distance_to] computes it. *)
Definition circle_radius_ok (c : Circle) : Prop :=
  let '(o, r, (_, b, _)) := c in distance_to o b = Ok r.

(** From [v] to [v'] no validity flag is dropped and no event that was
    invalid becomes valid. *)
Definition flags_kept (v v' : Voronoi) : Prop :=
  length (ev_valid v) <= length (ev_valid v') /\
  forall k, ev_valid v !! k = Some false -> ev_valid v' !! k = Some false.

(** The edge that the two-site path builds when it reads the same site [p]
    twice: the finished segment through [p] that reaches [x1] to its left
    and [x1] to its right. *)
Definition flat_edge (p : Point) (x1 : float) : LineSegment :=
  let mx := ((px p + px p) / 2)%float in
  let my := ((py p + py p) / 2)%float in
  {| start := mkPoint (mx - x1) my; end_ := Some (mkPoint (mx + x1) my); done := true |}.

(** The live items of a heap are all in [S]. *)
Definition items_in {T} (S : list T) (q : list (entry T)) : Prop :=
  Forall (fun en => forall p, e_item en = Some p -> p ∈ S) q.

(** The three sites of a circle are in [S]. *)
Definition circle_sites_in (S : list Point) (c : Circle) : Prop :=
  let '(_, _, (a, b, d)) := c in a ∈ S /\ b ∈ S /\ d ∈ S.

(** Every site that the engine holds is in [S]: the pending sites, the
    sites of the arcs, and the defining sites of the recorded circles. *)
Definition sites_from (S : list Point) (v : Voronoi) : Prop :=
  items_in S (_queue (points v)) /\
  Forall (fun a => arc_p a ∈ S) (arcs v) /\
  Forall (circle_sites_in S) (largest_empty_circles v).

(** The computation ends: it returns or raises, its loops do not go on
    for ever. *)
Definition ends {A} (r : result A) : Prop := r <> OutOfFuel.

(** * Properties *)

(** ** Facts about binary64 comparisons and signs

    They follow from the specification of the primitive operations
    ([FloatAxioms]) by cases on the decoded numbers. *)

Module FloatFacts.
Lemma SFcompare_Eq_sym (x y : spec_float) :
  SFcompare x y = Some Eq -> SFcompare y x = Some Eq.
Proof.
  destruct x as [sx|sx| |sx mx ex], y as [sy|sy| |sy my ey]; simpl;
    try destruct sx; try destruct sy; simpl; try congruence.
  all: destruct (Z.compare_spec ex ey) as [->|H|H]; try congruence;
    rewrite ?Z.compare_refl;
    change (Pos.compare_cont Eq mx my) with (mx ?= my)%positive;
    change (Pos.compare_cont Eq my mx) with (my ?= mx)%positive;
    destruct (Pos.compare_spec mx my) as [->|H|H]; simpl; try congruence;
    rewrite Pos.compare_refl; reflexivity.
Qed.

Lemma SFcompare_Eq_trans (x y z : spec_float) :
  SFcompare x y = Some Eq -> SFcompare y z = Some Eq -> SFcompare x z = Some Eq.
Proof.
  destruct x as [sx|sx| |sx mx ex], y as [sy|sy| |sy my ey], z as [sz|sz| |sz mz ez];
    simpl; try destruct sx; try destruct sy; try destruct sz; simpl; try congruence.
  all: destruct (Z.compare_spec ex ey) as [->|H|H]; try congruence;
    change (Pos.compare_cont Eq mx my) with (mx ?= my)%positive;
    destruct (Pos.compare_spec mx my) as [->|H|H]; simpl; congruence.
Qed.

Lemma SFcompare_Lt_trans (x y z : spec_float) :
  SFcompare x y = Some Lt -> SFcompare y z = Some Lt -> SFcompare x z = Some Lt.
Proof.
  destruct x as [sx|sx| |sx mx ex], y as [sy|sy| |sy my ey], z as [sz|sz| |sz mz ez];
    simpl; try destruct sx; try destruct sy; try destruct sz; simpl; try congruence.
  all: change (Pos.compare_cont Eq mx my) with (mx ?= my)%positive;
    change (Pos.compare_cont Eq my mz) with (my ?= mz)%positive;
    change (Pos.compare_cont Eq mx mz) with (mx ?= mz)%positive;
    destruct (Z.compare_spec ex ey), (Z.compare_spec ey ez),
      (Z.compare_spec ex ez); try lia; try congruence;
    destruct (Pos.compare_spec mx my), (Pos.compare_spec my mz),
      (Pos.compare_spec mx mz); simpl; try lia; congruence.
Qed.

#[local] Open Scope float_scope.

Lemma eqb_sym (x y : float) : (x =? y) = (y =? x).
Proof.
  rewrite !FloatAxioms.eqb_spec. unfold SFeqb.
  destruct (SFcompare (Prim2SF x) (Prim2SF y)) as [[]|] eqn:E1.
  - now rewrite (SFcompare_Eq_sym _ _ E1).
  - destruct (SFcompare (Prim2SF y) (Prim2SF x)) as [[]|] eqn:E2; try reflexivity.
    apply SFcompare_Eq_sym in E2. congruence.
  - destruct (SFcompare (Prim2SF y) (Prim2SF x)) as [[]|] eqn:E2; try reflexivity.
    apply SFcompare_Eq_sym in E2. congruence.
  - destruct (SFcompare (Prim2SF y) (Prim2SF x)) as [[]|] eqn:E2; try reflexivity.
    apply SFcompare_Eq_sym in E2. congruence.
Qed.

Lemma eqb_true_compare (x y : float) :
  (x =? y) = true <-> SFcompare (Prim2SF x) (Prim2SF y) = Some Eq.
Proof.
  rewrite FloatAxioms.eqb_spec. unfold SFeqb.
  destruct (SFcompare _ _) as [[]|]; split; congruence.
Qed.

Lemma ltb_true_compare (x y : float) :
  (x <? y) = true <-> SFcompare (Prim2SF x) (Prim2SF y) = Some Lt.
Proof.
  rewrite FloatAxioms.ltb_spec. unfold SFltb.
  destruct (SFcompare _ _) as [[]|]; split; congruence.
Qed.

Lemma eqb_trans (x y z : float) :
  (x =? y) = true -> (y =? z) = true -> (x =? z) = true.
Proof. rewrite !eqb_true_compare. apply SFcompare_Eq_trans. Qed.

Lemma ltb_trans (x y z : float) :
  (x <? y) = true -> (y <? z) = true -> (x <? z) = true.
Proof. rewrite !ltb_true_compare. apply SFcompare_Lt_trans. Qed.

Lemma binary_round_aux_nonneg m e l :
  sf_nonneg (binary_round_aux prec emax false m e l).
Proof.
  unfold binary_round_aux.
  destruct (shr_fexp prec emax m e l) as [r1 e1].
  destruct (shr_fexp prec emax _ e1 loc_Exact) as [r2 e2].
  destruct (shr_m r2); simpl; auto.
  match goal with |- context [if ?b then _ else _] => destruct b end; simpl; auto.
Qed.

Lemma SFmul_self_nonneg (x : spec_float) : sf_nonneg (SF64mul x x).
Proof.
  destruct x as [s|s| |s m e]; simpl; auto; try (destruct s; reflexivity).
  unfold SF64mul, SFmul. rewrite xorb_nilpotent. apply binary_round_aux_nonneg.
Qed.

Lemma SFadd_nonneg (x y : spec_float) :
  sf_nonneg x -> sf_nonneg y -> sf_nonneg (SF64add x y).
Proof.
  destruct x as [sx|sx| |sx mx ex], y as [sy|sy| |sy my ey]; simpl;
    intros; subst; simpl; auto.
  unfold binary_normalize, binary_round.
  destruct (shl_align _ _ _) as [mz ez]. apply binary_round_aux_nonneg.
Qed.

Lemma nonneg_not_ltb_zero (x : spec_float) :
  sf_nonneg x -> SFltb x (S754_zero false) = false.
Proof. destruct x as [s|s| |s m e]; simpl; intros; subst; reflexivity. Qed.

Lemma sum_squares_not_neg (x y : float) : (x * x + y * y <? 0) = false.
Proof.
  rewrite FloatAxioms.ltb_spec, FloatAxioms.add_spec, !FloatAxioms.mul_spec.
  change (Prim2SF 0) with (S754_zero false).
  apply nonneg_not_ltb_zero, SFadd_nonneg; apply SFmul_self_nonneg.
Qed.
End FloatFacts.

(** ** The priority queue keeps its heap and its entry finder in step *)

Section QueueFacts.
Context {T : Type}.
Variable item_eqb : T -> T -> bool.
Variable item_x : T -> float.
Hypothesis eqb_sym : forall a b, item_eqb a b = item_eqb b a.
Hypothesis eqb_trans :
  forall a b c, item_eqb a b = true -> item_eqb b c = true -> item_eqb a c = true.

#[local] Abbreviation wf := (wf item_eqb).
#[local] Abbreviation keys_distinct := (keys_distinct item_eqb).
#[local] Abbreviation dict_pop := (dict_pop item_eqb).
#[local] Abbreviation dict_mem := (dict_mem item_eqb).
#[local] Abbreviation dict_set := (dict_set item_eqb).

(** *** The heap as a list *)

Lemma heappush_perm (q : list (entry T)) en :
  heappush q en ≡ₚ en :: q.
Proof.
  induction q as [|h t IH]; simpl; [done|].
  destruct (entry_lt en h); [done|].
  rewrite IH. apply perm_swap.
Qed.

Lemma live_pairs_heappush (q : list (entry T)) en :
  live_pairs (heappush q en) ≡ₚ live_pairs (en :: q).
Proof. unfold live_pairs. now rewrite heappush_perm. Qed.

Lemma counts_mark_removed c (q : list (entry T)) :
  map e_count (mark_removed c q) = map e_count q.
Proof.
  unfold mark_removed. rewrite map_map. apply map_ext.
  intros en. now destruct (Nat.eqb _ _).
Qed.

Lemma live_pairs_cons en (t : list (entry T)) :
  live_pairs (en :: t) =
  match e_item en with
  | Some item => (item, e_count en) :: live_pairs t
  | None => live_pairs t
  end.
Proof. unfold live_pairs, live_pair. simpl. now destruct (e_item en). Qed.

Lemma live_pairs_mark_removed c (q : list (entry T)) :
  live_pairs (mark_removed c q) = filter (fun kv => snd kv <> c) (live_pairs q).
Proof.
  induction q as [|en t IH]; [done|].
  change (mark_removed c (en :: t)) with
    ((if Nat.eqb (e_count en) c
      then {| e_x := e_x en; e_count := e_count en; e_item := None |}
      else en) :: mark_removed c t).
  rewrite !live_pairs_cons, IH.
  destruct (Nat.eqb_spec (e_count en) c) as [E|E]; simpl.
  - destruct (e_item en); [|done].
    rewrite filter_cons_False; [done|]. simpl. tauto.
  - destruct (e_item en); [|done].
    rewrite filter_cons_True; [done|]. simpl. tauto.
Qed.

Lemma live_counts_sublist (q : list (entry T)) :
  sublist (map snd (live_pairs q)) (map e_count q).
Proof.
  induction q as [|en t IH]; [constructor|].
  rewrite live_pairs_cons.
  destruct (e_item en); simpl.
  - now apply sublist_skip.
  - now apply sublist_cons.
Qed.

Lemma filter_other_counts (l : list (T * nat)) k c d :
  NoDup (map snd l) -> l ≡ₚ (k, c) :: d ->
  filter (fun kv => snd kv <> c) l ≡ₚ d.
Proof.
  intros ND P. rewrite P in ND. rewrite P.
  simpl in ND. apply NoDup_cons in ND as [Hc _].
  rewrite filter_cons_False by (simpl; tauto).
  clear P. induction d as [|kv d IH]; [done|].
  simpl in Hc. apply not_elem_of_cons in Hc as [Hne Hc].
  rewrite filter_cons_True by (simpl; congruence).
  now rewrite IH.
Qed.

(** *** The entry finder as a dict *)

Lemma dict_mem_false d k :
  dict_mem d k = false <-> Forall (fun kv => item_eqb (fst kv) k = false) d.
Proof.
  unfold dict_mem. induction d as [|[k' v] t IH]; simpl.
  - split; [constructor|done].
  - rewrite orb_false_iff, IH, Forall_cons. done.
Qed.

Lemma dict_set_fresh d k c :
  dict_mem d k = false -> dict_set d k c = d ++ [(k, c)].
Proof.
  unfold dict_mem. induction d as [|[k' v] t IH]; simpl; [done|].
  intros [E1 E2]%orb_false_iff. rewrite E1. now rewrite IH.
Qed.

Lemma dict_pop_spec d k c d' :
  dict_pop d k = Some (c, d') ->
  exists k', item_eqb k' k = true /\ d ≡ₚ (k', c) :: d' /\
             (keys_distinct d -> keys_distinct d' /\ dict_mem d' k = false) /\
             (forall P : T * nat -> Prop, Forall P d -> Forall P d').
Proof.
  revert c d'. induction d as [|[k' v] t IH]; simpl; [done|].
  intros c d'. destruct (item_eqb k' k) eqn:E.
  - intros [= <- <-]. exists k'. split; [done|]. split; [done|]. split.
    + intros [H1 H2]. split; [done|]. apply dict_mem_false.
      eapply Forall_impl; [exact H1|]. simpl. intros kv Hkv.
      destruct (item_eqb kv.1 k) eqn:E'; [|done].
      rewrite eqb_sym in E'. rewrite (eqb_trans _ _ _ E E') in Hkv. done.
    + intros P HP. now apply Forall_cons in HP as [_ HP].
  - destruct (dict_pop t k) as [[v' t']|] eqn:Ep; [|done].
    intros [= <- <-]. destruct (IH _ _ eq_refl) as (k0 & Hk0 & Hp & Hd & HF).
    exists k0. split; [done|]. split; [|split].
    + rewrite Hp. apply perm_swap.
    + intros [H1 H2]. destruct (Hd H2) as [Hd1 Hd2]. split.
      * simpl. split; [now apply HF|done].
      * unfold dict_mem. simpl. rewrite E. exact Hd2.
    + intros P HP. apply Forall_cons in HP as [HP1 HP]. constructor; auto.
Qed.

Lemma dict_pop_own d k c :
  keys_distinct d -> (k, c) ∈ d -> item_eqb k k = true ->
  exists d', dict_pop d k = Some (c, d') /\ d ≡ₚ (k, c) :: d'.
Proof.
  induction d as [|[k' v] t IH]; simpl; intros KD Hin Hr.
  - now apply elem_of_nil in Hin.
  - destruct KD as [KD1 KD2]. apply elem_of_cons in Hin as [[= <- <-]|Hin].
    + rewrite Hr. now exists t.
    + rewrite Forall_forall in KD1. specialize (KD1 _ Hin). simpl in KD1.
      rewrite KD1. destruct (IH KD2 Hin Hr) as (d' & -> & Hp).
      exists ((k', v) :: d'). split; [done|]. rewrite Hp. apply perm_swap.
Qed.


Lemma dict_pop_mem d k :
  dict_mem d k = true -> exists c d', dict_pop d k = Some (c, d').
Proof.
  unfold dict_mem. induction d as [|[k' v] t IH]; simpl; [done|].
  destruct (item_eqb k' k); simpl; [eauto|].
  intros H. destruct (IH H) as (c & d' & ->). eauto.
Qed.

Lemma keys_distinct_snoc d k c :
  keys_distinct d -> dict_mem d k = false -> keys_distinct (d ++ [(k, c)]).
Proof.
  induction d as [|kv t IH]; simpl; [auto|].
  intros [H1 H2] [E1 E2]%orb_false_iff. split; [|auto].
  apply Forall_app. split; [done|]. constructor; [|constructor]. done.
Qed.

(** *** Well-formedness is preserved *)

Lemma wf_new : wf new_queue.
Proof. split; simpl; constructor. Qed.

Lemma wf_remove s item s' :
  wf s -> remove item_eqb s item = Ok s' ->
  wf s' /\ dict_mem (_entry_finder s') item = false /\ _counter s' = _counter s.
Proof.
  intros [W1 W2 W3 W4 W5]. unfold remove.
  destruct (dict_pop (_entry_finder s) item) as [[c d]|] eqn:Ep; [|done].
  intros [= <-]. simpl.
  destruct (dict_pop_spec _ _ _ _ Ep) as (k' & Hk & Hp & Hd & HF).
  destruct (Hd W4) as [Hd1 Hd2]. split; [|done].
  split; simpl.
  - now rewrite counts_mark_removed.
  - unfold mark_removed. rewrite Forall_forall in W2 |- *.
    intros en [en0 [-> Hin]]%list_elem_of_fmap.
    specialize (W2 _ Hin). now destruct (Nat.eqb _ _).
  - rewrite live_pairs_mark_removed. eapply filter_other_counts.
    + exact (sublist_NoDup _ _ W1 (live_counts_sublist _)).
    + rewrite W3. exact Hp.
  - done.
  - now apply HF.
Qed.

Lemma wf_push_fresh s item :
  wf s -> dict_mem (_entry_finder s) item = false -> item_eqb item item = true ->
  let c := S (_counter s) in
  wf {| _queue := heappush (_queue s)
                    {| e_x := item_x item; e_count := c; e_item := Some item |};
        _entry_finder := dict_set (_entry_finder s) item c;
        _counter := c |}.
Proof.
  intros [W1 W2 W3 W4 W5] Hm Hr c. rewrite dict_set_fresh by done.
  split; simpl.
  - rewrite heappush_perm. simpl. apply NoDup_cons. split; [|done].
    intros [en [E Hin]]%list_elem_of_fmap. rewrite Forall_forall in W2.
    specialize (W2 _ Hin). lia.
  - rewrite heappush_perm. constructor; simpl; [lia|].
    eapply Forall_impl; [exact W2|]. simpl. lia.
  - rewrite live_pairs_heappush, live_pairs_cons. simpl. rewrite W3.
    apply Permutation_cons_append.
  - now apply keys_distinct_snoc.
  - apply Forall_app. split; [done|]. now constructor.
Qed.

Lemma wf_push s item s' :
  wf s -> item_eqb item item = true -> push item_eqb item_x s item = Ok s' ->
  wf s' /\ (item, _counter s') ∈ _entry_finder s'.
Proof.
  intros W Hr. unfold push.
  destruct (dict_mem (_entry_finder s) item) eqn:Hm.
  - destruct (dict_pop_mem _ _ Hm) as (c & d & Ep).
    assert (R : remove item_eqb s item =
                Ok {| _queue := mark_removed c (_queue s);
                      _entry_finder := d; _counter := _counter s |})
      by (unfold remove; now rewrite Ep).
    rewrite R. simpl. destruct (wf_remove _ _ _ W R) as (W' & Hm' & _).
    intros [= <-]. split.
    + exact (wf_push_fresh _ _ W' Hm' Hr).
    + simpl in *. rewrite dict_set_fresh by done.
      apply elem_of_app. right. now left.
  - simpl. intros [= <-]. split.
    + exact (wf_push_fresh _ _ W Hm Hr).
    + simpl. rewrite dict_set_fresh by done. apply elem_of_app. right. now left.
Qed.

Lemma pop_live_None (q : list (entry T)) :
  pop_live q = None -> live_pairs q = [].
Proof.
  induction q as [|en t IH]; [done|]. rewrite live_pairs_cons. simpl.
  destruct (e_item en); [done|auto].
Qed.

Lemma pop_live_Some (q : list (entry T)) item q' :
  pop_live q = Some (item, q') ->
  exists pre en,
    q = pre ++ en :: q' /\ e_item en = Some item /\ live_pairs pre = [].
Proof.
  induction q as [|en t IH]; [done|]. simpl.
  destruct (e_item en) as [it|] eqn:E.
  - intros [= <- <-]. now exists [], en.
  - intros H. destruct (IH H) as (pre & en' & -> & ? & Hp).
    exists (en :: pre), en'. split; [done|]. split; [done|].
    rewrite live_pairs_cons, E. done.
Qed.

Lemma live_pairs_app (q1 q2 : list (entry T)) :
  live_pairs (q1 ++ q2) = live_pairs q1 ++ live_pairs q2.
Proof. apply omap_app. Qed.

Lemma mark_removed_absent c (q : list (entry T)) :
  c ∉ map e_count q -> mark_removed c q = q.
Proof.
  induction q as [|en t IH]; [done|]. simpl.
  intros [Hne Hc]%not_elem_of_cons.
  destruct (Nat.eqb_spec (e_count en) c); [congruence|].
  f_equal. now apply IH.
Qed.

(** [pop] on a well-formed queue: it never raises, returns the first
    live item of the heap and leaves the other live entries. *)
Lemma wf_pop s :
  wf s ->
  exists r s',
    pop item_eqb s = Ok (r, s') /\ wf s' /\ _counter s' = _counter s /\
    match r with
    | None => live_pairs (_queue s) = [] /\ live_pairs (_queue s') = []
    | Some item =>
        exists c, live_pairs (_queue s) = (item, c) :: live_pairs (_queue s') /\
                  (c ∉ map e_count (_queue s')) /\
                  item_eqb item item = true /\
                  _entry_finder s ≡ₚ (item, c) :: _entry_finder s'
    end.
Proof.
  intros [W1 W2 W3 W4 W5]. unfold pop.
  destruct (pop_live (_queue s)) as [[item q']|] eqn:Ep.
  - destruct (pop_live_Some _ _ _ Ep) as (pre & en & Hq & Hit & Hpre).
    assert (Hl : live_pairs (_queue s) = (item, e_count en) :: live_pairs q').
    { rewrite Hq, live_pairs_app, Hpre, live_pairs_cons, Hit. done. }
    assert (Hin : (item, e_count en) ∈ _entry_finder s).
    { rewrite <- W3, Hl. now left. }
    assert (Hr : item_eqb item item = true).
    { rewrite Forall_forall in W5. exact (W5 _ Hin). }
    destruct (dict_pop_own _ _ _ W4 Hin Hr) as (d' & Ed & Hp).
    rewrite Ed. eexists _, _. split; [reflexivity|]. simpl.
    destruct (dict_pop_spec _ _ _ _ Ed) as (_ & _ & _ & Hd & HF).
    rewrite Hq, map_app in W1. simpl in W1.
    apply NoDup_app in W1 as (_ & _ & W1). apply NoDup_cons in W1 as [Hc W1].
    rewrite Hq, Forall_app, Forall_cons in W2. destruct W2 as (_ & _ & W2).
    split; [|split; [done|]].
    + split; simpl; auto.
      * rewrite Hl, Hp in W3. now apply Permutation_cons_inv in W3.
      * now apply Hd.
    + exists (e_count en). done.
  - eexists _, _. split; [reflexivity|]. simpl.
    pose proof (pop_live_None _ Ep) as Hl.
    rewrite Hl in W3. apply Permutation_nil_l in W3.
    split; [|done].
    split; simpl; try constructor. now rewrite <- W3. now rewrite <- W3. now rewrite <- W3.
Qed.

Lemma wf_top s r s' :
  wf s -> top item_eqb item_x s = Ok (r, s') -> wf s'.
Proof.
  intros W. destruct (wf_pop _ W) as (r0 & s0 & Hpop & W0 & Hc0 & Hr0).
  unfold top. unfold pop in Hpop.
  destruct (pop_live (_queue s)) as [[item q']|] eqn:Ep.
  - destruct (dict_pop (_entry_finder s) item) as [[c d]|] eqn:Ed; [|done].
    injection Hpop as <- <-. destruct Hr0 as (c0 & Hl & Hc & Hr & Hp).
    simpl in *.
    destruct (push item_eqb item_x (with_queue s q') item) as [s1| |] eqn:Epush;
      simpl; [|done..].
    intros [= <- <-]. revert Epush. unfold push. simpl.
    assert (Hm : dict_mem (_entry_finder s) item = true).
    { unfold dict_mem. apply existsb_exists. exists (item, c0). split; [|done].
      apply list_elem_of_In. rewrite Hp. now left. }
    rewrite Hm. unfold remove. simpl. rewrite Ed. simpl.
    assert (c = c0) as ->.
    { destruct W as [_ _ _ W4 _].
      assert (Hin : (item, c0) ∈ _entry_finder s) by (rewrite Hp; now left).
      destruct (dict_pop_own _ _ _ W4 Hin Hr) as (d' & Ed' & _). congruence. }
    rewrite mark_removed_absent by done.
    intros [= <-].
    assert (Hm' : dict_mem d item = false).
    { destruct (dict_pop_spec _ _ _ _ Ed) as (_ & _ & _ & Hd & _).
      destruct W as [_ _ _ W4 _]. now apply Hd. }
    exact (wf_push_fresh _ _ W0 Hm' Hr).
  - injection Hpop as <- <-. now intros [= <- <-].
Qed.

Lemma reachable_wf s : reachable item_eqb item_x s -> wf s.
Proof.
  induction 1 as [|s item s' _ IH Hr Hp|s r s' _ IH Hp|s r s' _ IH Hp|s item s' _ IH Hp].
  - apply wf_new.
  - now destruct (wf_push _ _ _ IH Hr Hp).
  - destruct (wf_pop _ IH) as (r0 & s0 & Hpop & W0 & _). congruence.
  - exact (wf_top _ _ _ IH Hp).
  - now destruct (wf_remove _ _ _ IH Hp).
Qed.

(** *** Emptying the queue *)

Lemma pop_all_live fuel s :
  wf s -> length (live_pairs (_queue s)) < fuel ->
  pop_all item_eqb fuel s = Ok (map fst (live_pairs (_queue s))).
Proof.
  revert s. induction fuel as [|fuel IH]; intros s W Hlen; [lia|].
  simpl. destruct (wf_pop _ W) as (r & s' & -> & W' & _ & Hr). simpl.
  destruct r as [item|].
  - destruct Hr as (c & Hl & _). rewrite Hl in Hlen |- *. simpl in *.
    rewrite IH by (done || lia). done.
  - destruct Hr as [-> _]. done.
Qed.

Lemma length_live_pairs (q : list (entry T)) : length (live_pairs q) <= length q.
Proof.
  induction q as [|en t IH]; [done|]. rewrite live_pairs_cons.
  destruct (e_item en); simpl; lia.
Qed.

Lemma count_eqb_perm item (l1 l2 : list T) :
  l1 ≡ₚ l2 -> count_eqb item_eqb item l1 = count_eqb item_eqb item l2.
Proof. induction 1; simpl; lia. Qed.

Lemma count_eqb_distinct item (d : list (T * nat)) :
  Forall (fun kv => item_eqb (fst kv) item = false) d ->
  count_eqb item_eqb item (map fst d) = 0.
Proof. induction 1 as [|kv t H _ IH]; simpl; [done|]. now rewrite H. Qed.


End QueueFacts.

Lemma Point_eqb_sym a b : Point_eqb a b = Point_eqb b a.
Proof.
  unfold Point_eqb.
  now rewrite (FloatFacts.eqb_sym (px a)), (FloatFacts.eqb_sym (py a)).
Qed.

Lemma Point_eqb_trans a b c :
  Point_eqb a b = true -> Point_eqb b c = true -> Point_eqb a c = true.
Proof.
  unfold Point_eqb. rewrite !andb_true_iff. intros [H1 H2] [H3 H4].
  split; eapply FloatFacts.eqb_trans; eauto.
Qed.

Section QueueKeys.
Context {T : Type}.
Variable item_eqb : T -> T -> bool.
Variable item_x : T -> float.
Hypothesis eqb_sym : forall a b, item_eqb a b = item_eqb b a.
Hypothesis eqb_trans :
  forall a b c, item_eqb a b = true -> item_eqb b c = true -> item_eqb a c = true.



Lemma push_total s item : exists s', push item_eqb item_x s item = Ok s'.
Proof.
  unfold push. destruct (dict_mem item_eqb (_entry_finder s) item) eqn:Hm.
  - destruct (dict_pop_mem item_eqb _ _ Hm) as (c & d & Ed).
    unfold remove. rewrite Ed. simpl. eauto.
  - simpl. eauto.
Qed.

End QueueKeys.

(** ** What [top] keeps *)

Section Peek.
Context {T : Type}.
Variable item_eqb : T -> T -> bool.
Variable item_x : T -> float.
Hypothesis eqb_sym : forall a b, item_eqb a b = item_eqb b a.
Hypothesis eqb_trans :
  forall a b c, item_eqb a b = true -> item_eqb b c = true -> item_eqb a c = true.

(** What [top] does keep: on a well-formed queue it never raises, it
    returns what [pop] would return, and the live items afterwards are the
    live items before, up to their order. *)
Lemma top_keeps_items s :
  wf item_eqb s ->
  exists r s1 s2,
    top item_eqb item_x s = Ok (r, s1) /\ pop item_eqb s = Ok (r, s2) /\
    map fst (live_pairs (_queue s1)) ≡ₚ map fst (live_pairs (_queue s)).
Proof.
  intros W.
  destruct (wf_pop item_eqb eqb_sym eqb_trans s W) as (r & s2 & Hpop & W2 & _ & Hr).
  unfold top. pose proof Hpop as Hpop'. unfold pop in Hpop'.
  destruct (pop_live (_queue s)) as [[item q']|] eqn:Ep.
  - destruct (dict_pop item_eqb (_entry_finder s) item) as [[c d]|] eqn:Ed; [|done].
    injection Hpop' as <- <-. destruct Hr as (c0 & Hl & Hc & Hrefl & Hp).
    simpl in *.
    assert (Hm : dict_mem item_eqb (_entry_finder s) item = true).
    { unfold dict_mem. apply existsb_exists. exists (item, c0). split; [|done].
      apply list_elem_of_In. rewrite Hp. now left. }
    assert (c = c0) as ->.
    { destruct W as [_ _ _ W4 _].
      assert (Hin : (item, c0) ∈ _entry_finder s) by (rewrite Hp; now left).
      destruct (dict_pop_own item_eqb _ _ _ W4 Hin Hrefl) as (d' & Ed' & _).
      congruence. }
    unfold push, remove. simpl. rewrite Hm, Ed. simpl.
    rewrite (mark_removed_absent _ _ Hc).
    eexists _, _, _. split; [reflexivity|]. split; [exact Hpop|]. simpl.
    rewrite live_pairs_heappush, live_pairs_cons, Hl. done.
  - injection Hpop' as <- <-. eexists _, _, _. split; [reflexivity|].
    split; [exact Hpop|]. simpl. destruct Hr as [-> _]. done.
Qed.
End Peek.

(** ** The running maximum never decreases *)

Lemma radius_le_refl a : radius_le a a.
Proof. now left. Qed.

Lemma radius_le_trans a b c : radius_le a b -> radius_le b c -> radius_le a c.
Proof.
  intros [->|H1] [->|H2]; [now left|now right|now right|].
  right. eapply FloatFacts.ltb_trans; eauto.
Qed.

Lemma rbind_Ok {A B} (m : result A) (k : A -> result B) b :
  rbind m k = Ok b -> exists a, m = Ok a /\ k a = Ok b.
Proof. destruct m; simpl; [eauto|done..]. Qed.

Lemma max_grows_refl v : max_grows v v.
Proof. apply radius_le_refl. Qed.

Lemma max_grows_trans v1 v2 v3 : max_grows v1 v2 -> max_grows v2 v3 -> max_grows v1 v3.
Proof. apply radius_le_trans. Qed.

Lemma record_circle_grows c r v : max_grows v (record_circle c r v).
Proof.
  unfold record_circle, max_grows.
  destruct (_ <? EPSILON)%float; simpl; [apply radius_le_refl|].
  destruct (_ <? r)%float eqn:E; simpl; [now right|apply radius_le_refl].
Qed.

(** Peeling the layers of a monadic definition that returned [Ok]. *)
Ltac peel :=
  repeat match goal with
    | H : rbind _ _ = Ok _ |- _ =>
        let a := fresh "a" in let E := fresh "E" in
        apply rbind_Ok in H as (a & E & H)
    | H : (let (_, _) := ?p in _) = Ok _ |- _ => destruct p eqn:?
    | H : (match ?x with _ => _ end) = Ok _ |- _ => destruct x eqn:?; try discriminate H
    | H : Ok _ = Ok _ |- _ => injection H as H; try subst
    | H : (_, _) = (_, _) |- _ => injection H as ? ?; try subst
    end.

Lemma max_invalidate_old a v :
  max_circle_radius (invalidate_old a v) = max_circle_radius v.
Proof.
  unfold invalidate_old. destruct (arc_e a); [|done].
  now destruct (negb _).
Qed.

Lemma max_insert_copy i a f v :
  max_circle_radius (insert_copy i a f v) = max_circle_radius v.
Proof. unfold insert_copy. now destruct (pnext a), f. Qed.

Ltac same_max :=
  unfold max_grows; simpl;
  rewrite ?max_invalidate_old, ?max_insert_copy; apply radius_le_refl.

Lemma schedule_grows i ap ai an x o v v' :
  schedule_circle_event i ap ai an x o v = Ok v' -> max_grows v v'.
Proof.
  unfold schedule_circle_event. intros H. peel.
  - eapply max_grows_trans; [|apply record_circle_grows]. same_max.
  - same_max.
Qed.

Lemma check_grows i sweep v v' :
  _check_potential_circle_event i sweep v = Ok v' -> max_grows v v'.
Proof.
  unfold _check_potential_circle_event. intros H.
  peel; try same_max.
  eapply max_grows_trans; [|eapply schedule_grows; eauto]. same_max.
Qed.

Ltac collect :=
  repeat match goal with
    | H : _check_potential_circle_event _ _ _ = Ok _ |- _ =>
        apply check_grows in H; unfold max_grows in H; simpl in H
    end.

Ltac chain :=
  unfold max_grows in *; simpl in *;
  rewrite ?max_invalidate_old, ?max_insert_copy in *;
  eauto 8 using radius_le_trans, radius_le_refl.

Lemma new_edges_max n z v v' :
  new_edges n z v = Ok v' -> max_circle_radius v' = max_circle_radius v.
Proof. unfold new_edges, alloc_seg. intros H. peel. done. Qed.

Lemma recheck_split_grows n sweep v v' :
  recheck_split n sweep v = Ok v' -> max_grows v v'.
Proof. unfold recheck_split. intros H. peel. collect. chain. Qed.

Ltac collect1 :=
  repeat match goal with
    | H : new_edges _ _ _ = Ok _ |- _ => apply new_edges_max in H
    | H : recheck_split _ _ _ = Ok _ |- _ => apply recheck_split_grows in H
    end.

Ltac chain_eq :=
  unfold max_grows in *; simpl in *;
  rewrite ?max_invalidate_old, ?max_insert_copy in *;
  repeat match goal with
    | H : max_circle_radius _ = _ |- _ => rewrite H in *; clear H
    end;
  simpl in *; rewrite ?max_invalidate_old, ?max_insert_copy in *;
  eauto 8 using radius_le_trans, radius_le_refl.

Lemma split_arc_grows p i z v v' : split_arc p i z v = Ok v' -> max_grows v v'.
Proof.
  unfold split_arc, insert_new, alloc_arc. intros H. peel. collect1. chain_eq.
Qed.

Lemma append_arc_grows p h v v' : append_arc p h v = Ok v' -> max_grows v v'.
Proof. unfold append_arc, alloc_arc. intros H. peel. chain. Qed.

Lemma add_arc_grows p v v' :
  _add_parabolic_parabolicArc p v = Ok v' -> max_grows v v'.
Proof.
  unfold _add_parabolic_parabolicArc, alloc_arc. intros H. peel.
  - eapply split_arc_grows; eauto.
  - eapply append_arc_grows; eauto.
  - chain.
Qed.

Lemma site_event_grows v v' : _process_site_event v = Ok v' -> max_grows v v'.
Proof.
  unfold _process_site_event. intros H. peel.
  apply add_arc_grows in H. chain.
Qed.

Lemma unlink_arc_max a s v v' :
  unlink_arc a s v = Ok v' -> max_circle_radius v' = max_circle_radius v.
Proof. unfold unlink_arc. intros H. peel; simpl; now destruct (pprev _). Qed.

Lemma finish_arc_edges_max a p v v' :
  finish_arc_edges a p v = Ok v' -> max_circle_radius v' = max_circle_radius v.
Proof. unfold finish_arc_edges. intros H. peel. now destruct (s1 _), (s0 _). Qed.

Lemma recheck_unlink_grows a sweep v v' :
  recheck_unlink a sweep v = Ok v' -> max_grows v v'.
Proof. unfold recheck_unlink. intros H. peel; collect; chain. Qed.

Ltac collect2 :=
  repeat match goal with
    | H : unlink_arc _ _ _ = Ok _ |- _ => apply unlink_arc_max in H
    | H : finish_arc_edges _ _ _ = Ok _ |- _ => apply finish_arc_edges_max in H
    | H : recheck_unlink _ _ _ = Ok _ |- _ => apply recheck_unlink_grows in H
    end.

Lemma circle_event_grows v v' : _process_circle_event v = Ok v' -> max_grows v v'.
Proof.
  unfold _process_circle_event, alloc_seg. intros H. peel.
  - collect2. chain_eq.
  - same_max.
Qed.

Lemma process_all_grows fuel v v' :
  _process_all_events fuel v = Ok v' -> max_grows v v'.
Proof.
  revert v. induction fuel as [|fuel IH]; intros v; simpl.
  - destruct (empty (points v)); [|done]. intros [= <-]. apply max_grows_refl.
  - destruct (empty (points v)); [intros [= <-]; apply max_grows_refl|].
    intros H. apply rbind_Ok in H as ([b v1] & E & H).
    apply rbind_Ok in H as (v2 & E2 & H). apply IH in H.
    assert (G1 : max_grows v v1).
    { destruct (empty (events v)); peel; same_max. }
    assert (G2 : max_grows v1 v2).
    { destruct b; [now apply circle_event_grows|now apply site_event_grows]. }
    eauto using max_grows_trans.
Qed.

Lemma process_remaining_grows fuel v v' :
  _process_remaining_events fuel v = Ok v' -> max_grows v v'.
Proof.
  revert v. induction fuel as [|fuel IH]; intros v; simpl.
  - destruct (empty (events v)); [|done]. intros [= <-]. apply max_grows_refl.
  - destruct (empty (events v)); [intros [= <-]; apply max_grows_refl|].
    intros H. apply rbind_Ok in H as (v1 & E & H).
    apply circle_event_grows in E. apply IH in H. eauto using max_grows_trans.
Qed.

Lemma complete_edge_max i j v :
  max_circle_radius (complete_edge i j v) = max_circle_radius v.
Proof.
  unfold complete_edge.
  repeat match goal with |- context [match ?x with _ => _ end] => destruct x end; done.
Qed.

Lemma complete_from_max fuel i v v' :
  complete_from fuel i v = Ok v' -> max_circle_radius v' = max_circle_radius v.
Proof.
  revert i v. induction fuel as [|fuel IH]; intros [i|] v; simpl; intros H; peel; try done.
  apply IH in H. now rewrite complete_edge_max in H.
Qed.

Lemma two_points_max v v' :
  _handle_two_points_case v = Ok v' -> max_circle_radius v' = max_circle_radius v.
Proof. unfold _handle_two_points_case. intros H. peel; done. Qed.

Lemma add_points_max pts v v' :
  _add_points pts v = Ok v' -> max_circle_radius v' = max_circle_radius v.
Proof.
  revert v. induction pts as [|[x y] pts IH]; simpl; intros v H; peel; [done|].
  now apply IH in H.
Qed.

(** ** The priority queue: peeking, replacing, running dry *)

Lemma pop_live_dead {T} (q : list (entry T)) :
  Forall (fun en => e_item en = None) q -> pop_live q = None.
Proof. induction 1 as [|en t H _ IH]; simpl; [done|]. now rewrite H. Qed.

(** C10: on a queue without live items (no entry at all, or removed
    entries only) [pop] and [top] return [None]; they do not raise. *)
Theorem pop_top_without_live_items {T} (item_eqb : T -> T -> bool)
    (item_x : T -> float) (s : EventPriorityQueue T) :
  Forall (fun en => e_item en = None) (_queue s) ->
  pop item_eqb s = Ok (None, with_queue s []) /\
  top item_eqb item_x s = Ok (None, with_queue s []).
Proof.
  intros H. unfold pop, top. now rewrite (pop_live_dead _ H).
Qed.

Lemma pop_top_without_live_items_witness :
  (let! s := push_point new_queue (mkPoint 1 1) in
   remove Point_eqb s (mkPoint 1 1)) = Ok tombstone_queue /\
  pop_point tombstone_queue = Ok (None, with_queue tombstone_queue []) /\
  top_point tombstone_queue = Ok (None, with_queue tombstone_queue []).
Proof.
  split; [vm_compute; reflexivity|].
  apply (pop_top_without_live_items Point_eqb px tombstone_queue).
  repeat constructor.
Defined.

Lemma push_sites_reachable l s s' :
  Forall proper l -> reachable Point_eqb px s -> push_sites l s = Ok s' ->
  reachable Point_eqb px s'.
Proof.
  intros Hl. revert s. induction Hl as [|p l Hp _ IH]; simpl; intros s R H.
  - now injection H as <-.
  - apply rbind_Ok in H as (s1 & E & H). eapply IH; [|exact H].
    eapply reach_push; eauto.
Qed.

(** C3 at the input "push A, push B" with equal [x]: the queue is a
    reachable one; emptied at once it returns A then B; but [top] hands
    back A and queues it again behind B, so that the pops after [top]
    return B before A. *)
Theorem top_reorders_equal_priorities :
  let A := mkPoint 1 0 in
  let B := mkPoint 1 5 in
  (exists s, push_sites [A; B] new_queue = Ok s /\ reachable Point_eqb px s) /\
  (let! s := push_sites [A; B] new_queue in drain s) = Ok [A; B] /\
  (let! s := push_sites [A; B] new_queue in peek_then_drain s)
    = Ok (Some A, [B; A]).
Proof.
  intros A B. split; [|split; vm_compute; reflexivity].
  destruct (push_sites [A; B] new_queue) as [s| |] eqn:E;
    [|vm_compute in E; discriminate..].
  exists s. split; [done|].
  eapply push_sites_reachable; [|apply reach_new|exact E].
  repeat constructor.
Qed.



Abbreviation wfp := (wf Point_eqb).
Abbreviation memp := (dict_mem Point_eqb).


Lemma add_points_push_sites pts v :
  _add_points pts v =
  let! s := push_sites (map site pts) (points v) in Ok (with_points s v).
Proof.
  revert v. induction pts as [|[x y] pts IH]; intros v; simpl.
  - now destruct v.
  - unfold site at 1. simpl.
    destruct (push_point (points v) (mkPoint x y)) as [s1| |]; simpl; [|done..].
    rewrite IH. simpl. now destruct (push_sites _ s1).
Qed.



(** ** The two-site example *)

(** C5: sites (0,0) and (10,0) in a 10 x 10 box.  The entry finder holds
    two sites, so [generate_voronoi_diagram] is [_handle_two_points_case]
    whatever the fuel (the sweep loops are not entered and no arc is
    created); the output is one finished edge, from (5,-10) to (5,10): its
    midpoint is (5,0) and it is vertical. *)
Theorem two_sites_bisector :
  exists v0,
    init two_sites 10 10 = Ok v0 /\
    length (_entry_finder (points v0)) = 2 /\
    (forall fuel, generate_voronoi_diagram fuel v0 = _handle_two_points_case v0) /\
    forall fuel, exists v,
      run fuel two_sites 10 10 = Ok v /\
      arcs v = [] /\ parabolicArc v = None /\
      output v = [two_sites_edge] /\
      get_voronoi_line_segments v = [(5, -10, 5, 10)%float] /\
      midpoint (5, -10, 5, 10)%float = (5, 0)%float /\
      vertical (5, -10, 5, 10)%float = true.
Proof.
  destruct (init two_sites 10 10) as [v0| |] eqn:E; [|vm_compute in E; discriminate..].
  exists v0. split; [done|].
  vm_compute in E. injection E as <-.
  split; [reflexivity|]. split; [reflexivity|].
  intros fuel. eexists. split; [unfold run; vm_compute; reflexivity|].
  repeat split; vm_compute; reflexivity.
Qed.

(** ** Reported circles and edges on concrete inputs *)

(** C1 at the input [four_sites]: the run ends without an exception and
    reports one largest empty circle, centred at (3.5, 2.5) with radius
    sqrt 2.5 and defined by (2,2), (2,3), (3,4); the site (3,2) is none
    of the three and lies at distance sqrt 0.5 from the centre, strictly
    inside.  The circle was tested when (3,4) was inserted: by then (3,2)
    had left [points._entry_finder], the only sites the test looks at. *)
Theorem reported_circle_contains_a_site :
  exists v,
    run 100 four_sites 10 10 = Ok v /\
    get_largest_empty_circles v = [four_sites_circle] /\
    defining (mkPoint 3 2) four_sites_circle = false /\
    distance_to (mkPoint 3 2) (mkPoint 3.5 2.5) = Ok (PrimFloat.sqrt 0.5) /\
    strictly_inside (mkPoint 3 2) four_sites_circle = true /\
    ~ emptiness_invariant four_sites v.
Proof.
  destruct (run 100 four_sites 10 10) as [v| |] eqn:E; [|vm_compute in E; discriminate..].
  exists v. split; [done|].
  assert (Hc : get_largest_empty_circles v = [four_sites_circle]).
  { vm_compute in E. injection E as <-. vm_compute. reflexivity. }
  split; [done|]. split; [vm_compute; reflexivity|].
  split; [vm_compute; reflexivity|]. split; [vm_compute; reflexivity|].
  intros Hinv.
  specialize (Hinv four_sites_circle (3, 2)%float).
  rewrite Hc in Hinv.
  specialize (Hinv ltac:(left) ltac:(unfold four_sites; do 2 right; left)).
  vm_compute in Hinv. specialize (Hinv eq_refl). discriminate.
Qed.

(** C2 is false at [level_sites]: no site is on the boundary, and the one
    edge that is returned runs from (5,-5) to (5,15), five units outside the
    box at both ends, which no tolerance up to 1 covers. *)
Lemma two_site_edge_leaves_the_box :
  exists v,
    run 100 level_sites 10 10 = Ok v /\
    get_voronoi_line_segments v = [(5, -5, 5, 15)%float] /\
    ~ containment EPSILON level_sites 10 10 v /\
    ~ containment 1 level_sites 10 10 v.
Proof.
  destruct (run 100 level_sites 10 10) as [v| |] eqn:E; [|vm_compute in E; discriminate..].
  exists v. split; [done|].
  assert (Hs : get_voronoi_line_segments v = [(5, -5, 5, 15)%float]).
  { vm_compute in E. injection E as <-. vm_compute. reflexivity. }
  split; [done|].
  assert (Hb : forall xy, xy ∈ level_sites -> on_boundary 10 10 (site xy) = false).
  { intros xy Hin. unfold level_sites in Hin.
    repeat (apply elem_of_cons in Hin as [->|Hin]); [vm_compute; reflexivity..|].
    now apply elem_of_nil in Hin. }
  split; intros Hc; specialize (Hc Hb (5, -5, 5, 15)%float);
    rewrite Hs in Hc; specialize (Hc ltac:(left)); vm_compute in Hc; discriminate.
Qed.

(** ** The links of the beachline *)

Lemma dll_check_sound v : dll_check v = true -> dll_invariant v.
Proof.
  unfold dll_check. rewrite !andb_true_iff. intros [[Hh Hl] Hn]. split.
  - intros h a Eh Ea. unfold head_ok in Hh. rewrite Eh, Ea in Hh.
    now apply bool_decide_eq_true in Hh.
  - intros i j a b Hi Ea Ej Eb. rewrite forallb_forall in Hl.
    specialize (Hl i). unfold link_ok in Hl. rewrite Ea, Ej, Eb in Hl.
    eapply bool_decide_eq_true_1, Hl. now apply list_elem_of_In.
  - now apply bool_decide_eq_true in Hn.
Qed.

Lemma dll_invariant_links_fail v i j a b :
  i ∈ beachline v -> arcs v !! i = Some a -> pnext a = Some j ->
  arcs v !! j = Some b -> pprev b <> Some i -> ~ dll_invariant v.
Proof. intros Hi Ha Hj Hb Hne [_ HL _]. apply Hne. eapply HL; eauto. Qed.

(** C8 at the input [left_sites].  After the five site events and one
    circle event the beachline is 0, 2, 8, 7, 4, 3 and the invariant holds.
    The next event in the schedule is the one of arc 1 (sites (-8,-4),
    (-10,0), (-8,4); [x = 0]).  It is still valid: when arc 1 was
    re-evaluated and later unlinked, the guard [i.e.x != self.x0] kept it,
    because its [x] equals [self.x0 = 0]; arc 1 is no longer on the
    beachline.  Unlinking arc 1 once more sets [pnext] of arc 2 back to
    arc 6 (itself unlinked before): the beachline becomes 0, 2, 6, 8, 7, 4, 3
    where arc 6 has [pnext = 8] but arc 8 has [pprev = 2].  The run ends
    without an exception, in a state that still violates the invariant. *)
Theorem unlink_breaks_the_links :
  exists v0 v1 v2 v3 v e q,
    init left_sites 10 10 = Ok v0 /\
    _process_all_events 100 v0 = Ok v1 /\
    _process_circle_event v1 = Ok v2 /\
    beachline v2 = [0; 2; 8; 7; 4; 3] /\ dll_invariant v2 /\
    pop_event (events v2) = Ok (Some e, q) /\
    ev_a e = 1 /\ ev_x e = 0%float /\ is_valid e v2 = true /\
    (1 ∉ beachline v2) /\
    _process_circle_event v2 = Ok v3 /\
    beachline v3 = [0; 2; 6; 8; 7; 4; 3] /\
    (pnext <$> arcs v3 !! 6) = Some (Some 8) /\
    (pprev <$> arcs v3 !! 8) = Some (Some 2) /\
    ~ dll_invariant v3 /\
    run 100 left_sites 10 10 = Ok v /\ ~ dll_invariant v.
Proof.
  eexists _, _, _, _, _, _, _.
  split; [vm_compute; reflexivity|]. split; [vm_compute; reflexivity|].
  split; [vm_compute; reflexivity|].
  split; [vm_compute; reflexivity|].
  split; [apply dll_check_sound; vm_compute; reflexivity|].
  split; [vm_compute; reflexivity|].
  split; [reflexivity|]. split; [reflexivity|]. split; [vm_compute; reflexivity|].
  split.
  { intros H. vm_compute in H.
    repeat (apply elem_of_cons in H as [H|H]; [discriminate H|]).
    now apply elem_of_nil in H. }
  split; [vm_compute; reflexivity|].
  split; [vm_compute; reflexivity|].
  split; [vm_compute; reflexivity|]. split; [vm_compute; reflexivity|].
  split.
  - eapply (dll_invariant_links_fail _ 6 8);
      [vm_compute; do 2 right; left|vm_compute; reflexivity|reflexivity
      |vm_compute; reflexivity|simpl; discriminate].
  - split; [vm_compute; reflexivity|].
    eapply (dll_invariant_links_fail _ 6 8);
      [vm_compute; do 2 right; left|vm_compute; reflexivity|reflexivity
      |vm_compute; reflexivity|simpl; discriminate].
Qed.

(** ** Where the links are kept

    The mutations of the beachline are sound on their own: splitting an arc
    of the beachline, appending at its tail, and unlinking an arc that is on
    the beachline behind the head keep the list doubly linked.  The lemmas
    describe the beachline by the list of its arcs ([is_beachline]). *)

(** *** The beachline as a list of arcs *)

Lemma lk_Some s i p n :
  lk s i = Some (p, n) <-> exists a, s !! i = Some a /\ pprev a = p /\ pnext a = n.
Proof.
  unfold lk. destruct (s !! i) as [a|]; simpl; split.
  - intros [= <- <-]. eauto.
  - intros (a' & [= <-] & <- & <-). done.
  - done.
  - intros (a' & H & _). done.
Qed.

Lemma lk_lookup s i a : s !! i = Some a -> lk s i = Some (pprev a, pnext a).
Proof. unfold lk. now intros ->. Qed.

Lemma lk_lt s i x : lk s i = Some x -> i < length s.
Proof.
  unfold lk. destruct (s !! i) eqn:E; [|done]. intros _. eapply lookup_lt_Some, E.
Qed.

Lemma linked_frame s s' prev l nxt :
  (forall x, x ∈ l -> lk s' x = lk s x) -> linked s prev l nxt -> linked s' prev l nxt.
Proof.
  revert prev. induction l as [|i t IH]; intros prev Hf; simpl; [done|].
  intros [H1 H2]. split.
  - rewrite Hf; [done|left].
  - apply IH; [|done]. intros x Hx. apply Hf. now right.
Qed.

Lemma linked_in_store s prev l nxt i : linked s prev l nxt -> i ∈ l -> i < length s.
Proof.
  revert prev. induction l as [|j t IH]; intros prev; simpl.
  - intros _ H. now apply elem_of_nil in H.
  - intros [H1 H2] [->|H]%elem_of_cons; [eapply lk_lt, H1|eapply IH; eauto].
Qed.

Lemma hd_or_app l1 l2 nxt : hd_or (l1 ++ l2) nxt = hd_or l1 (hd_or l2 nxt).
Proof. now destruct l1. Qed.

Lemma last_or_cons i t prev : last_or (i :: t) prev = last_or t (Some i).
Proof. unfold last_or. destruct t as [|j t]; [done|].
  change (last (i :: j :: t)) with (last (j :: t)).
  destruct (last (j :: t)) eqn:E; [done|]. now apply last_None in E.
Qed.

Lemma last_or_snoc l i prev : last_or (l ++ [i]) prev = Some i.
Proof. unfold last_or. now rewrite last_snoc. Qed.

Lemma linked_app s prev l1 l2 nxt :
  linked s prev (l1 ++ l2) nxt <->
  linked s prev l1 (hd_or l2 nxt) /\ linked s (last_or l1 prev) l2 nxt.
Proof.
  revert prev. induction l1 as [|i t IH]; intros prev; simpl.
  - unfold last_or. simpl. tauto.
  - rewrite IH, hd_or_app, last_or_cons. tauto.
Qed.

Lemma linked_walk v prev i t fuel :
  linked (arcs v) prev (i :: t) None -> length (i :: t) <= fuel -> walk fuel i v = i :: t.
Proof.
  revert prev i fuel. induction t as [|j t IH]; intros prev i fuel [H1 H2] Hlen.
  - destruct fuel; [simpl in Hlen; lia|]. simpl.
    apply lk_Some in H1 as (a & -> & _ & ->). done.
  - destruct fuel; [simpl in Hlen; lia|]. simpl.
    apply lk_Some in H1 as (a & -> & _ & ->). simpl. f_equal.
    eapply IH; [exact H2|]. simpl in *. lia.
Qed.

Lemma NoDup_bounded (l : list nat) n :
  NoDup l -> Forall (fun i => i < n) l -> length l <= n.
Proof.
  intros Hnd Hall. rewrite <- (length_seq n 0).
  apply submseteq_length, NoDup_submseteq; [done|].
  intros x Hx. apply elem_of_seq. rewrite Forall_forall in Hall.
  apply Hall in Hx. lia.
Qed.

Lemma is_beachline_length v l : is_beachline v l -> length l <= length (arcs v).
Proof.
  intros (_ & Hl & Hnd). apply NoDup_bounded; [done|]. apply Forall_forall.
  intros x Hx. eapply linked_in_store; eauto.
Qed.

Lemma is_beachline_walk v l : is_beachline v l -> beachline v = l.
Proof.
  intros Hb. pose proof (is_beachline_length _ _ Hb) as Hlen.
  destruct Hb as (Hh & Hl & Hnd). unfold beachline. rewrite Hh.
  destruct l as [|i t]; [done|]. cbn [head].
  eapply linked_walk; [exact Hl|]. lia.
Qed.

Lemma linked_links s prev l i j p q m :
  linked s prev l None -> i ∈ l -> lk s i = Some (p, Some j) -> lk s j = Some (q, m) ->
  q = Some i.
Proof.
  revert prev. induction l as [|x t IH]; intros prev; simpl.
  - intros _ H. now apply elem_of_nil in H.
  - intros [H1 H2] [->|H]%elem_of_cons Hi Hj.
    + rewrite Hi in H1. injection H1 as -> Ht.
      destruct t as [|y t]; [done|]. simpl in Ht. injection Ht as <-.
      destruct H2 as [H2 _]. rewrite Hj in H2. now injection H2.
    + eapply IH; eauto.
Qed.

Lemma is_beachline_dll v l : is_beachline v l -> dll_invariant v /\ in_store v.
Proof.
  intros Hb. pose proof (is_beachline_walk _ _ Hb) as Hw.
  destruct Hb as (Hh & Hl & Hnd). split; [split|].
  - intros h a Eh Ea. rewrite Hh in Eh. destruct l as [|i t]; [done|].
    simpl in Eh. injection Eh as ->. destruct Hl as [H1 _].
    apply lk_Some in H1 as (a' & E & Hp & _). congruence.
  - intros i j a b Hi Ea Ej Eb. rewrite Hw in Hi.
    eapply (linked_links _ _ _ i j); [exact Hl|done| |].
    + apply lk_Some. eauto.
    + apply lk_Some. eauto.
  - now rewrite Hw.
  - unfold in_store. rewrite Hw. apply Forall_forall. intros x Hx.
    eapply linked_in_store; eauto.
Qed.

Lemma walk_linked v fuel i prev n :
  lk (arcs v) i = Some (prev, n) ->
  (forall x j a b, x ∈ walk fuel i v -> arcs v !! x = Some a -> pnext a = Some j ->
                   arcs v !! j = Some b -> pprev b = Some x) ->
  Forall (fun x => x < length (arcs v)) (walk fuel i v) ->
  length (walk fuel i v) < fuel ->
  linked (arcs v) prev (walk fuel i v) None.
Proof.
  revert i prev n. induction fuel as [|fuel IH]; intros i prev n Hi HL Hst Hlen.
  { simpl in Hlen. lia. }
  pose proof Hi as Hi'. apply lk_Some in Hi' as (a & Ea & Hp & Hn).
  simpl in *. rewrite Ea in *. destruct (pnext a) as [j|] eqn:En.
  - destruct fuel as [|fuel]; [simpl in Hlen; lia|].
    assert (Hj : j < length (arcs v)).
    { rewrite Forall_forall in Hst. apply Hst. right. left. }
    apply lookup_lt_is_Some in Hj as [b Eb].
    assert (Hb : pprev b = Some i) by (eapply (HL i j a b); eauto; left).
    split.
    + rewrite Hi. subst n. done.
    + eapply (IH j (Some i) (pnext b)).
      * apply lk_Some. eauto.
      * intros x j' a' b' Hx. apply HL. now right.
      * now inversion Hst.
      * lia.
  - simpl. split; [|done]. rewrite Hi. now subst n.
Qed.

Lemma dll_is_beachline v :
  dll_invariant v -> in_store v -> is_beachline v (beachline v).
Proof.
  intros [Hh HL Hnd] Hst. unfold is_beachline, in_store in *.
  unfold beachline in *. destruct (parabolicArc v) as [h|] eqn:Eh; [|done].
  split; [done|]. split; [|done].
  assert (Hin : h < length (arcs v)).
  { rewrite Forall_forall in Hst. apply Hst. left. }
  apply lookup_lt_is_Some in Hin as [a Ea].
  eapply (walk_linked v _ h None (pnext a)).
  - apply lk_Some. exists a. split; [done|]. split; [|done]. eapply Hh; eauto.
  - intros x j a' b' Hx. now apply HL.
  - done.
  - pose proof (NoDup_bounded _ _ Hnd Hst). lia.
Qed.

(** *** Reading the links after an update *)

Lemma lk_alter_ne f k s x : k <> x -> lk (alter f k s) x = lk s x.
Proof. intros H. unfold lk. now rewrite list_lookup_alter_ne. Qed.

Lemma lk_alter_keep f k s x :
  (forall a, pprev (f a) = pprev a /\ pnext (f a) = pnext a) ->
  lk (alter f k s) x = lk s x.
Proof.
  intros Hf. destruct (decide (k = x)) as [->|Hne]; [|now apply lk_alter_ne].
  unfold lk. rewrite list_lookup_alter_eq. destruct (s !! x) as [a|]; [|done].
  simpl. destruct (Hf a) as [-> ->]. done.
Qed.

Lemma lk_set_pnext y k s :
  lk (alter (set_pnext y) k s) k = (fun pn => (pn.1, y)) <$> lk s k.
Proof. unfold lk. rewrite list_lookup_alter_eq. now destruct (s !! k). Qed.

Lemma lk_set_pprev y k s :
  lk (alter (set_pprev y) k s) k = (fun pn => (y, pn.2)) <$> lk s k.
Proof. unfold lk. rewrite list_lookup_alter_eq. now destruct (s !! k). Qed.

Lemma lk_app_l s a x : x < length s -> lk (s ++ [a]) x = lk s x.
Proof. intros H. unfold lk. now rewrite lookup_app_l. Qed.

Lemma lk_app_new s a : lk (s ++ [a]) (length s) = Some (pprev a, pnext a).
Proof. unfold lk. now rewrite list_lookup_middle. Qed.

(** *** Steps that leave the links alone *)

Lemma keep_refl v : keep v v.
Proof. done. Qed.

Lemma keep_trans v1 v2 v3 : keep v1 v2 -> keep v2 v3 -> keep v1 v3.
Proof. intros [H1 H2] [H3 H4]. split; [congruence|]. intros x. now rewrite H4. Qed.

Lemma keep_beachline v v' l : keep v v' -> is_beachline v l -> is_beachline v' l.
Proof.
  intros [H1 H2] (Hh & Hl & Hnd). split; [congruence|]. split; [|done].
  eapply linked_frame; [|exact Hl]. auto.
Qed.

Lemma arcs_invalidate_old a v : arcs (invalidate_old a v) = arcs v.
Proof. unfold invalidate_old. destruct (arc_e a); [|done]. now destruct (negb _). Qed.

Lemma head_invalidate_old a v : parabolicArc (invalidate_old a v) = parabolicArc v.
Proof. unfold invalidate_old. destruct (arc_e a); [|done]. now destruct (negb _). Qed.

Lemma arcs_record_circle c r v : arcs (record_circle c r v) = arcs v.
Proof. unfold record_circle. now repeat destruct (_ <? _)%float. Qed.

Lemma head_record_circle c r v : parabolicArc (record_circle c r v) = parabolicArc v.
Proof. unfold record_circle. now repeat destruct (_ <? _)%float. Qed.

Ltac keep_links :=
  split;
  [ simpl; rewrite ?head_invalidate_old, ?head_record_circle; simpl;
    rewrite ?head_invalidate_old, ?head_record_circle; done
  | intros ?; simpl; rewrite ?arcs_record_circle, ?arcs_invalidate_old; simpl;
    repeat (rewrite lk_alter_keep by (intros; split; reflexivity));
    rewrite ?arcs_record_circle, ?arcs_invalidate_old; done ].

Lemma keep_schedule i ap ai an x o v v' :
  schedule_circle_event i ap ai an x o v = Ok v' -> keep v v'.
Proof. unfold schedule_circle_event. intros H. peel; keep_links. Qed.

Lemma keep_check i sweep v v' :
  _check_potential_circle_event i sweep v = Ok v' -> keep v v'.
Proof.
  unfold _check_potential_circle_event. intros H. peel; try keep_links.
  eapply keep_trans; [|eapply keep_schedule; eauto]. keep_links.
Qed.

Lemma keep_new_edges n z v v' : new_edges n z v = Ok v' -> keep v v'.
Proof. unfold new_edges, alloc_seg. intros H. peel. keep_links. Qed.

Lemma keep_recheck_split n sweep v v' : recheck_split n sweep v = Ok v' -> keep v v'.
Proof.
  unfold recheck_split. intros H. peel.
  repeat match goal with
    | H : _check_potential_circle_event _ _ _ = Ok _ |- _ => apply keep_check in H
    end.
  eauto using keep_trans.
Qed.

Lemma keep_finish_arc_edges a p v v' : finish_arc_edges a p v = Ok v' -> keep v v'.
Proof.
  unfold finish_arc_edges, finish_seg. intros H. peel.
  destruct (s1 _), (s0 _); keep_links.
Qed.

Lemma keep_recheck_unlink a sweep v v' : recheck_unlink a sweep v = Ok v' -> keep v v'.
Proof.
  unfold recheck_unlink. intros H. peel;
  repeat match goal with
    | H : _check_potential_circle_event _ _ _ = Ok _ |- _ => apply keep_check in H
    end;
  eauto using keep_trans, keep_refl.
Qed.

(** *** The mutations on the list of links *)

Lemma lk_app_at s a x : x = length s -> lk (s ++ [a]) x = Some (pprev a, pnext a).
Proof. intros ->. apply lk_app_new. Qed.

Ltac len := rewrite ?length_alter, ?length_app; simpl; lia.

Ltac lk_simpl :=
  repeat first
    [ rewrite lk_set_pnext
    | rewrite lk_set_pprev
    | rewrite lk_alter_keep by first [assumption | intros; split; reflexivity]
    | rewrite lk_alter_ne by len
    | rewrite lk_app_at by len
    | rewrite lk_app_l by len ].

Lemma NoDup_insert_fresh (l1 new l2 : list nat) :
  NoDup (l1 ++ l2) -> NoDup new -> (forall x, x ∈ new -> x ∉ l1 ++ l2) ->
  NoDup (l1 ++ new ++ l2).
Proof.
  intros H1 H2 H3.
  assert (Hp : l1 ++ new ++ l2 ≡ₚ new ++ (l1 ++ l2)).
  { rewrite !app_assoc. apply Permutation_app_tail, Permutation_app_comm. }
  rewrite Hp. apply NoDup_app. auto.
Qed.

Lemma find_arc_in v fuel p prev x t i z :
  linked (arcs v) prev (x :: t) None ->
  find_arc fuel p (Some x) v = Ok (Some (i, z)) -> i ∈ x :: t.
Proof.
  revert prev x t. induction fuel as [|fuel IH]; intros prev x t Hl H; [done|].
  simpl in H. apply rbind_Ok in H as (r & E & H). destruct r as [z'|].
  - injection H as -> _. left.
  - apply rbind_Ok in H as (ai & Ea & H). right.
    destruct Hl as [H1 H2]. unfold get_arc in Ea.
    destruct (arcs v !! x) as [a|] eqn:Ex; [|done]. injection Ea as ->.
    apply lk_lookup in Ex. rewrite Ex in H1. injection H1 as _ Hn. rewrite Hn in H.
    destruct t as [|y t]; simpl in H.
    + destruct fuel; done.
    + eapply IH; eauto.
Qed.

Lemma last_arc_linked v fuel prev h t :
  linked (arcs v) prev (h :: t) None -> length (h :: t) <= fuel ->
  exists l x, h :: t = l ++ [x] /\ last_arc fuel h v = Ok x.
Proof.
  revert prev h fuel. induction t as [|j t IH]; intros prev h fuel [H1 H2] Hlen;
    (destruct fuel; [simpl in Hlen; lia|]); simpl;
    apply lk_Some in H1 as (a & Ea & _ & Hn); unfold get_arc; rewrite Ea; simpl;
    rewrite Hn; simpl.
  - exists [], h. done.
  - destruct (IH _ _ fuel H2) as (l & x & El & Hx); [simpl in *; lia|].
    exists (h :: l), x. rewrite El. done.
Qed.

Lemma get_arc_lk v i a : get_arc v i = Ok a -> lk (arcs v) i = Some (pprev a, pnext a).
Proof.
  unfold get_arc. destruct (arcs v !! i) eqn:E; [|done]. intros [= ->].
  now apply lk_lookup.
Qed.

Ltac mem := rewrite ?elem_of_app, ?elem_of_cons, ?elem_of_nil; intuition auto.

Lemma NoDup_split (l1 l2 : list nat) i :
  NoDup (l1 ++ i :: l2) ->
  (forall x, x ∈ l1 -> x <> i /\ (x ∉ l2)) /\ (i ∉ l2) /\ NoDup l1 /\ NoDup l2.
Proof.
  intros (H1 & H2 & (H3 & H4)%NoDup_cons)%NoDup_app. repeat split; try done.
  - intros ->. eapply H2; [done|left].
  - intros Hx. eapply H2; [done|now right].
Qed.

Section Split.
Variable s : list ParabolicArc.
Variables (pa p : Point) (f : ParabolicArc -> ParabolicArc).
Hypothesis Hf : forall a, pprev (f a) = pprev a /\ pnext (f a) = pnext a.
Let c := length s.
Let m := S (length s).

Lemma split_mid_links prev l1 i n0 l2 :
  linked s prev (l1 ++ i :: n0 :: l2) None -> NoDup (l1 ++ i :: n0 :: l2) ->
  let s1 := alter (set_pnext (Some c)) i
              (alter (set_pprev (Some c)) n0 (s ++ [mkArc pa (Some i) (Some n0)])) in
  let s3 := alter (set_pnext (Some m)) i
              (alter (set_pprev (Some m)) c (alter f c s1 ++ [mkArc p (Some i) (Some c)])) in
  linked s3 prev (l1 ++ i :: m :: c :: n0 :: l2) None /\
  NoDup (l1 ++ i :: m :: c :: n0 :: l2).
Proof.
  intros Hl Hnd s1 s3.
  assert (Hst : forall x, x ∈ l1 ++ i :: n0 :: l2 -> x < length s).
  { intros x Hx. eapply linked_in_store; eauto. }
  apply linked_app in Hl as [HL1 (Hki & Hkn & HL2)].
  pose proof (NoDup_split _ _ _ Hnd) as (Hn1 & Hn2 & Hn3 & (Hn4 & Hn5)%NoDup_cons).
  assert (Hi : i < length s) by (apply Hst; mem).
  assert (Hn0 : n0 < length s) by (apply Hst; mem).
  assert (Hin : i <> n0) by (intros ->; apply Hn2; left).
  split.
  - apply linked_app. split.
    + eapply linked_frame; [|exact HL1]. intros x Hx.
      assert (x < length s) by (apply Hst; mem).
      destruct (Hn1 x Hx) as [? Hx2].
      assert (x <> n0) by (intros ->; apply Hx2; left).
      subst s3 s1 c m. lk_simpl. done.
    + simpl. repeat split.
      * subst s3 s1 c m. lk_simpl. rewrite Hki. done.
      * subst s3 s1 c m. lk_simpl. done.
      * subst s3 s1 c m. lk_simpl. done.
      * subst s3 s1 c m. lk_simpl. rewrite Hkn. done.
      * eapply linked_frame; [|exact HL2]. intros x Hx.
        assert (x < length s) by (apply Hst; mem).
        assert (x <> i) by (intros ->; apply Hn2; now right).
        assert (x <> n0) by (intros ->; now apply Hn4).
        subst s3 s1 c m. lk_simpl. done.
  - change (l1 ++ i :: m :: c :: n0 :: l2) with (l1 ++ [i] ++ [m; c] ++ n0 :: l2).
    rewrite app_assoc. apply NoDup_insert_fresh.
    + now rewrite <- app_assoc.
    + apply NoDup_cons. split; [|apply NoDup_singleton].
      intros Hmc%list_elem_of_singleton. subst c m. lia.
    + intros x Hx Hx'. rewrite <- app_assoc in Hx'. apply Hst in Hx'.
      apply elem_of_cons in Hx as [Hx|Hx%list_elem_of_singleton]; subst c m; lia.
Qed.

Lemma split_end_links prev l1 i l2 :
  linked s prev (l1 ++ i :: l2) None -> NoDup (l1 ++ i :: l2) ->
  let s1 := alter (set_pnext (Some c)) i (s ++ [mkArc pa (Some i) None]) in
  let s3 := alter (set_pnext (Some m)) i
              (alter (set_pprev (Some m)) c (alter f c s1 ++ [mkArc p (Some i) (Some c)])) in
  linked s3 prev (l1 ++ [i; m; c]) None /\ NoDup (l1 ++ [i; m; c]).
Proof.
  intros Hl Hnd s1 s3.
  assert (Hst : forall x, x ∈ l1 ++ i :: l2 -> x < length s).
  { intros x Hx. eapply linked_in_store; eauto. }
  apply linked_app in Hl as [HL1 (Hki & HL2)].
  pose proof (NoDup_split _ _ _ Hnd) as (Hn1 & Hn2 & Hn3 & Hn4).
  assert (Hi : i < length s) by (apply Hst; mem).
  split.
  - apply linked_app. split.
    + eapply linked_frame; [|exact HL1]. intros x Hx.
      assert (x < length s) by (apply Hst; mem).
      destruct (Hn1 x Hx) as [? Hx2].
      subst s3 s1 c m. lk_simpl. done.
    + simpl. repeat split.
      * subst s3 s1 c m. lk_simpl. rewrite Hki. done.
      * subst s3 s1 c m. lk_simpl. done.
      * subst s3 s1 c m. lk_simpl. done.
  - change (l1 ++ [i; m; c]) with (l1 ++ [i] ++ [m; c] ++ []).
    rewrite app_assoc. apply NoDup_insert_fresh.
    + rewrite app_nil_r. apply NoDup_app. repeat split; [done| |apply NoDup_singleton].
      intros x Hx Hxi%list_elem_of_singleton. now destruct (Hn1 _ Hx).
    + apply NoDup_cons. split; [|apply NoDup_singleton].
      intros Hmc%list_elem_of_singleton. subst c m. lia.
    + intros x Hx Hx'. rewrite app_nil_r in Hx'.
      assert (x < length s).
      { apply Hst. apply elem_of_app in Hx' as [?|Hx'%list_elem_of_singleton];
          [|subst x]; mem. }
      apply elem_of_cons in Hx as [Hx|Hx%list_elem_of_singleton]; subst c m; lia.
Qed.
End Split.

Lemma insert_copy_mid i ai n0 v :
  pnext ai = Some n0 ->
  insert_copy i ai None v =
  with_arcs (alter (set_pnext (Some (length (arcs v)))) i
               (alter (set_pprev (Some (length (arcs v)))) n0
                  (arcs v ++ [mkArc (arc_p ai) (Some i) (Some n0)]))) v.
Proof. intros H. unfold insert_copy. rewrite H. reflexivity. Qed.

Lemma insert_copy_end i ai flag v :
  pnext ai = None \/ flag <> None ->
  insert_copy i ai flag v =
  with_arcs (alter (set_pnext (Some (length (arcs v)))) i
               (arcs v ++ [mkArc (arc_p ai) (Some i) None])) v.
Proof.
  intros H. unfold insert_copy.
  destruct (pnext ai), flag; try reflexivity. now destruct H.
Qed.

Lemma head_app_cons (l1 : list nat) i l2 l3 : head (l1 ++ i :: l2) = head (l1 ++ i :: l3).
Proof. now destruct l1. Qed.

Lemma split_arc_beachline p i z v v' l :
  is_beachline v l -> i ∈ l -> split_arc p i z v = Ok v' -> exists l', is_beachline v' l'.
Proof.
  intros Hb Hi H. unfold split_arc in H.
  apply rbind_Ok in H as (ai & Ea & H). apply rbind_Ok in H as (flag & Ef & H).
  apply rbind_Ok in H as (ai1 & Ea1 & H). apply rbind_Ok in H as (c & Ec & H).
  destruct (insert_new _ _ _ _) as [n v3] eqn:Ein.
  apply rbind_Ok in H as (v4 & E4 & H).
  apply keep_new_edges in E4. apply keep_recheck_split in H.
  cut (exists l', is_beachline v3 l').
  { intros [l' Hl']. exists l'. eauto using keep_beachline. }
  clear H E4 v4 v'.
  destruct Hb as (Hh & Hl & Hnd).
  assert (Hst : forall x, x ∈ l -> x < length (arcs v)).
  { intros x Hx. eapply linked_in_store; eauto. }
  apply list_elem_of_split in Hi as (l1 & l2 & ->).
  pose proof Hl as Hl'.
  apply linked_app in Hl' as [HL1 [Hki HL2]].
  apply get_arc_lk in Ea. rewrite Ea in Hki. injection Hki as Hp Hn.
  assert (Hi : i < length (arcs v)) by (apply Hst; mem).
  apply get_arc_lk in Ea1.
  assert (Hcase : (exists n0, pnext ai = Some n0 /\ flag = None) \/
                  (pnext ai = None \/ flag <> None)).
  { destruct (pnext ai), flag; eauto. }
  destruct Hcase as [(n0 & En0 & ->)|Hend].
  - rewrite (insert_copy_mid _ _ _ _ En0) in *. simpl in Ea1.
    rewrite En0 in Hn. destruct l2 as [|n0' l2]; [done|]. injection Hn as <-.
    assert (n0 < length (arcs v)) by (apply Hst; mem).
    assert (i <> n0).
    { intros ->. apply NoDup_split in Hnd as (_ & Hnd & _). apply Hnd. left. }
    revert Ea1. lk_simpl. rewrite Ea. simpl. intros [= _ Hc]. rewrite <- Hc in Ec.
    injection Ec as <-.
    unfold insert_new, alloc_arc, upd_arc in Ein. simpl in Ein.
    injection Ein as <- <-.
    exists (l1 ++ i :: S (length (arcs v)) :: length (arcs v) :: n0 :: l2).
    unfold is_beachline. simpl.
    rewrite !length_alter, length_app. simpl.
    replace (length (arcs v) + 1) with (S (length (arcs v))) by lia.
    split; [rewrite Hh; apply head_app_cons|].
    apply split_mid_links; [|done|done]. intros a. split; reflexivity.
  - rewrite (insert_copy_end _ _ _ _ Hend) in *. simpl in Ea1.
    revert Ea1. lk_simpl. rewrite Ea. simpl. intros [= _ Hc]. rewrite <- Hc in Ec.
    injection Ec as <-.
    unfold insert_new, alloc_arc, upd_arc in Ein. simpl in Ein.
    injection Ein as <- <-.
    exists (l1 ++ [i; S (length (arcs v)); length (arcs v)]).
    unfold is_beachline. simpl.
    rewrite !length_alter, length_app. simpl.
    replace (length (arcs v) + 1) with (S (length (arcs v))) by lia.
    split; [rewrite Hh; apply head_app_cons|].
    eapply split_end_links; [|exact Hl|exact Hnd]. intros a. split; reflexivity.
Qed.

Lemma append_links s prev l i p f g :
  (forall a, pprev (f a) = pprev a /\ pnext (f a) = pnext a) ->
  (forall a, pprev (g a) = pprev a /\ pnext (g a) = pnext a) ->
  linked s prev (l ++ [i]) None -> NoDup (l ++ [i]) ->
  let n := length s in
  let s' := alter f i (alter g n (alter (set_pnext (Some n)) i
                                    (s ++ [mkArc p (Some i) None]))) in
  linked s' prev (l ++ [i; n]) None /\ NoDup (l ++ [i; n]).
Proof.
  intros Hf Hg Hl Hnd n s'.
  assert (Hst : forall x, x ∈ l ++ [i] -> x < length s).
  { intros x Hx. eapply linked_in_store; eauto. }
  apply linked_app in Hl as [HL1 (Hki & _)].
  pose proof (NoDup_split _ _ _ Hnd) as (Hn1 & _ & Hn3 & _).
  assert (Hi : i < length s) by (apply Hst; mem).
  split.
  - apply linked_app. split.
    + eapply linked_frame; [|exact HL1]. intros x Hx.
      assert (x < length s) by (apply Hst; mem).
      destruct (Hn1 x Hx) as [? _].
      subst s' n. lk_simpl. done.
    + simpl. repeat split.
      * subst s' n. lk_simpl. rewrite Hki. done.
      * subst s' n. lk_simpl. done.
  - change (l ++ [i; n]) with (l ++ [i] ++ [n] ++ []).
    rewrite app_assoc. apply NoDup_insert_fresh.
    + now rewrite app_nil_r.
    + apply NoDup_singleton.
    + intros x Hx%list_elem_of_singleton Hx'. rewrite app_nil_r in Hx'.
      apply Hst in Hx'. subst n x. lia.
Qed.

Lemma append_arc_beachline p h v v' l :
  is_beachline v l -> parabolicArc v = Some h -> append_arc p h v = Ok v' ->
  is_beachline v' (l ++ [length (arcs v)]).
Proof.
  intros Hb Eh H. pose proof (is_beachline_length _ _ Hb) as Hlen.
  destruct Hb as (Hh & Hl & Hnd).
  rewrite Eh in Hh. destruct l as [|h' t]; [done|]. injection Hh as <-.
  destruct (last_arc_linked v (S (length (arcs v))) None h t Hl) as (l0 & i & El & Hi);
    [lia|].
  unfold append_arc in H. rewrite Hi in H. simpl in H.
  unfold alloc_arc, upd_arc in H. simpl in H. peel.
  rewrite El in *. unfold is_beachline. simpl. split.
  - rewrite Eh. destruct l0; simpl in El; injection El as -> _; done.
  - rewrite <- app_assoc. simpl.
    apply append_links; try done; intros a'; split; reflexivity.
Qed.

Lemma unlink_links s prev l1 pl a l2 f g :
  (forall a, pprev (f a) = pprev a /\ pnext (f a) = pnext a) ->
  (forall a, pprev (g a) = pprev a /\ pnext (g a) = pnext a) ->
  linked s prev (l1 ++ pl :: a :: l2) None -> NoDup (l1 ++ pl :: a :: l2) ->
  let s1 := alter f pl (alter (set_pnext (hd_or l2 None)) pl s) in
  let s2 := match l2 with
            | r :: _ => alter g r (alter (set_pprev (Some pl)) r s1)
            | [] => s1
            end in
  linked s2 prev (l1 ++ pl :: l2) None /\ NoDup (l1 ++ pl :: l2).
Proof.
  intros Hf Hg Hl Hnd s1 s2.
  assert (Hst : forall x, x ∈ l1 ++ pl :: a :: l2 -> x < length s).
  { intros x Hx. eapply linked_in_store; eauto. }
  apply linked_app in Hl as [HL1 (Hkp & Hka & HL2)].
  pose proof (NoDup_split _ _ _ Hnd) as (Hn1 & Hn2 & Hn3 & (Hn4 & Hn5)%NoDup_cons).
  split.
  - apply linked_app. split.
    + eapply linked_frame; [|exact HL1]. intros x Hx.
      destruct (Hn1 x Hx) as [? Hx2].
      subst s2 s1. destruct l2 as [|r l2].
      * lk_simpl. done.
      * assert (x <> r) by (intros ->; apply Hx2; right; left).
        lk_simpl. done.
    + subst s2 s1. destruct l2 as [|r l2]; simpl.
      * split; [|done]. lk_simpl. rewrite Hkp. done.
      * destruct HL2 as [Hkr HL2].
        assert (pl <> r) by (intros ->; apply Hn2; right; left).
        repeat split.
        -- lk_simpl. rewrite Hkp. done.
        -- lk_simpl. rewrite Hkr. done.
        -- eapply linked_frame; [|exact HL2]. intros x Hx.
           apply NoDup_cons in Hn5 as [Hr _].
           assert (x <> r) by (intros ->; done).
           assert (x <> pl) by (intros ->; apply Hn2; right; now right).
           lk_simpl. done.
  - apply NoDup_app. repeat split; [done| |].
    + intros x Hx Hx'. destruct (Hn1 x Hx) as [Hne Hx2].
      apply elem_of_cons in Hx' as [->|Hx']; [done|]. apply Hx2. now right.
    + apply NoDup_cons. split; [|done]. intros Hp. apply Hn2. now right.
Qed.

Lemma unlink_arc_beachline a sg v v' l :
  is_beachline v l -> a ∈ l -> parabolicArc v <> Some a -> unlink_arc a sg v = Ok v' ->
  exists l1 l2, l = l1 ++ a :: l2 /\ is_beachline v' (l1 ++ l2).
Proof.
  intros (Hh & Hl & Hnd) Ha Hne H.
  apply list_elem_of_split in Ha as (l0 & l2 & ->).
  destruct l0 as [|pl l1 _] using rev_ind; [now rewrite Hh in Hne|].
  exists (l1 ++ [pl]), l2. split; [done|].
  rewrite <- !app_assoc in *. simpl in *.
  pose proof Hl as Hl'. apply linked_app in Hl' as [_ (Hkp & Hka & _)].
  pose proof (NoDup_split _ _ _ Hnd) as (_ & Hn2 & _).
  assert (Hpa : pl <> a) by (intros ->; apply Hn2; left).
  unfold unlink_arc in H.
  apply rbind_Ok in H as (aa & Ea & H). apply rbind_Ok in H as (aa' & Ea' & H).
  apply get_arc_lk in Ea. rewrite Ea in Hka. injection Hka as Hp Hn.
  rewrite Hp, Hn in *. apply get_arc_lk in Ea'. unfold upd_arc in Ea'. simpl in Ea'.
  revert Ea'. lk_simpl. rewrite Ea. intros [= Hp' Hn']. rewrite <- Hp', <- Hn' in H.
  destruct (unlink_links (arcs v) None l1 pl a l2 (set_s1 (Some sg)) (set_s0 (Some sg)))
    as [HL HN]; try done; try (intros ?; split; reflexivity).
  destruct l2 as [|r l2]; simpl in H; injection H as <-.
  - split; [|split; [exact HL|exact HN]]. simpl. rewrite Hh. apply head_app_cons.
  - split; [|split; [exact HL|exact HN]]. simpl. rewrite Hh. apply head_app_cons.
Qed.

Lemma add_arc_beachline p v v' l :
  is_beachline v l -> _add_parabolic_parabolicArc p v = Ok v' ->
  exists l', is_beachline v' l'.
Proof.
  intros Hb H. unfold _add_parabolic_parabolicArc in H.
  destruct (parabolicArc v) as [h|] eqn:Eh.
  - apply rbind_Ok in H as (r & E & H). destruct r as [[i z]|].
    + eapply split_arc_beachline; [exact Hb| |exact H].
      destruct Hb as (Hh & Hl & _). rewrite Eh in Hh.
      destruct l as [|h' t]; [done|]. injection Hh as <-.
      eapply find_arc_in; eauto.
    + eexists. eapply append_arc_beachline; eauto.
  - unfold alloc_arc in H. injection H as <-.
    exists [length (arcs v)]. split; [done|]. split; [|apply NoDup_singleton].
    simpl. split; [|done]. apply lk_app_new.
Qed.

(** The beachline of a state whose links are sound. *)
Lemma sound_beachline v :
  dll_invariant v /\ in_store v <-> is_beachline v (beachline v).
Proof.
  split.
  - intros [H1 H2]. now apply dll_is_beachline.
  - apply is_beachline_dll.
Qed.

(** X18: a site event keeps the links of a sound beachline; so does the unlink
    of an arc that is on the beachline and is not its head, which removes
    that arc and no other; so does a circle event whose arc, when the
    event is valid, is such an arc. *)
Theorem links_kept_on_the_beachline :
  (forall v v', dll_invariant v -> in_store v -> _process_site_event v = Ok v' ->
                dll_invariant v' /\ in_store v') /\
  (forall a sg v v', dll_invariant v -> in_store v ->
                     a ∈ beachline v -> parabolicArc v <> Some a ->
                     unlink_arc a sg v = Ok v' ->
                     dll_invariant v' /\ in_store v' /\
                     exists l1 l2, beachline v = l1 ++ a :: l2 /\ beachline v' = l1 ++ l2) /\
  (forall v v' e q, dll_invariant v -> in_store v ->
                    pop_event (events v) = Ok (Some e, q) ->
                    (is_valid e v = true ->
                     ev_a e ∈ beachline v /\ parabolicArc v <> Some (ev_a e)) ->
                    _process_circle_event v = Ok v' ->
                    dll_invariant v' /\ in_store v').
Proof.
  split; [|split].
  - intros v v' H1 H2 H. pose proof (dll_is_beachline _ H1 H2) as Hb.
    unfold _process_site_event in H. apply rbind_Ok in H as ([r q] & E & H).
    destruct r as [p|]; [|done].
    destruct (add_arc_beachline p (with_points q v) v' (beachline v)) as [l' Hl'];
      [exact Hb|exact H|].
    eapply is_beachline_dll; eauto.
  - intros a sg v v' H1 H2 Ha Hne H. pose proof (dll_is_beachline _ H1 H2) as Hb.
    destruct (unlink_arc_beachline _ _ _ _ _ Hb Ha Hne H) as (l1 & l2 & El & Hb').
    destruct (is_beachline_dll _ _ Hb') as [H1' H2']. split; [done|]. split; [done|].
    exists l1, l2. split; [done|]. now apply is_beachline_walk.
  - intros v v' e q H1 H2 Hpop Hv H. pose proof (dll_is_beachline _ H1 H2) as Hb.
    unfold _process_circle_event in H. rewrite Hpop in H. simpl in H.
    change (is_valid e (with_events q v)) with (is_valid e v) in H.
    destruct (is_valid e v) eqn:Ev.
    + destruct (Hv eq_refl) as [Ha Hne].
      unfold alloc_seg in H. apply rbind_Ok in H as (v1 & E1 & H).
      apply rbind_Ok in H as (v2 & E2 & H).
      destruct (unlink_arc_beachline (ev_a e) _ _ v1 (beachline v)
                  (Hb : is_beachline (with_output _ (with_events q v)) _) Ha Hne E1)
        as (l1 & l2 & El & Hb').
      apply keep_finish_arc_edges in E2. apply keep_recheck_unlink in H.
      eapply is_beachline_dll, keep_beachline, keep_beachline; eauto.
    + injection H as <-. eapply is_beachline_dll, keep_beachline; [|exact Hb].
      split; reflexivity.
Qed.

Lemma links_kept_on_the_beachline_witness :
  exists v0 v1,
    init three_sites 20 20 = Ok v0 /\
    _process_site_event v0 = Ok v1 /\
    beachline v1 = [0] /\
    exists v2,
      _process_site_event v1 = Ok v2 /\
      beachline v2 = [0; 2; 1] /\ dll_invariant v2 /\ in_store v2.
Proof.
  eexists _, _.
  split; [vm_compute; reflexivity|]. split; [vm_compute; reflexivity|].
  split; [vm_compute; reflexivity|].
  match goal with
  | |- exists v2, _process_site_event ?v1 = _ /\ _ =>
      destruct (_process_site_event v1) as [v2| |] eqn:E;
        [|vm_compute in E; discriminate..];
      assert (H : dll_invariant v2 /\ in_store v2);
        [apply (proj1 links_kept_on_the_beachline v1 v2);
           [apply dll_check_sound; vm_compute; reflexivity
           |vm_compute; repeat constructor
           |exact E]
        |]
  end.
  exists v2. split; [reflexivity|]. split; [|exact H].
  vm_compute in E. injection E as <-. vm_compute. reflexivity.
Defined.

(** ** The running maximum over a run *)

Lemma generate_grows fuel v v' :
  generate_voronoi_diagram fuel v = Ok v' -> max_grows v v'.
Proof.
  unfold generate_voronoi_diagram, _complete_unfinished_edges.
  destruct (Nat.eqb _ 2).
  - intros H. apply two_points_max in H. unfold max_grows. rewrite H.
    apply radius_le_refl.
  - intros H. apply rbind_Ok in H as (v1 & E1 & H).
    apply rbind_Ok in H as (v2 & E2 & H).
    apply process_all_grows in E1. apply process_remaining_grows in E2.
    apply complete_from_max in H.
    eapply max_grows_trans; [exact E1|]. eapply max_grows_trans; [exact E2|].
    unfold max_grows. rewrite H. apply radius_le_refl.
Qed.

(** C9: [max_circle_radius] starts at 0; the one place that assigns it
    ([record_circle], the end of [_check_potential_circle_event]) leaves it
    as it is or sets it to a strictly larger radius; hence every event that
    is processed, the whole of [generate_voronoi_diagram], and a whole run
    from the constructor on, end with a maximum that is the former one or
    strictly above it. *)
Theorem running_maximum_never_decreases :
  max_circle_radius _initialize_structures = 0%float /\
  (forall c r v,
      max_circle_radius (record_circle c r v) = max_circle_radius v \/
      (max_circle_radius v <? max_circle_radius (record_circle c r v))%float = true) /\
  (forall i sweep v v',
      _check_potential_circle_event i sweep v = Ok v' -> max_grows v v') /\
  (forall v v', _process_site_event v = Ok v' -> max_grows v v') /\
  (forall v v', _process_circle_event v = Ok v' -> max_grows v v') /\
  (forall fuel v v', generate_voronoi_diagram fuel v = Ok v' -> max_grows v v') /\
  (forall fuel pts w h v,
      run fuel pts w h = Ok v -> radius_le 0 (max_circle_radius v)).
Proof.
  split; [reflexivity|]. split.
  { intros c r v. destruct (record_circle_grows c r v) as [H|H]; [left|right]; done. }
  split; [exact check_grows|]. split; [exact site_event_grows|].
  split; [exact circle_event_grows|]. split; [exact generate_grows|].
  intros fuel pts w h v H. unfold run, init in H.
  apply rbind_Ok in H as (v0 & E & H).
  apply add_points_max in E. apply generate_grows in H.
  unfold max_grows in H. rewrite E in H. exact H.
Qed.

Lemma running_maximum_never_decreases_witness :
  exists v, run 100 three_sites 20 20 = Ok v /\ radius_le 0 (max_circle_radius v).
Proof.
  destruct (run 100 three_sites 20 20) as [v| |] eqn:E;
    [|vm_compute in E; discriminate..].
  exists v. split; [reflexivity|].
  exact (proj2 (proj2 (proj2 (proj2 (proj2 (proj2 running_maximum_never_decreases)))))
           100 three_sites 20%float 20%float v E).
Defined.

(** ** The circle through three sites *)

Lemma pow2_cases x :
  PyFloat.pow2 x = Ok (x * x)%float \/ PyFloat.pow2 x = Raise OverflowError.
Proof. unfold PyFloat.pow2. destruct (_ && _); auto. Qed.

(** The distance computation raises nothing but [OverflowError]: a sum of
    two squares is never below zero, so [math.sqrt] accepts it. *)
Lemma dist_xy_cases a x y :
  (exists r, dist_xy a x y = Ok r) \/ dist_xy a x y = Raise OverflowError.
Proof.
  unfold dist_xy.
  destruct (pow2_cases (px a - x)) as [-> | ->]; simpl; [|now right].
  destruct (pow2_cases (py a - y)) as [-> | ->]; simpl; [|now right].
  unfold PyFloat.sqrt. rewrite FloatFacts.sum_squares_not_neg. left. eauto.
Qed.

Lemma check_circle_dist a b c :
  (0 <? cross a b c)%float = false -> (circle_G a b c =? 0)%float = false ->
  _check_circle a b c =
  let! r := dist_xy a (circle_ox a b c) (circle_oy a b c) in
  Ok (Some ((circle_ox a b c + r)%float, mkPoint (circle_ox a b c) (circle_oy a b c))).
Proof.
  intros H1 H2. unfold _check_circle, dist_xy. rewrite H1, H2.
  destruct (PyFloat.pow2 (px a - _)); simpl; [|done..].
  destruct (PyFloat.pow2 (py a - _)); simpl; [|done..].
  now destruct (PyFloat.sqrt _).
Qed.

Module FormulaFacts.
Import QArith Qfield.
#[local] Open Scope Q_scope.

(** Over the rationals the solution of the bisector system is the
    circumcentre. *)
Lemma centre_equidistant (env : Formula.coord -> Q) :
  Formula.nonsingular env ->
  Formula.equidistant env (Formula.evalQ env Formula.ox_expr)
                          (Formula.evalQ env Formula.oy_expr).
Proof.
  unfold Formula.nonsingular. intros HG. unfold Formula.equidistant, Formula.sqdist.
  cbn in *.
  split; field; intros H; apply HG; rewrite H; reflexivity.
Qed.
End FormulaFacts.

(** The four expressions of [_check_circle] are the formulas read in
    binary64. *)
Lemma check_circle_formula a b c :
  cross a b c = Formula.evalF (Formula.coords a b c) Formula.cross_expr /\
  circle_G a b c = Formula.evalF (Formula.coords a b c) Formula.G_expr /\
  circle_ox a b c = Formula.evalF (Formula.coords a b c) Formula.ox_expr /\
  circle_oy a b c = Formula.evalF (Formula.coords a b c) Formula.oy_expr.
Proof. repeat split. Qed.

(** What [a ** 2] returns when it returns. *)
Lemma pow2_Ok x u : PyFloat.pow2 x = Ok u -> u = (x * x)%float.
Proof. unfold PyFloat.pow2. destruct (_ && _); congruence. Qed.

(** C7 as amended: [_check_circle a b c] rejects exactly when the cross
    product is above zero or [G] equals zero.  Otherwise, with [(ox, oy)]
    the binary64 value of the solution of the bisector system: it raises
    [OverflowError] when one of the two squares overflows; else it answers
    with the event abscissa [ox + sqrt(u + w)], [u] and [w] being the two
    squares [(a.x - ox) ** 2] and [(a.y - oy) ** 2], and with the event
    point [Point(ox, oy)], which is [(ox, oy)] rounded to one decimal.
    Over the rationals the same two formulas give a point at one distance
    from the three sites, the circumcentre. *)
Theorem check_circle_characterized (a b c : Point) :
  let env := Formula.coords a b c in
  let cr := Formula.evalF env Formula.cross_expr in
  let G := Formula.evalF env Formula.G_expr in
  let ox := Formula.evalF env Formula.ox_expr in
  let oy := Formula.evalF env Formula.oy_expr in
  let rejected := ((0 <? cr) || (G =? 0))%float in
  (_check_circle a b c = Ok None <-> rejected = true) /\
  (rejected = false ->
   (forall u w,
       PyFloat.pow2 (px a - ox) = Ok u -> PyFloat.pow2 (py a - oy) = Ok w ->
       _check_circle a b c
       = Ok (Some ((ox + PrimFloat.sqrt (u + w))%float, mkPoint ox oy))) /\
   (PyFloat.pow2 (px a - ox) = Raise OverflowError \/
    PyFloat.pow2 (py a - oy) = Raise OverflowError ->
    _check_circle a b c = Raise OverflowError) /\
   ((exists x, _check_circle a b c = Ok (Some (x, mkPoint ox oy))) \/
    _check_circle a b c = Raise OverflowError)) /\
  (forall q : Formula.coord -> QArith_base.Q,
      Formula.nonsingular q ->
      Formula.equidistant q (Formula.evalQ q Formula.ox_expr)
                            (Formula.evalQ q Formula.oy_expr)).
Proof.
  intros env cr G ox oy rejected.
  destruct (check_circle_formula a b c) as (Ec & EG & Ex & Ey).
  fold env in Ec, EG, Ex, Ey. fold cr in Ec. fold G in EG. fold ox in Ex. fold oy in Ey.
  subst rejected. rewrite <- Ec, <- EG.
  split; [|split; [|exact FormulaFacts.centre_equidistant]].
  - destruct (0 <? cross a b c)%float eqn:H1; simpl.
    + unfold _check_circle. rewrite H1. done.
    + destruct (circle_G a b c =? 0)%float eqn:H2.
      * unfold _check_circle. rewrite H1, H2. done.
      * rewrite (check_circle_dist _ _ _ H1 H2).
        destruct (dist_xy _ _ _); simpl; split; done.
  - intros [H1 H2]%orb_false_iff. rewrite (check_circle_dist _ _ _ H1 H2).
    rewrite Ex, Ey. unfold dist_xy. split; [|split].
    + intros u w Hu Hw. rewrite Hu, Hw. cbn [rbind].
      apply pow2_Ok in Hu, Hw. subst u w.
      unfold PyFloat.sqrt. rewrite FloatFacts.sum_squares_not_neg. reflexivity.
    + intros [Hu|Hw].
      * rewrite Hu. reflexivity.
      * rewrite Hw. destruct (pow2_cases (px a - ox)) as [-> | ->]; reflexivity.
    + destruct (pow2_cases (px a - ox)) as [-> | ->]; cbn [rbind]; [|now right].
      destruct (pow2_cases (py a - oy)) as [-> | ->]; cbn [rbind]; [|now right].
      unfold PyFloat.sqrt. rewrite FloatFacts.sum_squares_not_neg. left. eauto.
Qed.

Lemma check_circle_characterized_witness :
  _check_circle (mkPoint 0 0) (mkPoint 0 1) (mkPoint 1 0)
  = Ok (Some ((0.5 + PrimFloat.sqrt (0.25 + 0.25))%float, mkPoint 0.5 0.5)).
Proof.
  apply (proj1 (proj1 (proj2 (check_circle_characterized
                         (mkPoint 0 0) (mkPoint 0 1) (mkPoint 1 0))) eq_refl));
    reflexivity.
Defined.

(** C7 is false at the sites [(0, 0)], [(0, 1)], [(0.5, 0)], whose
    circumcentre is [(1/4, 1/2)]: the event point returned is
    [Point(0.25, 0.5)], that is [(0.2, 0.5)].  That point is nearer to the
    first two sites than to the third by more than [0.04], and the event
    abscissa is more than [0.02] above its [x] plus its distance to any of
    the three sites. *)
Lemma check_circle_rounds_the_centre :
  Formula.half_sites_centre /\
  exists x da db dc,
    _check_circle (mkPoint 0 0) (mkPoint 0 1) (mkPoint 0.5 0)
    = Ok (Some (x, RawPoint 0.2 0.5)) /\
    distance_to (RawPoint 0.2 0.5) (mkPoint 0 0) = Ok da /\
    distance_to (RawPoint 0.2 0.5) (mkPoint 0 1) = Ok db /\
    distance_to (RawPoint 0.2 0.5) (mkPoint 0.5 0) = Ok dc /\
    (da + 0.04 <? dc)%float = true /\
    (0.2 + da + 0.02 <? x)%float = true /\
    (0.2 + db + 0.02 <? x)%float = true /\
    (0.2 + dc + 0.02 <? x)%float = true.
Proof.
  split; [split; vm_compute; reflexivity|].
  eexists _, _, _, _.
  split; [vm_compute; reflexivity|].
  split; [vm_compute; reflexivity|].
  split; [vm_compute; reflexivity|].
  split; [vm_compute; reflexivity|].
  repeat split; vm_compute; reflexivity.
Qed.

(** ** Fewer than two distinct sites *)

(** Pushing equal sites, one after the other, keeps a single key. *)
Lemma push_sites_single l s :
  wf Point_eqb s ->
  (forall a b, a ∈ l -> b ∈ l -> Point_eqb a b = true) ->
  (forall kv a, kv ∈ _entry_finder s -> a ∈ l -> Point_eqb (fst kv) a = true) ->
  length (_entry_finder s) <= 1 ->
  exists s',
    push_sites l s = Ok s' /\ wf Point_eqb s' /\
    length (_entry_finder s') = (if l is [] then length (_entry_finder s) else 1).
Proof.
  revert s. induction l as [|p l IH]; intros s W Heq Hk Hlen; simpl.
  - exists s. done.
  - assert (Hp : Point_eqb p p = true) by (apply Heq; left).
    destruct (push_total Point_eqb px s p) as [s1 E]. fold push_point in E.
    rewrite E. simpl.
    destruct (wf_push Point_eqb px Point_eqb_sym Point_eqb_trans _ _ _ W Hp E) as [W1 _].
    assert (F1 : _entry_finder s1 = [(p, S (_counter s))]).
    { revert E. unfold push_point, push, remove.
      destruct (_entry_finder s) as [|[k c] [|kv t]] eqn:Ef; simpl in Hlen; [| |lia].
      - simpl. intros [= <-]. simpl. now rewrite Ef.
      - assert (Hkp : Point_eqb k p = true) by (apply (Hk (k, c) p); left).
        simpl. rewrite Hkp. simpl. rewrite ?Ef. simpl. rewrite ?Hkp. simpl.
        now intros [= <-]. }
    destruct (IH s1 W1) as (s' & E' & W' & Hlen').
    + intros a b Ha Hb. apply Heq; now right.
    + intros kv a Hkv Ha. rewrite F1 in Hkv. apply list_elem_of_singleton in Hkv as ->.
      simpl. apply Heq; [left|now right].
    + rewrite F1. simpl. lia.
    + exists s'. split; [done|]. split; [done|].
      rewrite Hlen', F1. now destruct l.
Qed.

(** The queue with a single key yields it and ends up empty. *)
Lemma pop_single (s : EventPriorityQueue Point) :
  wf Point_eqb s -> length (_entry_finder s) = 1 ->
  exists p s', pop_point s = Ok (Some p, s') /\ _entry_finder s' = [].
Proof.
  intros W Hlen.
  destruct (wf_pop Point_eqb Point_eqb_sym Point_eqb_trans s W)
    as (r & s' & Hpop & W' & _ & Hr).
  destruct r as [p|].
  - destruct Hr as (c & _ & _ & _ & Hperm). exists p, s'. split; [done|].
    apply Permutation_length in Hperm. simpl in Hperm.
    destruct (_entry_finder s'); [done|simpl in *; lia].
  - destruct Hr as [Hl _]. destruct W as [_ _ W3 _ _]. rewrite Hl in W3.
    apply Permutation_length in W3. simpl in W3. lia.
Qed.

Lemma process_all_done fuel v :
  _entry_finder (points v) = [] -> _process_all_events fuel v = Ok v.
Proof. intros H. destruct fuel; simpl; unfold empty; now rewrite H. Qed.

(** C6: when all the input sites are equal as [Point]s (no site, one
    site, or copies of one site), the run returns without an exception,
    with an empty list of edges and an empty list of circles. *)
Theorem fewer_than_two_sites (pts : list (float * float)) (w h : float) (fuel : nat) :
  (forall a b, a ∈ pts -> b ∈ pts -> Point_eqb (site a) (site b) = true) ->
  exists v,
    run (S fuel) pts w h = Ok v /\
    output v = [] /\
    get_voronoi_line_segments v = [] /\
    get_largest_empty_circles v = [].
Proof.
  intros Heq. unfold run, init. rewrite add_points_push_sites.
  set (v0 := _setup_bounds w h _initialize_structures).
  destruct (push_sites_single (map site pts) new_queue) as (s & E & W & Hlen).
  { apply wf_new. }
  { intros a b [x [-> Hx]]%list_elem_of_fmap [y [-> Hy]]%list_elem_of_fmap. auto. }
  { intros kv a Hkv. now apply elem_of_nil in Hkv. }
  { simpl. lia. }
  change (points v0) with (new_queue (T := Point)). rewrite E. simpl.
  destruct pts as [|xy pts].
  - simpl in E. injection E as <-.
    exists (with_points new_queue v0). split; [reflexivity|]. done.
  - simpl in Hlen.
    destruct (pop_single s W Hlen) as (p & s' & Hpop & Hs').
    set (v1 := with_head (Some 0)
                 (with_arcs [mkArc p None None] (with_points s' (with_points s v0)))).
    exists v1.
    assert (G : generate_voronoi_diagram (S fuel) (with_points s v0) = Ok v1).
    { unfold generate_voronoi_diagram. simpl. rewrite Hlen. simpl.
      unfold empty at 1. simpl.
      destruct (_entry_finder s) as [|kv t] eqn:Ef; [simpl in Hlen; lia|].
      unfold _process_site_event. simpl. rewrite Hpop. simpl.
      fold v1. rewrite process_all_done by exact Hs'. simpl.
      reflexivity. }
    rewrite G. done.
Qed.

Lemma fewer_than_two_sites_witness :
  exists v,
    run 1 [(1, 1); (1, 1)]%float 10 10 = Ok v /\
    output v = [] /\
    get_voronoi_line_segments v = [] /\
    get_largest_empty_circles v = [].
Proof.
  apply (fewer_than_two_sites [(1, 1); (1, 1)]%float 10 10 0).
  intros a b Ha Hb.
  repeat (apply elem_of_cons in Ha as [->|Ha]);
    repeat (apply elem_of_cons in Hb as [->|Hb]);
    try reflexivity; exfalso; eapply elem_of_nil; eassumption.
Defined.

(** ** The edge of the two-site path *)

Lemma push_two_sites (p1 p2 : Point) :
  Point_eqb p1 p2 = false -> (px p2 <? px p1)%float = false ->
  push_sites [p1; p2] new_queue =
  Ok {| _queue := [{| e_x := px p1; e_count := 1; e_item := Some p1 |};
                   {| e_x := px p2; e_count := 2; e_item := Some p2 |}];
        _entry_finder := [(p1, 1); (p2, 2)];
        _counter := 2 |}.
Proof.
  intros Hne Hlt. unfold push_sites, push_point, push. cbn. rewrite Hne. cbn.
  rewrite Hne. unfold entry_lt. cbn [e_x e_count].
  destruct (px p2 =? px p1)%float; rewrite ?Hlt; reflexivity.
Qed.

Lemma two_points_level (p1 p2 : Point) (q : list (entry Point)) (c : nat) (v : Voronoi) :
  proper p1 ->
  (abs (px p2 - px p1) <? EPSILON)%float = false ->
  (abs (py p2 - py p1) <? EPSILON)%float = true ->
  _entry_finder (points v) = [(p1, 1); (p2, 2)] ->
  _queue (points v) = {| e_x := px p1; e_count := 1; e_item := Some p1 |} :: q ->
  exists v',
    generate_voronoi_diagram c v = Ok v' /\
    output v' = output v ++ [level_edge p1 p2 (y1 v)].
Proof.
  intros Hp Hdx Hdy Hf Hq. unfold generate_voronoi_diagram. rewrite Hf.
  cbn [length Nat.eqb]. unfold _handle_two_points_case, first_key.
  rewrite Hf. cbn [rbind]. unfold pop_point, pop. rewrite Hq, Hf.
  cbn [pop_live e_item dict_pop]. unfold proper in Hp. rewrite Hp.
  cbn [rbind with_points points _entry_finder]. rewrite Hdx, Hdy.
  cbn [rbind]. eexists. split; reflexivity.
Qed.

(** C2 as amended: two distinct sites on one horizontal line (their [y]
    differ by less than [EPSILON], their [x] do not), the first one not to
    the right of the second.  The run takes the two-site path and returns
    one finished edge: the vertical segment through the midpoint of the
    sites that reaches [h] below and [h] above it, for any box [w] x [h];
    the edge is not clipped to the box. *)
Theorem two_site_edge_is_not_clipped (a b : float * float) (w h : float) (fuel : nat) :
  let p1 := site a in
  let p2 := site b in
  proper p1 ->
  Point_eqb p1 p2 = false ->
  (px p2 <? px p1)%float = false ->
  (abs (px p2 - px p1) <? EPSILON)%float = false ->
  (abs (py p2 - py p1) <? EPSILON)%float = true ->
  exists v,
    run fuel [a; b] w h = Ok v /\
    output v = [level_edge p1 p2 h] /\
    get_voronoi_line_segments v = omap edge_tuple [level_edge p1 p2 h].
Proof.
  intros p1 p2 Hp Hne Hlt Hdx Hdy.
  unfold run, init. rewrite add_points_push_sites.
  change (map site [a; b]) with [p1; p2].
  change (points (_setup_bounds w h _initialize_structures)) with (new_queue (T := Point)).
  rewrite (push_two_sites p1 p2 Hne Hlt). cbn [rbind].
  edestruct (two_points_level p1 p2) as (v' & Hg & Ho); [exact Hp|exact Hdx|exact Hdy| | |].
  3: { exists v'. split; [exact Hg|]. split; [exact Ho|].
       unfold get_voronoi_line_segments. rewrite Ho. reflexivity. }
  all: reflexivity.
Qed.

Lemma two_site_edge_is_not_clipped_witness :
  exists v,
    run 0 [(2, 5); (8, 5)]%float 10 10 = Ok v /\
    output v = [level_edge (mkPoint 2 5) (mkPoint 8 5) 10] /\
    get_voronoi_line_segments v
    = omap edge_tuple [level_edge (mkPoint 2 5) (mkPoint 8 5) 10].
Proof.
  apply (two_site_edge_is_not_clipped (2, 5)%float (8, 5)%float 10 10 0);
    vm_compute; reflexivity.
Defined.

(** * Further properties of the code *)

(** ** event_priority_queue.py *)

Lemma mark_removed_length {T} c (q : list (entry T)) :
  length (mark_removed c q) = length q.
Proof. unfold mark_removed. apply length_map. Qed.

Lemma dict_pop_absent {T} (item_eqb : T -> T -> bool) d k :
  dict_mem item_eqb d k = false -> dict_pop item_eqb d k = None.
Proof.
  unfold dict_mem. induction d as [|[k' v] t IH]; simpl; [done|].
  intros [E1 E2]%orb_false_iff. rewrite E1. now rewrite IH.
Qed.

Lemma dict_pop_length {T} (item_eqb : T -> T -> bool) d k c d' :
  dict_pop item_eqb d k = Some (c, d') -> length d = S (length d').
Proof.
  revert d'. induction d as [|[k' v] t IH]; simpl; [done|].
  intros d'. destruct (item_eqb k' k); [now intros [= _ <-]|].
  destruct (dict_pop item_eqb t k) as [[v' t']|] eqn:Hp'; [|done].
  intros [= <- <-]. simpl. f_equal. eauto.
Qed.

(** X1: on a queue built with [push], [pop], [top] and [remove], [push]
    never raises: its [remove] is guarded by the membership test, and every
    entry of the heap has a count below the new one, so that the comparisons
    of [heappush] are settled by [x] and the count.  It adds one to the
    counter, and the heap then holds a live entry for the item that carries
    the new count. *)
Theorem push_never_raises {T} (item_eqb : T -> T -> bool) (item_x : T -> float)
    (eqb_sym : forall a b, item_eqb a b = item_eqb b a)
    (eqb_trans : forall a b c,
        item_eqb a b = true -> item_eqb b c = true -> item_eqb a c = true)
    (s : EventPriorityQueue T) (item : T) :
  reachable item_eqb item_x s ->
  Forall (fun en => e_count en < S (_counter s)) (_queue s) /\
  exists s',
    push item_eqb item_x s item = Ok s' /\
    _counter s' = S (_counter s) /\
    {| e_x := item_x item; e_count := S (_counter s); e_item := Some item |}
      ∈ _queue s'.
Proof.
  intros R. split.
  - apply (reachable_wf item_eqb item_x eqb_sym eqb_trans) in R.
    destruct R as [_ Hb _ _ _]. eapply Forall_impl; [exact Hb|].
    intros en Hen. simpl in Hen. lia.
  - unfold push. destruct (dict_mem item_eqb (_entry_finder s) item) eqn:Hm.
    + destruct (dict_pop_mem item_eqb _ _ Hm) as (c & d & Hp).
      unfold remove. rewrite Hp. simpl. eexists. split; [reflexivity|]. simpl.
      split; [done|]. rewrite heappush_perm. left.
    + simpl. eexists. split; [reflexivity|]. simpl.
      split; [done|]. rewrite heappush_perm. left.
Qed.

(** X2: [remove] raises [KeyError] exactly when the item is not a key of
    the entry finder.  Otherwise it returns, and it deletes nothing from the
    heap: the entry stays there as a tombstone, the heap keeps its length
    and the counter its value. *)
Theorem remove_raises_on_absent_key {T} (item_eqb : T -> T -> bool)
    (s : EventPriorityQueue T) (item : T) :
  (remove item_eqb s item = Raise KeyError <->
   dict_mem item_eqb (_entry_finder s) item = false) /\
  (dict_mem item_eqb (_entry_finder s) item = true ->
   exists s', remove item_eqb s item = Ok s' /\
              length (_queue s') = length (_queue s) /\
              _counter s' = _counter s /\
              length (_entry_finder s) = S (length (_entry_finder s'))).
Proof.
  split.
  - unfold remove. destruct (dict_mem item_eqb (_entry_finder s) item) eqn:Hm.
    + destruct (dict_pop_mem item_eqb _ _ Hm) as (c & d & ->). done.
    + rewrite (dict_pop_absent _ _ _ Hm). done.
  - intros Hm. destruct (dict_pop_mem item_eqb _ _ Hm) as (c & d & Hp).
    unfold remove. rewrite Hp. eexists. split; [reflexivity|]. simpl.
    split; [apply mark_removed_length|]. split; [done|].
    eapply dict_pop_length; eauto.
Qed.

Lemma remove_raises_on_absent_key_witness :
  remove Point_eqb new_queue (mkPoint 1 1) = Raise KeyError /\
  exists s', remove Point_eqb one_site_queue (mkPoint 1 1) = Ok s' /\
             length (_queue s') = length (_queue one_site_queue) /\
             _counter s' = _counter one_site_queue /\
             length (_entry_finder one_site_queue) = S (length (_entry_finder s')).
Proof.
  split.
  - apply (proj1 (remove_raises_on_absent_key Point_eqb new_queue (mkPoint 1 1))).
    reflexivity.
  - apply (proj2 (remove_raises_on_absent_key Point_eqb one_site_queue (mkPoint 1 1))).
    vm_compute. reflexivity.
Defined.

Lemma one_site_reachable : reachable Point_eqb px one_site_queue.
Proof.
  exact (reach_push Point_eqb px new_queue (mkPoint 1 1) one_site_queue
           (reach_new _ _) eq_refl eq_refl).
Qed.

Lemma push_never_raises_witness :
  Forall (fun en => e_count en < 2) (_queue one_site_queue) /\
  exists s',
    push Point_eqb px one_site_queue (mkPoint 1 1) = Ok s' /\
    _counter s' = 2 /\
    {| e_x := 1; e_count := 2; e_item := Some (mkPoint 1 1) |} ∈ _queue s'.
Proof.
  apply (push_never_raises Point_eqb px Point_eqb_sym Point_eqb_trans
           one_site_queue (mkPoint 1 1)).
  exact one_site_reachable.
Defined.

Section QueueUse.
Context {T : Type}.
Variable item_eqb : T -> T -> bool.
Variable item_x : T -> float.
Hypothesis eqb_sym : forall a b, item_eqb a b = item_eqb b a.
Hypothesis eqb_trans :
  forall a b c, item_eqb a b = true -> item_eqb b c = true -> item_eqb a c = true.

Lemma drain_keys s :
  wf item_eqb s ->
  exists l, pop_all item_eqb (S (length (_queue s))) s = Ok l /\
            l ≡ₚ map fst (_entry_finder s).
Proof.
  intros W. exists (map fst (live_pairs (_queue s))). split.
  - apply (pop_all_live item_eqb eqb_sym eqb_trans); [done|].
    pose proof (length_live_pairs (_queue s)). lia.
  - destruct W as [_ _ W3 _ _]. now rewrite W3.
Qed.

(** X3: on a queue built with [push], [pop], [top] and [remove], popping
    until the queue is empty returns exactly the keys of the entry finder,
    each of them once. *)
Theorem drain_returns_the_keys s :
  reachable item_eqb item_x s ->
  exists l, pop_all item_eqb (S (length (_queue s))) s = Ok l /\
            l ≡ₚ map fst (_entry_finder s).
Proof.
  intros R. apply drain_keys.
  now apply (reachable_wf item_eqb item_x eqb_sym eqb_trans).
Qed.

(** X4: an item that was removed is never popped: after [remove], popping
    until the queue is empty returns no item equal to it (the tombstone left
    in the heap is skipped). *)
Theorem removed_item_is_not_popped s item s' :
  reachable item_eqb item_x s -> remove item_eqb s item = Ok s' ->
  exists l, pop_all item_eqb (S (length (_queue s'))) s' = Ok l /\
            count_eqb item_eqb item l = 0.
Proof.
  intros R H. apply (reachable_wf item_eqb item_x eqb_sym eqb_trans) in R.
  destruct (wf_remove item_eqb item_x eqb_sym eqb_trans _ _ _ R H) as (W' & Hm & _).
  destruct (drain_keys s' W') as (l & Hl & Hp). exists l. split; [done|].
  rewrite (count_eqb_perm item_eqb item _ _ Hp).
  apply count_eqb_distinct. now apply (dict_mem_false item_eqb).
Qed.

(** X5: on such a queue [pop] never raises; it returns [None] exactly
    when [empty()] holds; an item it returns was a key of the entry finder
    and is none afterwards, and the entry finder has lost one key. *)
Theorem pop_agrees_with_empty s :
  reachable item_eqb item_x s ->
  exists r s',
    pop item_eqb s = Ok (r, s') /\
    (r = None <-> empty s = true) /\
    forall item, r = Some item ->
      dict_mem item_eqb (_entry_finder s) item = true /\
      dict_mem item_eqb (_entry_finder s') item = false /\
      length (_entry_finder s) = S (length (_entry_finder s')).
Proof.
  intros R. apply (reachable_wf item_eqb item_x eqb_sym eqb_trans) in R.
  destruct (wf_pop item_eqb eqb_sym eqb_trans s R) as (r & s' & Hpop & W' & _ & Hr).
  exists r, s'. split; [done|]. destruct r as [item|].
  - destruct Hr as (c & Hl & _ & Hrefl & Hp). split.
    + split; [done|]. unfold empty. intros He.
      destruct (_entry_finder s); [|done]. now apply Permutation_nil_cons in Hp.
    + intros item' [= <-]. unfold pop in Hpop.
      destruct (pop_live (_queue s)) as [[it q]|]; [|done].
      destruct (dict_pop item_eqb (_entry_finder s) it) as [[c' d]|] eqn:Ed; [|done].
      injection Hpop as -> <-. simpl.
      destruct (dict_pop_spec item_eqb eqb_sym eqb_trans _ _ _ _ Ed) as (k' & _ & _ & Hd & _).
      destruct R as [_ _ _ R4 _]. destruct (Hd R4) as [_ Hm']. split; [|split; [done|]].
      * destruct (dict_mem item_eqb (_entry_finder s) item) eqn:Hm; [done|].
        now rewrite (dict_pop_absent _ _ _ Hm) in Ed.
      * eapply dict_pop_length; eauto.
  - destruct Hr as [Hl _]. split; [|done]. split; [|done]. intros _.
    destruct R as [_ _ R3 _ _]. rewrite Hl in R3. unfold empty.
    destruct (_entry_finder s); [done|]. now apply Permutation_nil_cons in R3.
Qed.

(** X6: on such a queue [top] never raises; it returns what [pop] would
    return, and it leaves the keys of the entry finder as they were, up to
    their order: nothing is lost and nothing is added by peeking. *)
Theorem top_peeks s :
  reachable item_eqb item_x s ->
  exists r s1 s2,
    top item_eqb item_x s = Ok (r, s1) /\ pop item_eqb s = Ok (r, s2) /\
    map fst (_entry_finder s1) ≡ₚ map fst (_entry_finder s) /\
    empty s1 = empty s.
Proof.
  intros R. apply (reachable_wf item_eqb item_x eqb_sym eqb_trans) in R.
  destruct (top_keeps_items item_eqb item_x eqb_sym eqb_trans s R)
    as (r & s1 & s2 & Ht & Hp & Hl).
  exists r, s1, s2. split; [done|]. split; [done|].
  pose proof (wf_top item_eqb item_x eqb_sym eqb_trans _ _ _ R Ht) as W1.
  assert (Hk : map fst (_entry_finder s1) ≡ₚ map fst (_entry_finder s)).
  { destruct R as [_ _ R3 _ _], W1 as [_ _ W3 _ _]. now rewrite <- R3, <- W3. }
  split; [done|]. unfold empty. apply Permutation_length in Hk.
  rewrite !length_map in Hk.
  destruct (_entry_finder s1), (_entry_finder s); simpl in Hk; done.
Qed.
End QueueUse.

Lemma drain_returns_the_keys_witness :
  exists l, pop_all Point_eqb (S (length (_queue one_site_queue))) one_site_queue = Ok l /\
            l ≡ₚ map fst (_entry_finder one_site_queue).
Proof.
  exact (drain_returns_the_keys Point_eqb px Point_eqb_sym Point_eqb_trans
           one_site_queue one_site_reachable).
Defined.

Lemma removed_item_is_not_popped_witness :
  exists l, pop_all Point_eqb (S (length (_queue tombstone_queue))) tombstone_queue = Ok l /\
            count_eqb Point_eqb (mkPoint 1 1) l = 0.
Proof.
  apply (removed_item_is_not_popped Point_eqb px Point_eqb_sym Point_eqb_trans
           one_site_queue (mkPoint 1 1) tombstone_queue one_site_reachable).
  vm_compute. reflexivity.
Defined.

Lemma pop_agrees_with_empty_witness :
  exists r s',
    pop Point_eqb one_site_queue = Ok (r, s') /\
    (r = None <-> empty one_site_queue = true) /\
    forall item, r = Some item ->
      dict_mem Point_eqb (_entry_finder one_site_queue) item = true /\
      dict_mem Point_eqb (_entry_finder s') item = false /\
      length (_entry_finder one_site_queue) = S (length (_entry_finder s')).
Proof.
  exact (pop_agrees_with_empty Point_eqb px Point_eqb_sym Point_eqb_trans
           one_site_queue one_site_reachable).
Defined.

Lemma top_peeks_witness :
  exists r s1 s2,
    top Point_eqb px one_site_queue = Ok (r, s1) /\
    pop Point_eqb one_site_queue = Ok (r, s2) /\
    map fst (_entry_finder s1) ≡ₚ map fst (_entry_finder one_site_queue) /\
    empty s1 = empty one_site_queue.
Proof.
  exact (top_peeks Point_eqb px Point_eqb_sym Point_eqb_trans
           one_site_queue one_site_reachable).
Defined.

(** ** The order of binary64 numbers *)

Module FloatOrder.
Ltac cmp_cases mx my mz ex ey ez :=
  change (Pos.compare_cont Eq mx my) with (mx ?= my)%positive;
  change (Pos.compare_cont Eq my mz) with (my ?= mz)%positive;
  change (Pos.compare_cont Eq mx mz) with (mx ?= mz)%positive;
  destruct (Z.compare_spec ex ey), (Z.compare_spec ey ez),
    (Z.compare_spec ex ez); try lia; try congruence;
  destruct (Pos.compare_spec mx my), (Pos.compare_spec my mz),
    (Pos.compare_spec mx mz); simpl; try lia; congruence.

Lemma SFcompare_Lt_Eq (x y z : spec_float) :
  SFcompare x y = Some Lt -> SFcompare y z = Some Eq -> SFcompare x z = Some Lt.
Proof.
  destruct x as [sx|sx| |sx mx ex], y as [sy|sy| |sy my ey], z as [sz|sz| |sz mz ez];
    simpl; try destruct sx; try destruct sy; try destruct sz; simpl; try congruence.
  all: cmp_cases mx my mz ex ey ez.
Qed.

Lemma SFcompare_Eq_Lt (x y z : spec_float) :
  SFcompare x y = Some Eq -> SFcompare y z = Some Lt -> SFcompare x z = Some Lt.
Proof.
  destruct x as [sx|sx| |sx mx ex], y as [sy|sy| |sy my ey], z as [sz|sz| |sz mz ez];
    simpl; try destruct sx; try destruct sy; try destruct sz; simpl; try congruence.
  all: cmp_cases mx my mz ex ey ez.
Qed.

Lemma SFcompare_Lt_Gt (x y : spec_float) :
  SFcompare x y = Some Lt <-> SFcompare y x = Some Gt.
Proof.
  destruct x as [sx|sx| |sx mx ex], y as [sy|sy| |sy my ey];
    simpl; try destruct sx; try destruct sy; simpl; try (split; congruence).
  all: change (Pos.compare_cont Eq mx my) with (mx ?= my)%positive;
    change (Pos.compare_cont Eq my mx) with (my ?= mx)%positive;
    destruct (Z.compare_spec ex ey), (Z.compare_spec ey ex); try lia;
    try (split; congruence);
    destruct (Pos.compare_spec mx my), (Pos.compare_spec my mx); simpl; try lia;
    split; congruence.
Qed.

Lemma SFcompare_total (x y : spec_float) :
  SFcompare x x = Some Eq -> SFcompare y y = Some Eq -> SFcompare x y <> None.
Proof.
  destruct x as [sx|sx| |sx mx ex], y as [sy|sy| |sy my ey];
    simpl; try destruct sx; try destruct sy; simpl; try congruence.
  all: destruct (ex ?= ey)%Z; try congruence; destruct (Pos.compare_cont _ _ _); simpl; congruence.
Qed.

#[local] Open Scope float_scope.

Lemma ltb_eqb_trans (x y z : float) :
  (x <? y) = true -> (y =? z) = true -> (x <? z) = true.
Proof.
  rewrite !FloatFacts.ltb_true_compare, FloatFacts.eqb_true_compare.
  apply SFcompare_Lt_Eq.
Qed.

Lemma eqb_ltb_trans (x y z : float) :
  (x =? y) = true -> (y <? z) = true -> (x <? z) = true.
Proof.
  rewrite !FloatFacts.ltb_true_compare, FloatFacts.eqb_true_compare.
  apply SFcompare_Eq_Lt.
Qed.

Lemma ltb_not_eqb (x y : float) : (x <? y) = true -> (x =? y) = false.
Proof.
  rewrite FloatFacts.ltb_true_compare, FloatAxioms.eqb_spec. unfold SFeqb.
  now intros ->.
Qed.

Lemma ltb_asym (x y : float) : (x <? y) = true -> (y <? x) = false.
Proof.
  rewrite FloatFacts.ltb_true_compare, FloatAxioms.ltb_spec. unfold SFltb.
  intros H. apply SFcompare_Lt_Gt in H. now rewrite H.
Qed.

Lemma eqb_not_ltb (x y : float) : (x =? y) = true -> (x <? y) = false.
Proof.
  intros H. destruct (x <? y) eqn:E; [|done]. apply ltb_not_eqb in E. congruence.
Qed.

(** Among numbers that are not NaN, "not above" is [<=]. *)
Lemma not_ltb_leb (x y : float) :
  (x =? x) = true -> (y =? y) = true -> (y <? x) = false -> (x <=? y) = true.
Proof.
  rewrite !FloatFacts.eqb_true_compare, FloatAxioms.ltb_spec, FloatAxioms.leb_spec.
  unfold SFltb, SFleb. intros Hx Hy H.
  pose proof (SFcompare_total _ _ Hx Hy) as Ht.
  destruct (SFcompare (Prim2SF x) (Prim2SF y)) as [[]|] eqn:E; try done.
  apply SFcompare_Lt_Gt in E. now rewrite E in H.
Qed.
End FloatOrder.

(** ** The order in which the queue hands out its items *)

Section QueueOrder.
Context {T : Type}.
Variable item_eqb : T -> T -> bool.
Variable item_x : T -> float.
Hypothesis eqb_sym : forall a b, item_eqb a b = item_eqb b a.
Hypothesis eqb_trans :
  forall a b c, item_eqb a b = true -> item_eqb b c = true -> item_eqb a c = true.

Lemma entry_lt_trans (a b c : entry T) :
  entry_lt a b = true -> entry_lt b c = true -> entry_lt a c = true.
Proof.
  unfold entry_lt.
  destruct (e_x a =? e_x b)%float eqn:E1, (e_x b =? e_x c)%float eqn:E2; intros H1 H2.
  - rewrite (FloatFacts.eqb_trans _ _ _ E1 E2).
    apply Nat.ltb_lt in H1, H2. apply Nat.ltb_lt. lia.
  - pose proof (FloatOrder.eqb_ltb_trans _ _ _ E1 H2) as H.
    now rewrite (FloatOrder.ltb_not_eqb _ _ H).
  - pose proof (FloatOrder.ltb_eqb_trans _ _ _ H1 E2) as H.
    now rewrite (FloatOrder.ltb_not_eqb _ _ H).
  - pose proof (FloatFacts.ltb_trans _ _ _ H1 H2) as H.
    now rewrite (FloatOrder.ltb_not_eqb _ _ H).
Qed.

Lemma entry_lt_asym (a b : entry T) : entry_lt a b = true -> entry_lt b a = false.
Proof.
  unfold entry_lt. rewrite (FloatFacts.eqb_sym (e_x b)).
  destruct (e_x a =? e_x b)%float eqn:E1; intros H.
  - apply Nat.ltb_lt in H. apply Nat.ltb_ge. lia.
  - now apply FloatOrder.ltb_asym.
Qed.

Lemma ascending_heappush (q : list (entry T)) n :
  ascending q -> ascending (heappush q n).
Proof.
  induction q as [|h t IH]; simpl; [done|]. intros [H1 H2].
  destruct (entry_lt n h) eqn:E; simpl.
  - split; [|done]. constructor; [now apply entry_lt_asym|].
    eapply Forall_impl; [exact H1|]. simpl. intros x Hx.
    destruct (entry_lt x n) eqn:E'; [|done].
    now rewrite (entry_lt_trans _ _ _ E' E) in Hx.
  - split; [|auto]. rewrite heappush_perm. now constructor.
Qed.

Lemma ascending_app (q1 q2 : list (entry T)) : ascending (q1 ++ q2) -> ascending q2.
Proof. induction q1 as [|h t IH]; simpl; [done|]. intros [_ H]. auto. Qed.

Lemma ascending_mark_removed c (q : list (entry T)) :
  ascending q -> ascending (mark_removed c q).
Proof.
  unfold mark_removed.
  induction q as [|h t IH]; simpl; [done|]. intros [H1 H2]. split; [|auto].
  apply Forall_fmap. eapply Forall_impl; [exact H1|]. simpl. intros x Hx.
  unfold entry_lt in *. now destruct (Nat.eqb (e_count x) c), (Nat.eqb (e_count h) c).
Qed.

Lemma keyed_mark_removed c (q : list (entry T)) :
  keyed item_x q -> keyed item_x (mark_removed c q).
Proof.
  unfold keyed, mark_removed. intros H. apply Forall_fmap.
  eapply Forall_impl; [exact H|]. simpl. intros x Hx.
  destruct (Nat.eqb (e_count x) c); [done|exact Hx].
Qed.

Lemma ordered_push s item s' :
  ascending (_queue s) -> keyed item_x (_queue s) ->
  push item_eqb item_x s item = Ok s' ->
  ascending (_queue s') /\ keyed item_x (_queue s').
Proof.
  intros H1 H2 H. unfold push in H. apply rbind_Ok in H as (s1 & E & H).
  injection H as <-. simpl.
  assert (ascending (_queue s1) /\ keyed item_x (_queue s1)) as [A1 A2].
  { destruct (dict_mem _ _ _); [|now injection E as <-].
    unfold remove in E. destruct (dict_pop _ _ _) as [[c d]|]; [|done].
    injection E as <-. simpl.
    split; [now apply ascending_mark_removed|now apply keyed_mark_removed]. }
  split; [now apply ascending_heappush|].
  unfold keyed. rewrite heappush_perm. constructor; [|done].
  simpl. now intros it [= <-].
Qed.

Lemma ordered_pop_live (q : list (entry T)) item q' :
  ascending q -> keyed item_x q -> pop_live q = Some (item, q') ->
  ascending q' /\ keyed item_x q' /\
  Forall (fun en => forall it, e_item en = Some it ->
                               (item_x it <? item_x item)%float = false) q'.
Proof.
  intros H1 H2 H. destruct (pop_live_Some _ _ _ H) as (pre & en & -> & Hit & _).
  apply ascending_app in H1. destruct H1 as [H1 H1'].
  unfold keyed in H2. apply Forall_app in H2 as [_ H2].
  apply Forall_cons in H2 as [Hx H2]. split; [done|]. split; [done|].
  apply Forall_forall. intros en' Hin it Hit'.
  rewrite Forall_forall in H1, H2. specialize (H1 _ Hin). specialize (H2 _ Hin _ Hit').
  specialize (Hx _ Hit). unfold entry_lt in H1. rewrite H2, Hx in H1.
  destruct (item_x it =? item_x item)%float eqn:E; [|done].
  now apply FloatOrder.eqb_not_ltb.
Qed.

Lemma reachable_ordered s :
  reachable item_eqb item_x s -> ascending (_queue s) /\ keyed item_x (_queue s).
Proof.
  induction 1 as [|s item s' R [IH1 IH2] Hr H|s r s' R [IH1 IH2] H
                  |s r s' R [IH1 IH2] H|s item s' R [IH1 IH2] H].
  - split; [done|constructor].
  - eapply ordered_push; eauto.
  - unfold pop in H. destruct (pop_live (_queue s)) as [[item q']|] eqn:Ep.
    + destruct (dict_pop _ _ _) as [[c d]|]; [|done]. injection H as _ <-. simpl.
      destruct (ordered_pop_live _ _ _ IH1 IH2 Ep) as (? & ? & _). done.
    + injection H as _ <-. split; [done|constructor].
  - unfold top in H. destruct (pop_live (_queue s)) as [[item q']|] eqn:Ep.
    + apply rbind_Ok in H as (s1 & E & H). injection H as _ <-.
      destruct (ordered_pop_live _ _ _ IH1 IH2 Ep) as (? & ? & _).
      eapply ordered_push; [| |exact E]; done.
    + injection H as _ <-. split; [done|constructor].
  - unfold remove in H. destruct (dict_pop _ _ _) as [[c d]|]; [|done].
    injection H as <-. simpl.
    split; [now apply ascending_mark_removed|now apply keyed_mark_removed].
Qed.

Lemma live_items_in_order (q : list (entry T)) :
  ascending q -> keyed item_x q ->
  forall i j a b, i < j ->
    map fst (live_pairs q) !! i = Some a -> map fst (live_pairs q) !! j = Some b ->
    (item_x b <? item_x a)%float = false.
Proof.
  induction q as [|en t IH]; intros H1 H2 i j a b Hij Ha Hb; [done|].
  destruct H1 as [H1 H1']. unfold keyed in H2. apply Forall_cons in H2 as [Hx H2].
  rewrite live_pairs_cons in Ha, Hb. destruct (e_item en) as [it|] eqn:Hit.
  - simpl in Ha, Hb. destruct j as [|j]; [lia|]. simpl in Hb.
    destruct i as [|i].
    + injection Ha as <-. apply list_elem_of_lookup_2 in Hb.
      apply list_elem_of_fmap in Hb as ([b' c] & -> & Hin). simpl.
      unfold live_pairs in Hin. apply list_elem_of_omap in Hin as (en' & Hin & Hl).
      unfold live_pair in Hl. destruct (e_item en') as [it'|] eqn:Hit'; [|done].
      injection Hl as <- <-.
      rewrite Forall_forall in H1, H2. specialize (H1 _ Hin).
      specialize (H2 _ Hin _ Hit'). specialize (Hx _ eq_refl).
      unfold entry_lt in H1. rewrite H2, Hx in H1.
      destruct (item_x it' =? item_x it)%float eqn:E; [|done].
      now apply FloatOrder.eqb_not_ltb.
    + simpl in Ha. eapply (IH H1' H2 i j); eauto. lia.
  - eapply (IH H1' H2 i j); eauto.
Qed.

(** X7: the queue hands out its items in the order of their [x]: popping
    a queue built with [push], [pop], [top] and [remove] until it is empty
    returns a list in which no item has a smaller [x] than an earlier one
    ([x] of the earlier [<=] [x] of the later). *)
Theorem pops_come_in_order s :
  (forall a, item_eqb a a = true -> (item_x a =? item_x a)%float = true) ->
  reachable item_eqb item_x s ->
  exists l,
    pop_all item_eqb (S (length (_queue s))) s = Ok l /\
    forall i j a b, i < j -> l !! i = Some a -> l !! j = Some b ->
                    (item_x a <=? item_x b)%float = true.
Proof.
  intros Hnan R. destruct (reachable_ordered s R) as [H1 H2].
  apply (reachable_wf item_eqb item_x eqb_sym eqb_trans) in R.
  exists (map fst (live_pairs (_queue s))). split.
  - apply (pop_all_live item_eqb eqb_sym eqb_trans); [done|].
    pose proof (length_live_pairs (_queue s)). lia.
  - intros i j a b Hij Ha Hb.
    assert (Hself : forall c, c ∈ map fst (live_pairs (_queue s)) -> item_eqb c c = true).
    { destruct R as [_ _ R3 _ R5]. intros c Hc. rewrite R3 in Hc.
      apply list_elem_of_fmap in Hc as ([k v] & -> & Hin).
      rewrite Forall_forall in R5. exact (R5 _ Hin). }
    apply FloatOrder.not_ltb_leb.
    + apply Hnan, Hself. eapply list_elem_of_lookup_2; eauto.
    + apply Hnan, Hself. eapply list_elem_of_lookup_2; eauto.
    + eapply live_items_in_order; eauto.
Qed.
End QueueOrder.

Lemma proper_px (a : Point) : Point_eqb a a = true -> (px a =? px a)%float = true.
Proof. unfold Point_eqb. now intros [H _]%andb_true_iff. Qed.

Lemma pops_come_in_order_witness :
  exists s l,
    push_sites [mkPoint 3 0; mkPoint 1 0] new_queue = Ok s /\
    pop_all Point_eqb (S (length (_queue s))) s = Ok l /\
    forall i j a b, i < j -> l !! i = Some a -> l !! j = Some b ->
                    (px a <=? px b)%float = true.
Proof.
  destruct (push_sites [mkPoint 3 0; mkPoint 1 0] new_queue) as [s| |] eqn:E;
    [|vm_compute in E; discriminate..].
  exists s.
  destruct (pops_come_in_order Point_eqb px Point_eqb_sym Point_eqb_trans s proper_px)
    as (l & Hl & Ho).
  - eapply push_sites_reachable; [|apply reach_new|exact E]. repeat constructor.
  - exists l. auto.
Defined.

(** ** Invariants of the engine

    A property of the edges, the validity flags and the circle bookkeeping
    is kept by the whole engine as soon as it is kept by the few updates
    that the code makes to them: a new open edge, [finish] on an edge, the
    finished edge of the two-site path, a new valid event, an invalidation,
    and [record_circle] on a circle whose radius is the distance from its
    centre to its middle site. *)

Section Invariant.
Variable P : Voronoi -> Prop.
Hypothesis Hframe : forall v v',
  output v' = output v -> ev_valid v' = ev_valid v ->
  largest_empty_circles v' = largest_empty_circles v ->
  max_circle_radius v' = max_circle_radius v -> P v -> P v'.
Hypothesis Hseg_new : forall v z,
  P v -> P (with_output (output v ++ [mkLineSegment z]) v).
Hypothesis Hseg_fin : forall v k p, P v -> P (finish_seg k p v).
Hypothesis Hseg_two : forall v s e,
  P v -> P (with_output (output v ++ [finish (mkLineSegment s) e]) v).
Hypothesis Hval_new : forall v, P v -> P (with_valid (ev_valid v ++ [true]) v).
Hypothesis Hval_inv : forall v k, P v -> P (invalidate k v).
Hypothesis Hcirc : forall v o r a b c,
  P v -> distance_to o b = Ok r -> P (record_circle (o, r, (a, b, c)) r v).

Lemma inv_invalidate_old a v : P v -> P (invalidate_old a v).
Proof.
  unfold invalidate_old. destruct (arc_e a); [|done].
  destruct (negb _); [apply Hval_inv|done].
Qed.

Lemma inv_insert_copy i a f v : P v -> P (insert_copy i a f v).
Proof.
  apply Hframe; unfold insert_copy; now destruct (pnext a), f.
Qed.

Ltac frame :=
  match goal with
  | |- P (upd_arc _ _ ?v) => apply (Hframe v); [reflexivity..|]
  | |- P (with_arcs _ ?v) => apply (Hframe v); [reflexivity..|]
  | |- P (with_head _ ?v) => apply (Hframe v); [reflexivity..|]
  | |- P (with_points _ ?v) => apply (Hframe v); [reflexivity..|]
  | |- P (with_events _ ?v) => apply (Hframe v); [reflexivity..|]
  | |- P (invalidate_old _ _) => apply inv_invalidate_old
  | |- P (insert_copy _ _ _ _) => apply inv_insert_copy
  | |- P (with_output (_ ++ [mkLineSegment ?z]) ?v) =>
      change (P (with_output (output v ++ [mkLineSegment z]) v)); apply Hseg_new
  | |- P (with_output (_ ++ [finish (mkLineSegment ?s) ?e]) ?v) =>
      change (P (with_output (output v ++ [finish (mkLineSegment s) e]) v));
      apply Hseg_two
  | |- P (finish_seg _ _ _) => apply Hseg_fin
  | |- P (with_valid (_ ++ [true]) ?v) =>
      change (P (with_valid (ev_valid v ++ [true]) v)); apply Hval_new
  end.

Ltac framed := repeat frame; try assumption.

Lemma inv_schedule i ap ai an x o v v' :
  P v -> schedule_circle_event i ap ai an x o v = Ok v' -> P v'.
Proof.
  intros HP H. unfold schedule_circle_event in H. peel.
  - apply Hcirc; [framed|]. unfold distance_to.
    match goal with H : PyFloat.pow2 (px o - _) = _ |- _ => rewrite H end. simpl.
    match goal with H : PyFloat.pow2 (py o - _) = _ |- _ => rewrite H end. simpl.
    done.
  - framed.
Qed.

Lemma inv_check i sweep v v' :
  P v -> _check_potential_circle_event i sweep v = Ok v' -> P v'.
Proof.
  intros HP H. unfold _check_potential_circle_event in H. peel; try (framed; fail).
  eapply inv_schedule; [|eassumption]. framed.
Qed.

Ltac fwd0 :=
  repeat match goal with
    | H : _check_potential_circle_event _ _ ?v = Ok ?v' |- _ =>
        assert (P v') by (eapply inv_check; [|exact H]; framed); clear H
    end.

Lemma inv_new_edges n z v v' : P v -> new_edges n z v = Ok v' -> P v'.
Proof. intros HP H. unfold new_edges, alloc_seg in H. peel. framed. Qed.

Lemma inv_recheck_split n sweep v v' : P v -> recheck_split n sweep v = Ok v' -> P v'.
Proof. intros HP H. unfold recheck_split in H. peel. fwd0. framed. Qed.

Ltac fwd1 :=
  repeat match goal with
    | H : new_edges _ _ ?v = Ok ?v' |- _ =>
        assert (P v') by (eapply inv_new_edges; [|exact H]; framed); clear H
    | H : recheck_split _ _ ?v = Ok ?v' |- _ =>
        assert (P v') by (eapply inv_recheck_split; [|exact H]; framed); clear H
    end.

Lemma inv_split_arc p i z v v' : P v -> split_arc p i z v = Ok v' -> P v'.
Proof.
  intros HP H. unfold split_arc, insert_new, alloc_arc in H. peel. fwd1. framed.
Qed.

Lemma inv_append_arc p h v v' : P v -> append_arc p h v = Ok v' -> P v'.
Proof. intros HP H. unfold append_arc, alloc_arc in H. peel. framed. Qed.

Lemma inv_add_arc p v v' : P v -> _add_parabolic_parabolicArc p v = Ok v' -> P v'.
Proof.
  intros HP H. unfold _add_parabolic_parabolicArc, alloc_arc in H. peel.
  - eapply inv_split_arc; eauto.
  - eapply inv_append_arc; eauto.
  - framed.
Qed.

Lemma inv_site_event v v' : P v -> _process_site_event v = Ok v' -> P v'.
Proof.
  intros HP H. unfold _process_site_event in H. peel.
  eapply inv_add_arc; [|eassumption]. framed.
Qed.

Lemma inv_unlink_arc a s v v' : P v -> unlink_arc a s v = Ok v' -> P v'.
Proof. intros HP H. unfold unlink_arc in H. peel; destruct (pprev _); framed. Qed.

Lemma inv_finish_arc_edges a p v v' : P v -> finish_arc_edges a p v = Ok v' -> P v'.
Proof.
  intros HP H. unfold finish_arc_edges in H. peel.
  destruct (s1 _), (s0 _); framed.
Qed.

Lemma inv_recheck_unlink a sweep v v' : P v -> recheck_unlink a sweep v = Ok v' -> P v'.
Proof. intros HP H. unfold recheck_unlink in H. peel; fwd0; framed. Qed.

Ltac fwd2 :=
  repeat match goal with
    | H : unlink_arc _ _ ?v = Ok ?v' |- _ =>
        assert (P v') by (eapply inv_unlink_arc; [|exact H]; framed); clear H
    | H : finish_arc_edges _ _ ?v = Ok ?v' |- _ =>
        assert (P v') by (eapply inv_finish_arc_edges; [|exact H]; framed); clear H
    | H : recheck_unlink _ _ ?v = Ok ?v' |- _ =>
        assert (P v') by (eapply inv_recheck_unlink; [|exact H]; framed); clear H
    end.

Lemma inv_circle_event v v' : P v -> _process_circle_event v = Ok v' -> P v'.
Proof.
  intros HP H. unfold _process_circle_event, alloc_seg in H. peel; fwd2; framed.
Qed.

Lemma inv_process_all fuel v v' : P v -> _process_all_events fuel v = Ok v' -> P v'.
Proof.
  revert v. induction fuel as [|fuel IH]; intros v HP; simpl.
  - destruct (empty (points v)); [|done]. now intros [= <-].
  - destruct (empty (points v)); [now intros [= <-]|].
    intros H. apply rbind_Ok in H as ([b v1] & E & H).
    apply rbind_Ok in H as (v2 & E2 & H).
    assert (P v1) by (destruct (empty (events v)); peel; framed).
    assert (P v2).
    { destruct b; [eapply inv_circle_event|eapply inv_site_event]; eauto. }
    eauto.
Qed.

Lemma inv_process_remaining fuel v v' :
  P v -> _process_remaining_events fuel v = Ok v' -> P v'.
Proof.
  revert v. induction fuel as [|fuel IH]; intros v HP; simpl.
  - destruct (empty (events v)); [|done]. now intros [= <-].
  - destruct (empty (events v)); [now intros [= <-]|].
    intros H. apply rbind_Ok in H as (v1 & E & H).
    eapply IH; [|exact H]. eapply inv_circle_event; eauto.
Qed.

Lemma inv_complete_edge i j v : P v -> P (complete_edge i j v).
Proof.
  intros HP. unfold complete_edge.
  repeat match goal with |- context [match ?x with _ => _ end] => destruct x end;
    framed.
Qed.

Lemma inv_complete_from fuel i v v' : P v -> complete_from fuel i v = Ok v' -> P v'.
Proof.
  revert i v. induction fuel as [|fuel IH]; intros [i|] v HP; simpl; intros H; peel;
    try done.
  eapply IH; [|exact H]. now apply inv_complete_edge.
Qed.

Lemma inv_two_points v v' : P v -> _handle_two_points_case v = Ok v' -> P v'.
Proof. intros HP H. unfold _handle_two_points_case in H. peel; framed. Qed.

Lemma inv_generate fuel v v' : P v -> generate_voronoi_diagram fuel v = Ok v' -> P v'.
Proof.
  intros HP H. unfold generate_voronoi_diagram, _complete_unfinished_edges in H.
  destruct (Nat.eqb _ 2); [eapply inv_two_points; eauto|].
  apply rbind_Ok in H as (v1 & E1 & H). apply rbind_Ok in H as (v2 & E2 & H).
  eapply inv_complete_from; [|exact H].
  eapply inv_process_remaining; [|exact E2].
  eapply inv_process_all; eauto.
Qed.

Lemma inv_add_points pts v v' : P v -> _add_points pts v = Ok v' -> P v'.
Proof.
  revert v. induction pts as [|[x y] pts IH]; simpl; intros v HP H; peel; [done|].
  eapply IH; [|exact H]. framed.
Qed.

Lemma inv_run fuel pts w h v :
  P (_setup_bounds w h _initialize_structures) -> run fuel pts w h = Ok v -> P v.
Proof.
  intros HP H. unfold run, init in H. apply rbind_Ok in H as (v0 & E & H).
  eapply inv_generate; [|exact H]. eapply inv_add_points; eauto.
Qed.
End Invariant.

Lemma output_record_circle c r v : output (record_circle c r v) = output v.
Proof. unfold record_circle. now repeat destruct (_ <? _)%float. Qed.

Lemma valid_record_circle c r v : ev_valid (record_circle c r v) = ev_valid v.
Proof. unfold record_circle. now repeat destruct (_ <? _)%float. Qed.

Lemma seg_ok_finish s p : seg_ok s -> seg_ok (finish s p).
Proof.
  intros H. unfold finish. destruct (done s) eqn:E; [exact H|].
  intros _. simpl. eauto.
Qed.

Lemma omap_total_length {A B} (f : A -> option B) (l : list A) :
  Forall (fun x => is_Some (f x)) l -> length (omap f l) = length l.
Proof.
  induction 1 as [|x l [y Hy] _ IH]; [done|].
  change (omap f (x :: l)) with (match f x with Some y => y :: omap f l | None => omap f l end).
  rewrite Hy. simpl. now rewrite IH.
Qed.

(** X8: after a run, every edge of [output] that is [done] has its [end]
    set, so that [get_voronoi_line_segments] reads [o.end.x] of an actual
    point for each of them: it returns one tuple per finished edge. *)
Theorem finished_edges_have_an_end fuel pts w h v :
  run fuel pts w h = Ok v ->
  Forall seg_ok (output v) /\
  length (get_voronoi_line_segments v)
  = length (filter (fun o => done o = true) (output v)).
Proof.
  intros H.
  assert (Hall : Forall seg_ok (output v)).
  { apply (inv_run (fun v => Forall seg_ok (output v))) in H; [done|..].
    - intros v1 v2 -> _ _ _. done.
    - intros v1 z Hv. simpl. apply Forall_app. split; [done|].
      constructor; [|constructor]. done.
    - intros v1 k p Hv. unfold finish_seg. simpl.
      apply Forall_alter; [done|]. intros s _. apply seg_ok_finish.
    - intros v1 s e Hv. simpl. apply Forall_app. split; [done|].
      constructor; [|constructor]. unfold seg_ok. simpl. eauto.
    - intros v1 Hv. done.
    - intros v1 k Hv. done.
    - intros v1 o r a b c Hv _. now rewrite output_record_circle.
    - constructor. }
  split; [done|]. unfold get_voronoi_line_segments. apply omap_total_length.
  apply Forall_forall. intros s [Hd Hin]%list_elem_of_filter.
  rewrite Forall_forall in Hall. destruct (Hall s Hin Hd) as [e He].
  unfold edge_tuple. rewrite He. eauto.
Qed.

Lemma finished_edges_have_an_end_witness :
  exists v,
    run 100 three_sites 20 20 = Ok v /\
    Forall seg_ok (output v) /\
    length (get_voronoi_line_segments v)
    = length (filter (fun o => done o = true) (output v)).
Proof.
  destruct (run 100 three_sites 20 20) as [v| |] eqn:E;
    [|vm_compute in E; discriminate..].
  exists v. split; [reflexivity|].
  exact (finished_edges_have_an_end 100 three_sites 20%float 20%float v E).
Defined.

Lemma edges_kept_refl v : edges_kept v v.
Proof. intros k seg H. exists seg. done. Qed.

Section EdgesKept.
Variable v0 : Voronoi.

Lemma edges_kept_frame v v' : output v' = output v -> edges_kept v0 v -> edges_kept v0 v'.
Proof. intros E H k seg Hk. rewrite E. auto. Qed.

Lemma edges_kept_new v s : edges_kept v0 v -> edges_kept v0 (with_output (output v ++ [s]) v).
Proof.
  intros H k seg Hk. destruct (H k seg Hk) as (seg' & E & Hs).
  exists seg'. split; [|done]. simpl. rewrite lookup_app_l; [done|].
  eapply lookup_lt_Some; eauto.
Qed.

Lemma edges_kept_finish v k p : edges_kept v0 v -> edges_kept v0 (finish_seg k p v).
Proof.
  intros H j seg Hj. destruct (H j seg Hj) as (seg' & E & Hs & Hd).
  unfold finish_seg. simpl. destruct (decide (k = j)) as [->|Hne].
  - rewrite list_lookup_alter_eq, E. simpl. exists (finish seg' p).
    split; [done|]. unfold finish. destruct (done seg') eqn:Ed; [done|].
    simpl. split; [done|]. intros Hseg. rewrite (Hd Hseg) in Ed. congruence.
  - rewrite list_lookup_alter_ne by done. eauto.
Qed.

Lemma edges_kept_run_hyps :
  (forall v v' : Voronoi,
      output v' = output v -> ev_valid v' = ev_valid v ->
      largest_empty_circles v' = largest_empty_circles v ->
      max_circle_radius v' = max_circle_radius v ->
      edges_kept v0 v -> edges_kept v0 v') /\
  (forall v z, edges_kept v0 v ->
               edges_kept v0 (with_output (output v ++ [mkLineSegment z]) v)) /\
  (forall v k p, edges_kept v0 v -> edges_kept v0 (finish_seg k p v)) /\
  (forall v s e, edges_kept v0 v ->
                 edges_kept v0 (with_output (output v ++ [finish (mkLineSegment s) e]) v)) /\
  (forall v, edges_kept v0 v -> edges_kept v0 (with_valid (ev_valid v ++ [true]) v)) /\
  (forall v k, edges_kept v0 v -> edges_kept v0 (invalidate k v)) /\
  (forall v o r a b c, edges_kept v0 v -> distance_to o b = Ok r ->
                       edges_kept v0 (record_circle (o, r, (a, b, c)) r v)).
Proof.
  repeat split.
  - intros v v' E _ _ _. now apply edges_kept_frame.
  - intros v z. apply edges_kept_new.
  - intros v k p. apply edges_kept_finish.
  - intros v s e. apply edges_kept_new.
  - intros v. now apply edges_kept_frame.
  - intros v k. now apply edges_kept_frame.
  - intros v o r a b c H _. eapply edges_kept_frame; [|exact H].
    apply output_record_circle.
Qed.
End EdgesKept.

(** X9: edges are never dropped and finished edges are final.  Over a site
    event, a circle event, and the whole of [generate_voronoi_diagram],
    every edge of [output] stays at its index with its start point, and an
    edge that was [done] is not modified. *)
Theorem finished_edges_are_final :
  (forall v v', _process_site_event v = Ok v' -> edges_kept v v') /\
  (forall v v', _process_circle_event v = Ok v' -> edges_kept v v') /\
  (forall fuel v v', generate_voronoi_diagram fuel v = Ok v' -> edges_kept v v').
Proof.
  split; [|split].
  - intros v v' H.
    destruct (edges_kept_run_hyps v) as (H1 & H2 & H3 & H4 & H5 & H6 & H7).
    eapply (inv_site_event (edges_kept v)); [..|exact H]; try assumption.
    apply edges_kept_refl.
  - intros v v' H.
    destruct (edges_kept_run_hyps v) as (H1 & H2 & H3 & H4 & H5 & H6 & H7).
    eapply (inv_circle_event (edges_kept v)); [..|exact H]; try assumption.
    apply edges_kept_refl.
  - intros fuel v v' H.
    destruct (edges_kept_run_hyps v) as (H1 & H2 & H3 & H4 & H5 & H6 & H7).
    eapply (inv_generate (edges_kept v)); [..|exact H]; try assumption.
    apply edges_kept_refl.
Qed.

Lemma finished_edges_are_final_witness :
  exists v0 v2 v3 v4 v seg,
    init three_sites 20 20 = Ok v0 /\
    site_events 2 v0 = Ok v2 /\ length (output v2) = 2 /\
    _process_site_event v2 = Ok v3 /\ edges_kept v2 v3 /\
    _process_circle_event v3 = Ok v4 /\ edges_kept v3 v4 /\
    output v4 !! 0 = Some seg /\ done seg = true /\
    generate_voronoi_diagram 100 v4 = Ok v /\ edges_kept v4 v /\
    run 100 three_sites 20 20 = Ok v.
Proof.
  destruct (init three_sites 20 20) as [v0| |] eqn:E0;
    [|vm_compute in E0; discriminate..].
  destruct (site_events 2 v0) as [v2| |] eqn:E2;
    [|vm_compute in E0; injection E0 as <-; vm_compute in E2; discriminate..].
  destruct (_process_site_event v2) as [v3| |] eqn:E3;
    [|vm_compute in E0; injection E0 as <-; vm_compute in E2; injection E2 as <-;
      vm_compute in E3; discriminate..].
  destruct (_process_circle_event v3) as [v4| |] eqn:E4;
    [|vm_compute in E0; injection E0 as <-; vm_compute in E2; injection E2 as <-;
      vm_compute in E3; injection E3 as <-; vm_compute in E4; discriminate..].
  destruct (generate_voronoi_diagram 100 v4) as [v| |] eqn:E5;
    [|vm_compute in E0; injection E0 as <-; vm_compute in E2; injection E2 as <-;
      vm_compute in E3; injection E3 as <-; vm_compute in E4; injection E4 as <-;
      vm_compute in E5; discriminate..].
  destruct (output v4 !! 0) as [seg|] eqn:E6;
    [|vm_compute in E0; injection E0 as <-; vm_compute in E2; injection E2 as <-;
      vm_compute in E3; injection E3 as <-; vm_compute in E4; injection E4 as <-;
      vm_compute in E6; discriminate].
  exists v0, v2, v3, v4, v, seg.
  pose proof finished_edges_are_final as (Hs & Hc & Hg).
  split; [reflexivity|]. split; [exact E2|].
  split; [vm_compute in E0; injection E0 as <-; vm_compute in E2; injection E2 as <-;
          reflexivity|].
  split; [exact E3|]. split; [exact (Hs v2 v3 E3)|].
  split; [exact E4|]. split; [exact (Hc v3 v4 E4)|].
  split; [exact E6|].
  split; [vm_compute in E0; injection E0 as <-; vm_compute in E2; injection E2 as <-;
          vm_compute in E3; injection E3 as <-; vm_compute in E4; injection E4 as <-;
          vm_compute in E6; injection E6 as <-; reflexivity|].
  split; [exact E5|]. split; [exact (Hg 100 v4 v E5)|].
  vm_compute in E0; injection E0 as <-; vm_compute in E2; injection E2 as <-;
  vm_compute in E3; injection E3 as <-; vm_compute in E4; injection E4 as <-;
  vm_compute in E5; injection E5 as <-. vm_compute. reflexivity.
Defined.

Lemma circles_invalidate k v :
  largest_empty_circles (invalidate k v) = largest_empty_circles v /\
  max_circle_radius (invalidate k v) = max_circle_radius v.
Proof. done. Qed.

Lemma record_circle_at_max c r v :
  (let '(_, r', _) := c in r' = r) ->
  Forall (circle_at_max (max_circle_radius v)) (largest_empty_circles v) ->
  Forall (circle_at_max (max_circle_radius (record_circle c r v)))
    (largest_empty_circles (record_circle c r v)).
Proof.
  intros Hc H. unfold record_circle.
  destruct (abs (r - max_circle_radius v) <? EPSILON)%float eqn:E1; simpl.
  - apply Forall_app. split; [done|]. constructor; [|constructor].
    destruct c as [[o r'] t]. subst r'. now right.
  - destruct (max_circle_radius v <? r)%float; simpl; [|done].
    constructor; [|constructor]. destruct c as [[o r'] t]. subst r'. now left.
Qed.

(** X10: the circles reported after a run all have the running maximum as
    their radius, up to [EPSILON]: for each of them the radius is
    [max_circle_radius] or differs from it by less than [EPSILON]. *)
Theorem reported_circles_share_the_maximum fuel pts w h v :
  run fuel pts w h = Ok v ->
  Forall (circle_at_max (max_circle_radius v)) (get_largest_empty_circles v).
Proof.
  intros H. unfold get_largest_empty_circles.
  apply (inv_run (fun v => Forall (circle_at_max (max_circle_radius v))
                             (largest_empty_circles v))) in H; [done|..].
  - intros v1 v2 _ _ -> ->. done.
  - intros v1 z Hv. done.
  - intros v1 k p Hv. done.
  - intros v1 s e Hv. done.
  - intros v1 Hv. done.
  - intros v1 k Hv. done.
  - intros v1 o r a b c Hv _. now apply record_circle_at_max.
  - constructor.
Qed.

Lemma reported_circles_share_the_maximum_witness :
  exists v,
    run 100 three_sites 20 20 = Ok v /\
    Forall (circle_at_max (max_circle_radius v)) (get_largest_empty_circles v).
Proof.
  destruct (run 100 three_sites 20 20) as [v| |] eqn:E;
    [|vm_compute in E; discriminate..].
  exists v. split; [reflexivity|].
  exact (reported_circles_share_the_maximum 100 three_sites 20%float 20%float v E).
Defined.

Lemma record_circle_radius c r v :
  circle_radius_ok c ->
  Forall circle_radius_ok (largest_empty_circles v) ->
  Forall circle_radius_ok (largest_empty_circles (record_circle c r v)).
Proof.
  intros Hc H. unfold record_circle.
  destruct (abs (r - max_circle_radius v) <? EPSILON)%float; simpl.
  - apply Forall_app. split; [done|]. now constructor.
  - destruct (max_circle_radius v <? r)%float; simpl; [|done]. now constructor.
Qed.

(** X11: the radius of every circle reported after a run is the distance
    from the circle's centre (a [Point], with one decimal) to the second of
    its three defining sites, as [distance_to] computes it. *)
Theorem reported_radius_is_a_distance fuel pts w h v :
  run fuel pts w h = Ok v ->
  Forall circle_radius_ok (get_largest_empty_circles v).
Proof.
  intros H. unfold get_largest_empty_circles.
  apply (inv_run (fun v => Forall circle_radius_ok (largest_empty_circles v))) in H;
    [done|..].
  - intros v1 v2 _ _ -> _. done.
  - intros v1 z Hv. done.
  - intros v1 k p Hv. done.
  - intros v1 s e Hv. done.
  - intros v1 Hv. done.
  - intros v1 k Hv. done.
  - intros v1 o r a b c Hv Hd. now apply record_circle_radius.
  - constructor.
Qed.

Lemma reported_radius_is_a_distance_witness :
  exists v,
    run 100 three_sites 20 20 = Ok v /\
    Forall circle_radius_ok (get_largest_empty_circles v).
Proof.
  destruct (run 100 three_sites 20 20) as [v| |] eqn:E;
    [|vm_compute in E; discriminate..].
  exists v. split; [reflexivity|].
  exact (reported_radius_is_a_distance 100 three_sites 20%float 20%float v E).
Defined.

Lemma flags_kept_refl v : flags_kept v v.
Proof. split; [lia|auto]. Qed.

Section FlagsKept.
Variable v0 : Voronoi.

Lemma flags_kept_frame v v' : ev_valid v' = ev_valid v -> flags_kept v0 v -> flags_kept v0 v'.
Proof. intros E H. unfold flags_kept. now rewrite E. Qed.

Lemma flags_kept_new v :
  flags_kept v0 v -> flags_kept v0 (with_valid (ev_valid v ++ [true]) v).
Proof.
  intros [H1 H2]. split; simpl.
  - rewrite length_app. lia.
  - intros k Hk. rewrite lookup_app_l; [auto|]. eapply lookup_lt_Some; eauto.
Qed.

Lemma flags_kept_invalidate v k : flags_kept v0 v -> flags_kept v0 (invalidate k v).
Proof.
  intros [H1 H2]. split; simpl.
  - now rewrite length_insert.
  - intros j Hj. specialize (H2 j Hj). destruct (decide (k = j)) as [->|Hne].
    + rewrite list_lookup_insert_eq; [done|]. eapply lookup_lt_Some; eauto.
    + now rewrite list_lookup_insert_ne.
Qed.
End FlagsKept.

(** X12: an event that was invalidated stays invalid.  Over a site event, a
    circle event and the whole of [generate_voronoi_diagram] no validity
    flag is dropped and no flag goes back from [False] to [True]. *)
Theorem invalid_events_stay_invalid :
  (forall v v', _process_site_event v = Ok v' -> flags_kept v v') /\
  (forall v v', _process_circle_event v = Ok v' -> flags_kept v v') /\
  (forall fuel v v', generate_voronoi_diagram fuel v = Ok v' -> flags_kept v v').
Proof.
  assert (Hyp : forall v0,
    (forall v v' : Voronoi,
        output v' = output v -> ev_valid v' = ev_valid v ->
        largest_empty_circles v' = largest_empty_circles v ->
        max_circle_radius v' = max_circle_radius v ->
        flags_kept v0 v -> flags_kept v0 v') /\
    (forall v z, flags_kept v0 v ->
                 flags_kept v0 (with_output (output v ++ [mkLineSegment z]) v)) /\
    (forall v k p, flags_kept v0 v -> flags_kept v0 (finish_seg k p v)) /\
    (forall v s e, flags_kept v0 v ->
                   flags_kept v0 (with_output (output v ++ [finish (mkLineSegment s) e]) v)) /\
    (forall v, flags_kept v0 v -> flags_kept v0 (with_valid (ev_valid v ++ [true]) v)) /\
    (forall v k, flags_kept v0 v -> flags_kept v0 (invalidate k v)) /\
    (forall v o r a b c, flags_kept v0 v -> distance_to o b = Ok r ->
                         flags_kept v0 (record_circle (o, r, (a, b, c)) r v))).
  { intros v0. split; [|split; [|split; [|split; [|split; [|split]]]]].
    - intros v v' _ E _ _. now apply flags_kept_frame.
    - intros v z. now apply flags_kept_frame.
    - intros v k p. now apply flags_kept_frame.
    - intros v s e. now apply flags_kept_frame.
    - intros v. apply flags_kept_new.
    - intros v k. apply flags_kept_invalidate.
    - intros v o r a b c H _. eapply flags_kept_frame; [|exact H].
      apply valid_record_circle. }
  split; [|split].
  - intros v v' H. destruct (Hyp v) as (H1 & H2 & H3 & H4 & H5 & H6 & H7).
    eapply (inv_site_event (flags_kept v)); [..|exact H]; try assumption.
    apply flags_kept_refl.
  - intros v v' H. destruct (Hyp v) as (H1 & H2 & H3 & H4 & H5 & H6 & H7).
    eapply (inv_circle_event (flags_kept v)); [..|exact H]; try assumption.
    apply flags_kept_refl.
  - intros fuel v v' H. destruct (Hyp v) as (H1 & H2 & H3 & H4 & H5 & H6 & H7).
    eapply (inv_generate (flags_kept v)); [..|exact H]; try assumption.
    apply flags_kept_refl.
Qed.

Lemma invalid_events_stay_invalid_witness :
  exists v5 v6 v,
    four_sites_midway = Ok v5 /\ ev_valid v5 = [true; false; true] /\
    _process_circle_event v5 = Ok v6 /\ flags_kept v5 v6 /\
    generate_voronoi_diagram 100 v5 = Ok v /\ flags_kept v5 v /\
    run 100 four_sites 10 10 = Ok v.
Proof.
  destruct four_sites_midway as [v5| |] eqn:E5; [|vm_compute in E5; discriminate..].
  destruct (_process_circle_event v5) as [v6| |] eqn:E6;
    [|vm_compute in E5; injection E5 as <-; vm_compute in E6; discriminate..].
  destruct (generate_voronoi_diagram 100 v5) as [v| |] eqn:E;
    [|vm_compute in E5; injection E5 as <-; vm_compute in E; discriminate..].
  exists v5, v6, v.
  pose proof invalid_events_stay_invalid as (_ & Hc & Hg).
  split; [reflexivity|].
  split; [vm_compute in E5; injection E5 as <-; reflexivity|].
  split; [exact E6|]. split; [exact (Hc v5 v6 E6)|].
  split; [exact E|]. split; [exact (Hg 100 v5 v E)|].
  vm_compute in E5; injection E5 as <-. vm_compute in E; injection E as <-.
  vm_compute. reflexivity.
Defined.

(** ** The schedules at the end of the sweep *)

Lemma points_invalidate_old a v : points (invalidate_old a v) = points v.
Proof. unfold invalidate_old. destruct (arc_e a); [|done]. now destruct (negb _). Qed.

Lemma points_record_circle c r v : points (record_circle c r v) = points v.
Proof. unfold record_circle. now repeat destruct (_ <? _)%float. Qed.

Ltac same_points :=
  simpl; rewrite ?points_record_circle; simpl; rewrite ?points_invalidate_old; done.

Lemma points_schedule i ap ai an x o v v' :
  schedule_circle_event i ap ai an x o v = Ok v' -> points v' = points v.
Proof. unfold schedule_circle_event. intros H. peel; same_points. Qed.

Lemma points_check i sweep v v' :
  _check_potential_circle_event i sweep v = Ok v' -> points v' = points v.
Proof.
  unfold _check_potential_circle_event. intros H. peel; try same_points.
  apply points_schedule in H. rewrite H. same_points.
Qed.

Lemma points_unlink_arc a s v v' : unlink_arc a s v = Ok v' -> points v' = points v.
Proof. unfold unlink_arc. intros H. peel; simpl; now destruct (pprev _). Qed.

Lemma points_finish_arc_edges a p v v' :
  finish_arc_edges a p v = Ok v' -> points v' = points v.
Proof. unfold finish_arc_edges. intros H. peel. now destruct (s1 _), (s0 _). Qed.

Lemma points_recheck_unlink a sweep v v' :
  recheck_unlink a sweep v = Ok v' -> points v' = points v.
Proof.
  unfold recheck_unlink. intros H. peel;
    repeat match goal with
      | H : _check_potential_circle_event _ _ _ = Ok _ |- _ => apply points_check in H
      end; congruence.
Qed.

Lemma points_circle_event v v' : _process_circle_event v = Ok v' -> points v' = points v.
Proof.
  unfold _process_circle_event, alloc_seg. intros H. peel; [|done].
  repeat match goal with
    | H : unlink_arc _ _ _ = Ok _ |- _ => apply points_unlink_arc in H
    | H : finish_arc_edges _ _ _ = Ok _ |- _ => apply points_finish_arc_edges in H
    | H : recheck_unlink _ _ _ = Ok _ |- _ => apply points_recheck_unlink in H
    end.
  simpl in *. congruence.
Qed.

Lemma process_all_empty fuel v v' :
  _process_all_events fuel v = Ok v' -> empty (points v') = true.
Proof.
  revert v. induction fuel as [|fuel IH]; intros v; simpl.
  - destruct (empty (points v)) eqn:E; [|done]. now intros [= <-].
  - destruct (empty (points v)) eqn:E; [now intros [= <-]|].
    intros H. apply rbind_Ok in H as ([b v1] & _ & H).
    apply rbind_Ok in H as (v2 & _ & H). eauto.
Qed.

Lemma process_remaining_empty fuel v v' :
  _process_remaining_events fuel v = Ok v' ->
  empty (events v') = true /\ points v' = points v.
Proof.
  revert v. induction fuel as [|fuel IH]; intros v; simpl.
  - destruct (empty (events v)) eqn:E; [|done]. now intros [= <-].
  - destruct (empty (events v)) eqn:E; [now intros [= <-]|].
    intros H. apply rbind_Ok in H as (v1 & E1 & H).
    apply points_circle_event in E1. destruct (IH _ H) as [H1 H2].
    split; [done|congruence].
Qed.

Lemma queues_complete_edge i j v :
  points (complete_edge i j v) = points v /\ events (complete_edge i j v) = events v.
Proof.
  unfold complete_edge.
  repeat match goal with |- context [match ?x with _ => _ end] => destruct x end; done.
Qed.

Lemma queues_complete_from fuel i v v' :
  complete_from fuel i v = Ok v' -> points v' = points v /\ events v' = events v.
Proof.
  revert i v. induction fuel as [|fuel IH]; intros [i|] v; simpl; intros H; peel;
    try done.
  apply IH in H. destruct (queues_complete_edge i n v) as [-> ->] in H. done.
Qed.

(** X13: outside the two-site path, when [generate_voronoi_diagram]
    returns the sweep is over: no site and no circle event is left in the
    schedules ([empty()] holds for both queues). *)
Theorem sweep_leaves_no_event fuel v v' :
  length (_entry_finder (points v)) <> 2 ->
  generate_voronoi_diagram fuel v = Ok v' ->
  empty (points v') = true /\ empty (events v') = true.
Proof.
  intros Hn H. unfold generate_voronoi_diagram, _complete_unfinished_edges in H.
  destruct (Nat.eqb_spec (length (_entry_finder (points v))) 2) as [E|_]; [done|].
  apply rbind_Ok in H as (v1 & E1 & H). apply rbind_Ok in H as (v2 & E2 & H).
  apply process_all_empty in E1. apply process_remaining_empty in E2 as [E2 E3].
  apply queues_complete_from in H as [-> ->]. rewrite E3. done.
Qed.

Lemma sweep_leaves_no_event_witness :
  exists v0 v,
    init three_sites 20 20 = Ok v0 /\
    generate_voronoi_diagram 100 v0 = Ok v /\
    empty (points v) = true /\ empty (events v) = true.
Proof.
  destruct (init three_sites 20 20) as [v0| |] eqn:E0;
    [|vm_compute in E0; discriminate..].
  destruct (generate_voronoi_diagram 100 v0) as [v| |] eqn:E;
    [|vm_compute in E0; injection E0 as <-; vm_compute in E; discriminate..].
  exists v0, v. split; [reflexivity|]. split; [exact E|].
  apply (sweep_leaves_no_event 100 v0 v); [|exact E].
  vm_compute in E0. injection E0 as <-. vm_compute. lia.
Defined.

(** ** point.py: the distance *)

Lemma SFsqrt_not_neg (x : spec_float) :
  SFltb (SF64sqrt x) (S754_zero false) = false.
Proof.
  destruct x as [s|s| |s m e]; try reflexivity; try (destruct s; reflexivity).
  destruct s; [reflexivity|]. unfold SF64sqrt, SFsqrt.
  repeat match goal with
    | |- context [let (_, _) := ?p in _] => destruct p
    end.
  apply FloatFacts.nonneg_not_ltb_zero, FloatFacts.binary_round_aux_nonneg.
Qed.

(** X14: [distance_to] never raises [ValueError]: the sum of two squares
    that it hands to [math.sqrt] is never below zero.  It returns a number
    that is not below zero, unless squaring a coordinate difference
    overflows, which is an [OverflowError]. *)
Theorem distance_to_outcomes (a b : Point) :
  (exists r, distance_to a b = Ok r /\ (r <? 0)%float = false) \/
  distance_to a b = Raise OverflowError.
Proof.
  unfold distance_to.
  destruct (pow2_cases (px a - px b)) as [-> | ->]; simpl; [|now right].
  destruct (pow2_cases (py a - py b)) as [-> | ->]; simpl; [|now right].
  unfold PyFloat.sqrt. rewrite FloatFacts.sum_squares_not_neg. left.
  eexists. split; [reflexivity|].
  rewrite FloatAxioms.ltb_spec, FloatAxioms.sqrt_spec.
  change (Prim2SF 0) with (S754_zero false). apply SFsqrt_not_neg.
Qed.

(** ** The two-site path when the first site is the one on the right *)

Lemma push_two_sites_rev (p1 p2 : Point) :
  Point_eqb p1 p2 = false -> (px p2 <? px p1)%float = true ->
  push_sites [p1; p2] new_queue =
  Ok {| _queue := [{| e_x := px p2; e_count := 2; e_item := Some p2 |};
                   {| e_x := px p1; e_count := 1; e_item := Some p1 |}];
        _entry_finder := [(p1, 1); (p2, 2)];
        _counter := 2 |}.
Proof.
  intros Hne Hlt. unfold push_sites, push_point, push. cbn. rewrite Hne. cbn.
  rewrite Hne. unfold entry_lt. cbn [e_x e_count].
  rewrite (FloatOrder.ltb_not_eqb _ _ Hlt), Hlt. reflexivity.
Qed.

Lemma two_points_rev (p1 p2 : Point) (q : list (entry Point)) (c : nat) (v : Voronoi) :
  proper p2 -> Point_eqb p1 p2 = false ->
  (abs (px p1 - px p1) <? EPSILON)%float = true ->
  _entry_finder (points v) = [(p1, 1); (p2, 2)] ->
  _queue (points v) = {| e_x := px p2; e_count := 2; e_item := Some p2 |} :: q ->
  exists v',
    generate_voronoi_diagram c v = Ok v' /\
    output v' = output v ++ [flat_edge p1 (x1 v)] /\
    largest_empty_circles v' = largest_empty_circles v.
Proof.
  intros Hp Hne Hdx Hf Hq. unfold generate_voronoi_diagram. rewrite Hf.
  cbn [length Nat.eqb]. unfold _handle_two_points_case, first_key.
  rewrite Hf. cbn [rbind]. unfold pop_point, pop. rewrite Hq, Hf.
  cbn [pop_live e_item dict_pop]. rewrite Hne. cbn [dict_pop].
  unfold proper in Hp. rewrite Hp.
  cbn [rbind with_points points _entry_finder]. rewrite Hdx.
  cbn [rbind]. eexists. split; [reflexivity|]. split; reflexivity.
Qed.

(** X15: two distinct sites given with the right-hand one first ([x] of
    the second strictly below [x] of the first, the first one finite).  The
    two-site path reads the first key of the entry finder, pops the
    leftmost site and reads the first key again: both reads give the first
    site.  The run returns one finished edge, the horizontal segment
    through the first site that reaches [w] to its left and to its right;
    the second site has no part in it. *)
Theorem two_sites_right_one_first (a b : float * float) (w h : float) (fuel : nat) :
  let p1 := site a in
  let p2 := site b in
  proper p2 ->
  Point_eqb p1 p2 = false ->
  (px p2 <? px p1)%float = true ->
  (abs (px p1 - px p1) <? EPSILON)%float = true ->
  exists v,
    run fuel [a; b] w h = Ok v /\
    output v = [flat_edge p1 w] /\
    get_largest_empty_circles v = [].
Proof.
  intros p1 p2 Hp Hne Hlt Hdx.
  unfold run, init. rewrite add_points_push_sites.
  change (map site [a; b]) with [p1; p2].
  change (points (_setup_bounds w h _initialize_structures)) with (new_queue (T := Point)).
  rewrite (push_two_sites_rev p1 p2 Hne Hlt). cbn [rbind].
  edestruct (two_points_rev p1 p2) as (v' & Hg & Ho & Hc);
    [exact Hp|exact Hne|exact Hdx| | |].
  3: { exists v'. split; [exact Hg|]. split; [exact Ho|exact Hc]. }
  all: reflexivity.
Qed.

Lemma two_sites_right_one_first_witness :
  exists v,
    run 0 [(8, 5); (2, 3)]%float 10 10 = Ok v /\
    output v = [flat_edge (mkPoint 8 5) 10] /\
    get_largest_empty_circles v = [].
Proof.
  apply (two_sites_right_one_first (8, 5)%float (2, 3)%float 10 10 0); reflexivity.
Defined.

(** ** The distance is symmetric *)

Module FloatSub.
Lemma binary_round_aux_abs s m e l :
  SFabs (binary_round_aux prec emax s m e l)
  = SFabs (binary_round_aux prec emax false m e l).
Proof.
  unfold binary_round_aux.
  destruct (shr_fexp prec emax m e l) as [r1 e1].
  destruct (shr_fexp prec emax _ e1 loc_Exact) as [r2 e2].
  destruct (shr_m r2); simpl; try reflexivity.
  match goal with |- context [if ?b then _ else _] => destruct b end; reflexivity.
Qed.

Lemma binary_round_abs s m e :
  SFabs (binary_round prec emax s m e) = SFabs (binary_round prec emax false m e).
Proof.
  unfold binary_round. destruct (shl_align _ _ _) as [mz ez].
  apply binary_round_aux_abs.
Qed.

Lemma binary_normalize_opp_abs m e :
  SFabs (binary_normalize prec emax (- m) e false)
  = SFabs (binary_normalize prec emax m e false).
Proof.
  destruct m as [|p|p]; simpl; [reflexivity| |];
    rewrite (binary_round_abs true); reflexivity.
Qed.

Lemma SFsub_swap_abs (x y : spec_float) :
  SFabs (SF64sub y x) = SFabs (SF64sub x y).
Proof.
  destruct x as [sx|sx| |sx mx ex], y as [sy|sy| |sy my ey]; simpl;
    try destruct sx; try destruct sy; try reflexivity.
  all: unfold SF64sub, SFsub; rewrite (Z.min_comm ey ex);
    (etransitivity; [|apply binary_normalize_opp_abs]); f_equal; f_equal;
    simpl; lia.
Qed.

Lemma SFmul_self_abs (d : spec_float) : SF64mul d d = SF64mul (SFabs d) (SFabs d).
Proof.
  destruct d as [s|s| |s m e]; simpl; try reflexivity;
    unfold SF64mul, SFmul; now rewrite xorb_nilpotent.
Qed.

#[local] Open Scope float_scope.

Lemma abs_sub_swap (x y : float) : abs (y - x) = abs (x - y).
Proof.
  apply FloatAxioms.Prim2SF_inj.
  rewrite !FloatAxioms.abs_spec, !FloatAxioms.sub_spec. apply SFsub_swap_abs.
Qed.

Lemma square_abs (d : float) : d * d = abs d * abs d.
Proof.
  apply FloatAxioms.Prim2SF_inj.
  rewrite !FloatAxioms.mul_spec, !FloatAxioms.abs_spec. apply SFmul_self_abs.
Qed.

Lemma pow2_sub_swap (x y : float) : PyFloat.pow2 (y - x) = PyFloat.pow2 (x - y).
Proof.
  unfold PyFloat.pow2, PyFloat.isfinite.
  rewrite (square_abs (y - x)), (square_abs (x - y)), abs_sub_swap. reflexivity.
Qed.
End FloatSub.

(** X16: [distance_to] is symmetric: [a.distance_to(b)] and
    [b.distance_to(a)] are the same binary64 number, or both raise
    [OverflowError]. *)
Theorem distance_to_symmetric (a b : Point) : distance_to a b = distance_to b a.
Proof.
  unfold distance_to.
  now rewrite (FloatSub.pow2_sub_swap (px a) (px b)), (FloatSub.pow2_sub_swap (py a) (py b)).
Qed.

(** ** Where the sites of arcs and circles come from *)

Section Provenance.
Variable S : list Point.

Lemma items_in_mark_removed {T} (A : list T) c (q : list (entry T)) :
  items_in A q -> items_in A (mark_removed c q).
Proof.
  unfold items_in, mark_removed. intros H. apply Forall_fmap.
  eapply Forall_impl; [exact H|]. simpl. intros en Hen.
  destruct (Nat.eqb _ _); [done|exact Hen].
Qed.

Lemma items_in_push {T} (A : list T) item_eqb item_x (s : EventPriorityQueue T) p s' :
  items_in A (_queue s) -> p ∈ A -> push item_eqb item_x s p = Ok s' ->
  items_in A (_queue s').
Proof.
  intros H Hp E. unfold push in E. apply rbind_Ok in E as (s1 & E1 & E).
  injection E as <-. simpl. unfold items_in. rewrite heappush_perm.
  constructor; [simpl; now intros ? [= <-]|].
  destruct (dict_mem _ _ _); [|now injection E1 as <-].
  unfold remove in E1. destruct (dict_pop _ _ _) as [[c d]|]; [|done].
  injection E1 as <-. simpl. now apply items_in_mark_removed.
Qed.

Lemma items_in_pop_live {T} (A : list T) (q : list (entry T)) p q' :
  items_in A q -> pop_live q = Some (p, q') -> p ∈ A /\ items_in A q'.
Proof.
  intros H E. destruct (pop_live_Some _ _ _ E) as (pre & en & -> & Hit & _).
  unfold items_in in H. apply Forall_app in H as [_ H].
  apply Forall_cons in H as [Hen H]. split; [now apply Hen|done].
Qed.

Lemma items_in_pop {T} (A : list T) item_eqb (s : EventPriorityQueue T) r s' :
  items_in A (_queue s) -> pop item_eqb s = Ok (r, s') ->
  items_in A (_queue s') /\ forall p, r = Some p -> p ∈ A.
Proof.
  intros H E. unfold pop in E. destruct (pop_live (_queue s)) as [[p q']|] eqn:Ep.
  - destruct (dict_pop _ _ _) as [[c d]|]; [|done]. injection E as <- <-. simpl.
    destruct (items_in_pop_live _ _ _ _ H Ep) as [Hp Hq]. split; [done|].
    now intros ? [= <-].
  - injection E as <- <-. split; [constructor|done].
Qed.

Lemma items_in_top {T} (A : list T) item_eqb item_x (s : EventPriorityQueue T) r s' :
  items_in A (_queue s) -> top item_eqb item_x s = Ok (r, s') ->
  items_in A (_queue s').
Proof.
  intros H E. unfold top in E. destruct (pop_live (_queue s)) as [[p q']|] eqn:Ep.
  - apply rbind_Ok in E as (s1 & E1 & E). injection E as _ <-.
    destruct (items_in_pop_live _ _ _ _ H Ep) as [Hp Hq].
    eapply items_in_push; [| |exact E1]; done.
  - injection E as _ <-. constructor.
Qed.

Lemma sf_frame v v' :
  arcs v' = arcs v -> points v' = points v ->
  largest_empty_circles v' = largest_empty_circles v ->
  sites_from S v -> sites_from S v'.
Proof. unfold sites_from. now intros -> -> ->. Qed.

Lemma sf_upd_arc i f v :
  (forall a, arc_p (f a) = arc_p a) -> sites_from S v -> sites_from S (upd_arc i f v).
Proof.
  intros Hf (H1 & H2 & H3). split; [done|]. split; [|done]. simpl.
  apply Forall_alter; [done|]. intros a _ Ha. now rewrite Hf.
Qed.

Lemma sf_alloc p a b v :
  p ∈ S -> sites_from S v -> sites_from S (with_arcs (arcs v ++ [mkArc p a b]) v).
Proof.
  intros Hp (H1 & H2 & H3). split; [done|]. split; [|done]. simpl.
  apply Forall_app. split; [done|]. now constructor.
Qed.

Lemma sf_points q v :
  items_in S (_queue q) -> sites_from S v -> sites_from S (with_points q v).
Proof. intros Hq (H1 & H2 & H3). done. Qed.

Lemma sf_get_arc v i a : sites_from S v -> get_arc v i = Ok a -> arc_p a ∈ S.
Proof.
  intros (_ & H & _) E. unfold get_arc in E.
  destruct (arcs v !! i) as [a'|] eqn:Ei; [|done]. injection E as <-.
  rewrite Forall_forall in H. apply H. eapply list_elem_of_lookup_2; eauto.
Qed.

Lemma sf_record o r a b c v :
  a ∈ S -> b ∈ S -> c ∈ S -> sites_from S v ->
  sites_from S (record_circle (o, r, (a, b, c)) r v).
Proof.
  intros Ha Hb Hc (H1 & H2 & H3). unfold sites_from.
  rewrite arcs_record_circle, points_record_circle. split; [done|]. split; [done|].
  unfold record_circle. destruct (_ <? EPSILON)%float; simpl.
  - apply Forall_app. split; [done|]. constructor; [|constructor]. done.
  - destruct (_ <? r)%float; simpl; [|done]. constructor; [|constructor]. done.
Qed.

Lemma sf_invalidate_old a v : sites_from S v -> sites_from S (invalidate_old a v).
Proof.
  apply sf_frame;
    [apply arcs_invalidate_old|apply points_invalidate_old|].
  unfold invalidate_old. destruct (arc_e a); [|done]. now destruct (negb _).
Qed.

Lemma sf_insert_copy i ai f v :
  arc_p ai ∈ S -> sites_from S v -> sites_from S (insert_copy i ai f v).
Proof.
  intros Hp H. unfold insert_copy, alloc_arc.
  destruct (pnext ai), f; repeat (apply sf_upd_arc; [done|]); now apply sf_alloc.
Qed.

Ltac sf :=
  match goal with
  | |- sites_from S (upd_arc _ _ ?v) => apply sf_upd_arc; [reflexivity|]
  | |- sites_from S (with_output _ ?v) => apply (sf_frame v); [reflexivity..|]
  | |- sites_from S (with_head _ ?v) => apply (sf_frame v); [reflexivity..|]
  | |- sites_from S (with_events _ ?v) => apply (sf_frame v); [reflexivity..|]
  | |- sites_from S (with_valid _ ?v) => apply (sf_frame v); [reflexivity..|]
  | |- sites_from S (finish_seg _ _ ?v) => apply (sf_frame v); [reflexivity..|]
  | |- sites_from S (invalidate_old _ _) => apply sf_invalidate_old
  | |- sites_from S (insert_copy _ _ _ _) => apply sf_insert_copy; [assumption|]
  | |- sites_from S (with_arcs (_ ++ [mkArc ?p ?a ?b]) ?v) =>
      change (sites_from S (with_arcs (arcs v ++ [mkArc p a b]) v));
      apply sf_alloc; [assumption|]
  | |- sites_from S (with_points _ ?v) => apply sf_points; [assumption|]
  | |- sites_from S (record_circle _ _ _) => apply sf_record; [assumption..|]
  end.

Ltac sfd := repeat sf; try assumption.

(** The site of each arc that was read is in [S]. *)
Ltac read_arcs :=
  repeat match goal with
    | H : get_arc ?v _ = Ok ?a |- _ =>
        lazymatch goal with
        | _ : arc_p a ∈ S |- _ => fail
        | _ => assert (arc_p a ∈ S) by (eapply sf_get_arc; [|exact H]; sfd)
        end
    end.

Lemma sf_schedule i ap ai an x o v v' :
  arc_p ap ∈ S -> arc_p ai ∈ S -> arc_p an ∈ S ->
  sites_from S v -> schedule_circle_event i ap ai an x o v = Ok v' -> sites_from S v'.
Proof. intros Ha Hb Hc HP H. unfold schedule_circle_event in H. peel; sfd. Qed.

Lemma sf_check i sweep v v' :
  sites_from S v -> _check_potential_circle_event i sweep v = Ok v' -> sites_from S v'.
Proof.
  intros HP H. unfold _check_potential_circle_event in H. peel; read_arcs;
    try (sfd; fail).
  eapply sf_schedule; [..|eassumption]; try assumption. sfd.
Qed.

Ltac sfwd0 :=
  repeat match goal with
    | H : _check_potential_circle_event _ _ ?v = Ok ?v' |- _ =>
        assert (sites_from S v') by (eapply sf_check; [|exact H]; sfd); clear H
    end.

Lemma sf_new_edges n z v v' : sites_from S v -> new_edges n z v = Ok v' -> sites_from S v'.
Proof. intros HP H. unfold new_edges, alloc_seg in H. peel. sfd. Qed.

Lemma sf_recheck_split n sweep v v' :
  sites_from S v -> recheck_split n sweep v = Ok v' -> sites_from S v'.
Proof. intros HP H. unfold recheck_split in H. peel. sfwd0. sfd. Qed.

Ltac sfwd1 :=
  repeat match goal with
    | H : new_edges _ _ ?v = Ok ?v' |- _ =>
        assert (sites_from S v') by (eapply sf_new_edges; [|exact H]; sfd); clear H
    | H : recheck_split _ _ ?v = Ok ?v' |- _ =>
        assert (sites_from S v') by (eapply sf_recheck_split; [|exact H]; sfd); clear H
    end.

Lemma sf_split_arc p i z v v' :
  p ∈ S -> sites_from S v -> split_arc p i z v = Ok v' -> sites_from S v'.
Proof.
  intros Hp HP H. unfold split_arc, insert_new, alloc_arc in H. peel.
  read_arcs. sfwd1. sfd.
Qed.

Lemma sf_append_arc p h v v' :
  p ∈ S -> sites_from S v -> append_arc p h v = Ok v' -> sites_from S v'.
Proof. intros Hp HP H. unfold append_arc, alloc_arc in H. peel. sfd. Qed.

Lemma sf_add_arc p v v' :
  p ∈ S -> sites_from S v -> _add_parabolic_parabolicArc p v = Ok v' -> sites_from S v'.
Proof.
  intros Hp HP H. unfold _add_parabolic_parabolicArc, alloc_arc in H. peel.
  - eapply sf_split_arc; eauto.
  - eapply sf_append_arc; eauto.
  - sfd.
Qed.

Lemma sf_site_event v v' :
  sites_from S v -> _process_site_event v = Ok v' -> sites_from S v'.
Proof.
  intros HP H. unfold _process_site_event in H.
  apply rbind_Ok in H as ([r q] & E & H). destruct r as [p|]; [|done].
  destruct HP as (H1 & H2 & H3).
  destruct (items_in_pop _ _ _ _ _ H1 E) as [Hq Hp].
  eapply sf_add_arc; [apply Hp; reflexivity| |exact H]. done.
Qed.

Lemma sf_unlink_arc a s v v' : sites_from S v -> unlink_arc a s v = Ok v' -> sites_from S v'.
Proof. intros HP H. unfold unlink_arc in H. peel; destruct (pprev _); sfd. Qed.

Lemma sf_finish_arc_edges a p v v' :
  sites_from S v -> finish_arc_edges a p v = Ok v' -> sites_from S v'.
Proof.
  intros HP H. unfold finish_arc_edges in H. peel. destruct (s1 _), (s0 _); sfd.
Qed.

Lemma sf_recheck_unlink a sweep v v' :
  sites_from S v -> recheck_unlink a sweep v = Ok v' -> sites_from S v'.
Proof. intros HP H. unfold recheck_unlink in H. peel; sfwd0; sfd. Qed.

Ltac sfwd2 :=
  repeat match goal with
    | H : unlink_arc _ _ ?v = Ok ?v' |- _ =>
        assert (sites_from S v') by (eapply sf_unlink_arc; [|exact H]; sfd); clear H
    | H : finish_arc_edges _ _ ?v = Ok ?v' |- _ =>
        assert (sites_from S v') by (eapply sf_finish_arc_edges; [|exact H]; sfd); clear H
    | H : recheck_unlink _ _ ?v = Ok ?v' |- _ =>
        assert (sites_from S v') by (eapply sf_recheck_unlink; [|exact H]; sfd); clear H
    end.

Lemma sf_circle_event v v' :
  sites_from S v -> _process_circle_event v = Ok v' -> sites_from S v'.
Proof.
  intros HP H. unfold _process_circle_event, alloc_seg in H. peel; sfwd2; sfd.
Qed.

Lemma sf_process_all fuel v v' :
  sites_from S v -> _process_all_events fuel v = Ok v' -> sites_from S v'.
Proof.
  revert v. induction fuel as [|fuel IH]; intros v HP; simpl.
  - destruct (empty (points v)); [|done]. now intros [= <-].
  - destruct (empty (points v)); [now intros [= <-]|].
    intros H. apply rbind_Ok in H as ([b v1] & E & H).
    apply rbind_Ok in H as (v2 & E2 & H).
    assert (sites_from S v1).
    { destruct (empty (events v)); peel; try done.
      all: apply sf_points; [|sfd]; simpl.
      all: match goal with H : top_point _ = Ok _ |- _ =>
             eapply items_in_top; [|exact H] end.
      all: now destruct HP. }
    assert (sites_from S v2).
    { destruct b; [eapply sf_circle_event|eapply sf_site_event]; eauto. }
    eauto.
Qed.

Lemma sf_process_remaining fuel v v' :
  sites_from S v -> _process_remaining_events fuel v = Ok v' -> sites_from S v'.
Proof.
  revert v. induction fuel as [|fuel IH]; intros v HP; simpl.
  - destruct (empty (events v)); [|done]. now intros [= <-].
  - destruct (empty (events v)); [now intros [= <-]|].
    intros H. apply rbind_Ok in H as (v1 & E & H).
    eapply IH; [|exact H]. eapply sf_circle_event; eauto.
Qed.

Lemma sf_complete_edge i j v : sites_from S v -> sites_from S (complete_edge i j v).
Proof.
  intros HP. unfold complete_edge.
  repeat match goal with |- context [match ?x with _ => _ end] => destruct x end; sfd.
Qed.

Lemma sf_complete_from fuel i v v' :
  sites_from S v -> complete_from fuel i v = Ok v' -> sites_from S v'.
Proof.
  revert i v. induction fuel as [|fuel IH]; intros [i|] v HP; simpl; intros H; peel;
    try done.
  eapply IH; [|exact H]. now apply sf_complete_edge.
Qed.

Lemma sf_two_points v v' :
  sites_from S v -> _handle_two_points_case v = Ok v' -> sites_from S v'.
Proof.
  intros HP H. unfold _handle_two_points_case in H.
  apply rbind_Ok in H as (p1 & E1 & H). apply rbind_Ok in H as ([r q] & E2 & H).
  assert (sites_from S (with_points q v)).
  { apply sf_points; [|done]. destruct HP as (H1 & _).
    now destruct (items_in_pop _ _ _ _ _ H1 E2). }
  peel; sfd.
Qed.

Lemma sf_generate fuel v v' :
  sites_from S v -> generate_voronoi_diagram fuel v = Ok v' -> sites_from S v'.
Proof.
  intros HP H. unfold generate_voronoi_diagram, _complete_unfinished_edges in H.
  destruct (Nat.eqb _ 2); [eapply sf_two_points; eauto|].
  apply rbind_Ok in H as (v1 & E1 & H). apply rbind_Ok in H as (v2 & E2 & H).
  eapply sf_complete_from; [|exact H].
  eapply sf_process_remaining; [|exact E2].
  eapply sf_process_all; eauto.
Qed.
End Provenance.

Lemma sf_add_points S pts v v' :
  (forall xy, xy ∈ pts -> site xy ∈ S) ->
  sites_from S v -> _add_points pts v = Ok v' -> sites_from S v'.
Proof.
  revert v. induction pts as [|[x y] pts IH]; simpl; intros v HS HP H.
  - now injection H as <-.
  - apply rbind_Ok in H as (q & E & H). eapply IH; [| |exact H].
    + intros xy Hxy. apply HS. now right.
    + apply sf_points; [|done]. destruct HP as (H1 & _).
      eapply items_in_push; [exact H1| |exact E]. apply (HS (x, y)). left.
Qed.

(** X17: the engine invents no site.  After a run, the site of every arc
    it has created and the three defining sites of every circle it reports
    are sites of the input: [Point(x, y)] for a pair [(x, y)] of the input
    list. *)
Theorem sites_come_from_the_input fuel pts w h v :
  run fuel pts w h = Ok v ->
  Forall (fun a => arc_p a ∈ map site pts) (arcs v) /\
  Forall (circle_sites_in (map site pts)) (get_largest_empty_circles v).
Proof.
  intros H. unfold run, init in H. apply rbind_Ok in H as (v0 & E & H).
  assert (H0 : sites_from (map site pts) v0).
  { eapply sf_add_points; [| |exact E].
    - intros xy Hxy. now apply list_elem_of_fmap_2.
    - repeat split; constructor. }
  destruct (sf_generate _ _ _ _ H0 H) as (_ & H2 & H3). done.
Qed.

Lemma sites_come_from_the_input_witness :
  exists v,
    run 100 three_sites 20 20 = Ok v /\
    Forall (fun a => arc_p a ∈ map site three_sites) (arcs v) /\
    Forall (circle_sites_in (map site three_sites)) (get_largest_empty_circles v).
Proof.
  destruct (run 100 three_sites 20 20) as [v| |] eqn:E;
    [|vm_compute in E; discriminate..].
  exists v. split; [reflexivity|].
  exact (sites_come_from_the_input 100 three_sites 20%float 20%float v E).
Defined.

(** ** The completion of the open edges *)

Lemma complete_edge_same i j v :
  arcs (complete_edge i j v) = arcs v /\
  parabolicArc (complete_edge i j v) = parabolicArc v /\
  length (output (complete_edge i j v)) = length (output v) /\
  forall v0, edges_kept v0 v -> edges_kept v0 (complete_edge i j v).
Proof.
  unfold complete_edge.
  repeat match goal with |- context [match ?x with _ => _ end] => destruct x end;
    repeat split; try done.
  - unfold finish_seg. simpl. apply length_alter.
  - intros v0. apply edges_kept_finish.
Qed.

Lemma complete_from_linked t : forall i v prev fuel,
  linked (arcs v) prev (i :: t) None -> length t <= fuel ->
  exists v',
    complete_from fuel (Some i) v = Ok v' /\
    arcs v' = arcs v /\ parabolicArc v' = parabolicArc v /\
    length (output v') = length (output v) /\
    forall v0, edges_kept v0 v -> edges_kept v0 v'.
Proof.
  induction t as [|j t IH]; intros i v prev fuel [H1 H2] Hlen.
  - apply lk_Some in H1 as (a & Ea & _ & Hn). exists v.
    destruct fuel; simpl; unfold get_arc; rewrite Ea; simpl; rewrite Hn; done.
  - apply lk_Some in H1 as (a & Ea & _ & Hn).
    destruct fuel as [|fuel]; [simpl in Hlen; lia|]. simpl.
    unfold get_arc. rewrite Ea. simpl. rewrite Hn. simpl.
    destruct (complete_edge_same i j v) as (Ha & Hh & Hl & Hk).
    destruct (IH j (complete_edge i j v) (Some i) fuel) as (v' & E & Ha' & Hh' & Hl' & Hk').
    + now rewrite Ha.
    + simpl in Hlen. lia.
    + exists v'. split; [exact E|]. repeat split; try congruence. auto.
Qed.

(** X19: on a beachline whose links are sound, [_complete_unfinished_edges]
    ends and raises nothing (what goes wrong for one edge is caught and
    printed).  It creates no edge and drops none, it leaves every start
    point and every finished edge as it was, and it does not touch the
    arcs. *)
Theorem edge_completion_ends v :
  dll_invariant v -> in_store v ->
  exists v',
    _complete_unfinished_edges v = Ok v' /\
    arcs v' = arcs v /\ parabolicArc v' = parabolicArc v /\
    length (output v') = length (output v) /\ edges_kept v v'.
Proof.
  intros H1 H2. pose proof (dll_is_beachline _ H1 H2) as Hb.
  pose proof (is_beachline_length _ _ Hb) as Hlen.
  destruct Hb as (Hh & Hl & _). unfold _complete_unfinished_edges.
  destruct (beachline v) as [|i t] eqn:El.
  - simpl in Hh. rewrite Hh. exists v. simpl.
    split; [done|]. split; [done|]. split; [done|]. split; [done|].
    apply edges_kept_refl.
  - simpl in Hh. rewrite Hh.
    destruct (complete_from_linked t i v None (S (length (arcs v))) Hl)
      as (v' & E & Ha & Hh' & Hlo & Hk); [simpl in Hlen; lia|].
    exists v'. split; [exact E|]. split; [exact Ha|]. split; [congruence|].
    split; [exact Hlo|]. apply Hk, edges_kept_refl.
Qed.

Lemma edge_completion_ends_witness :
  exists v0 v1,
    init three_sites 20 20 = Ok v0 /\
    _process_all_events 100 v0 = Ok v1 /\
    exists v2,
      _complete_unfinished_edges v1 = Ok v2 /\
      arcs v2 = arcs v1 /\ parabolicArc v2 = parabolicArc v1 /\
      length (output v2) = length (output v1) /\ edges_kept v1 v2.
Proof.
  eexists _, _.
  split; [vm_compute; reflexivity|]. split; [vm_compute; reflexivity|].
  match goal with
  | |- exists v2, _complete_unfinished_edges ?v1 = _ /\ _ =>
      apply (edge_completion_ends v1);
        [apply dll_check_sound; vm_compute; reflexivity
        |vm_compute; repeat constructor]
  end.
Defined.

(** ** The loops of one event end *)

Lemma ends_bind {A B} (m : result A) (k : A -> result B) :
  ends m -> (forall a, m = Ok a -> ends (k a)) -> ends (rbind m k).
Proof. unfold ends. destruct m; simpl; [eauto|done|done]. Qed.

Ltac ends_step :=
  match goal with
  | |- ends (rbind _ _) => apply ends_bind; [|intros ? ?]
  | |- ends (Ok _) => discriminate
  | |- ends (Raise _) => discriminate
  | |- ends (if ?b then _ else _) => destruct b
  | |- ends (match ?x with _ => _ end) => destruct x
  | |- ends (PyFloat.div _ _) => unfold PyFloat.div
  | |- ends (PyFloat.sqrt _) => unfold PyFloat.sqrt
  | |- ends (PyFloat.pow2 _) => unfold PyFloat.pow2
  | |- ends (get_arc _ _) => unfold get_arc
  | |- ends (deref _) => unfold deref
  end.

Ltac ends_tac := repeat ends_step.

Lemma ends_find_intersection p0 p1 l : ends (_find_intersection p0 p1 l).
Proof. unfold _find_intersection. ends_tac. Qed.

Lemma ends_check_intersection p i v : ends (_check_intersection p i v).
Proof.
  unfold _check_intersection. destruct i as [i|]; [|discriminate].
  repeat first [ends_step | apply ends_find_intersection].
Qed.

Lemma ends_check_circle a b c : ends (_check_circle a b c).
Proof. unfold _check_circle. ends_tac. Qed.

Lemma ends_push {T} item_eqb item_x (s : EventPriorityQueue T) item :
  ends (push item_eqb item_x s item).
Proof. destruct (push_total item_eqb item_x s item) as [s' ->]. discriminate. Qed.

Lemma ends_pop {T} item_eqb (s : EventPriorityQueue T) : ends (pop item_eqb s).
Proof. unfold pop. ends_tac. Qed.

Lemma ends_circle_is_empty keys a b c o r : ends (circle_is_empty keys a b c o r).
Proof.
  induction keys as [|[k n] keys IH]; simpl; [discriminate|].
  repeat first [exact IH | ends_step].
Qed.

Lemma ends_schedule i ap ai an x o v : ends (schedule_circle_event i ap ai an x o v).
Proof.
  unfold schedule_circle_event.
  repeat first [apply ends_push | apply ends_circle_is_empty | ends_step].
Qed.

Lemma ends_check i sweep v : ends (_check_potential_circle_event i sweep v).
Proof.
  unfold _check_potential_circle_event.
  repeat first [apply ends_check_circle | apply ends_schedule | ends_step].
Qed.

Lemma ends_new_edges n z v : ends (new_edges n z v).
Proof. unfold new_edges, alloc_seg. ends_tac. Qed.

Lemma ends_recheck_split n sweep v : ends (recheck_split n sweep v).
Proof. unfold recheck_split. repeat first [apply ends_check | ends_step]. Qed.

Lemma ends_split_arc p i z v : ends (split_arc p i z v).
Proof.
  unfold split_arc, insert_new, alloc_arc.
  repeat first [apply ends_check_intersection | apply ends_new_edges
               | apply ends_recheck_split | ends_step].
Qed.

Lemma ends_find_arc v p t : forall x prev fuel,
  linked (arcs v) prev (x :: t) None -> length (x :: t) <= fuel ->
  ends (find_arc fuel p (Some x) v).
Proof.
  induction t as [|y t IH]; intros x prev fuel [H1 H2] Hlen;
    (destruct fuel as [|fuel]; [simpl in Hlen; lia|]); cbn [find_arc];
    apply lk_Some in H1 as (a & Ea & _ & Hn);
    (apply ends_bind; [apply ends_check_intersection|]); intros [z|] _;
    try discriminate; unfold get_arc; rewrite Ea; cbn [rbind]; rewrite Hn;
    cbn [hd_or].
  - destruct fuel; discriminate.
  - eapply IH; [exact H2|]. simpl in *. lia.
Qed.

Lemma ends_append_arc p h t v :
  linked (arcs v) None (h :: t) None -> length (h :: t) <= length (arcs v) ->
  ends (append_arc p h v).
Proof.
  intros Hl Hlen. unfold append_arc.
  destruct (last_arc_linked v (S (length (arcs v))) None h t Hl) as (l & x & _ & ->);
    [lia|].
  simpl. unfold alloc_arc. ends_tac.
Qed.

Lemma ends_unlink_arc a s v : ends (unlink_arc a s v).
Proof. unfold unlink_arc. ends_tac. Qed.

Lemma ends_finish_arc_edges a p v : ends (finish_arc_edges a p v).
Proof. unfold finish_arc_edges. ends_tac. Qed.

Lemma ends_recheck_unlink a sweep v : ends (recheck_unlink a sweep v).
Proof. unfold recheck_unlink. repeat first [apply ends_check | ends_step]. Qed.

(** X20: one event ends.  On a beachline whose links are sound the two
    walks of a site event (the scan for the arc to split and the walk to
    the tail) stop, so that [_process_site_event] returns or raises; a
    circle event has no loop and always returns or raises. *)
Theorem one_event_ends v :
  (dll_invariant v -> in_store v -> ends (_process_site_event v)) /\
  ends (_process_circle_event v).
Proof.
  split.
  - intros H1 H2. pose proof (dll_is_beachline _ H1 H2) as Hb.
    unfold _process_site_event. apply ends_bind; [apply ends_pop|].
    intros [[p|] q] _; [|discriminate].
    unfold _add_parabolic_parabolicArc.
    change (parabolicArc (with_points q v)) with (parabolicArc v).
    change (arcs (with_points q v)) with (arcs v).
    pose proof (is_beachline_length _ _ Hb) as Hlen.
    destruct Hb as (Hh & Hl & _). destruct (beachline v) as [|h t].
    + simpl in Hh. rewrite Hh. unfold alloc_arc. discriminate.
    + simpl in Hh. rewrite Hh. apply ends_bind.
      * eapply (ends_find_arc (with_points q v)); [exact Hl|]. simpl in *. lia.
      * intros [[i z]|] _; [apply ends_split_arc|].
        eapply (ends_append_arc p h t (with_points q v)); [exact Hl|exact Hlen].
  - unfold _process_circle_event, alloc_seg.
    repeat first [apply ends_pop | apply ends_unlink_arc | apply ends_finish_arc_edges
                 | apply ends_recheck_unlink | ends_step].
Qed.

Lemma one_event_ends_witness :
  exists v0 v1,
    init three_sites 20 20 = Ok v0 /\
    _process_site_event v0 = Ok v1 /\
    ends (_process_site_event v1).
Proof.
  eexists _, _.
  split; [vm_compute; reflexivity|]. split; [vm_compute; reflexivity|].
  match goal with
  | |- ends (_process_site_event ?v1) =>
      apply (proj1 (one_event_ends v1));
        [apply dll_check_sound; vm_compute; reflexivity
        |vm_compute; repeat constructor]
  end.
Defined.

(** ** The sequence numbers of the heap entries *)

(** X21: in a queue built with [push], [pop], [top] and [remove] no two
    heap entries, live or removed, carry the same count, and no count
    exceeds the counter.  Two entries [[x, count, item]] of equal [x] are
    therefore ordered by their counts: comparing them never gets as far as
    the items, which have no order. *)
Theorem sequence_numbers_are_unique {T} (item_eqb : T -> T -> bool)
    (item_x : T -> float)
    (eqb_sym : forall a b, item_eqb a b = item_eqb b a)
    (eqb_trans : forall a b c,
        item_eqb a b = true -> item_eqb b c = true -> item_eqb a c = true)
    (s : EventPriorityQueue T) :
  reachable item_eqb item_x s ->
  (forall i j a b, i <> j -> _queue s !! i = Some a -> _queue s !! j = Some b ->
                   e_count a <> e_count b) /\
  Forall (fun en => e_count en <= _counter s) (_queue s).
Proof.
  intros R. apply (reachable_wf item_eqb item_x eqb_sym eqb_trans) in R.
  destruct R as [R1 R2 _ _ _]. split; [|exact R2].
  intros i j a b Hij Ha Hb Hc. apply Hij.
  eapply (NoDup_lookup _ i j (e_count a)); [exact R1| |].
  - now rewrite list_lookup_fmap, Ha.
  - rewrite list_lookup_fmap, Hb. simpl. now rewrite Hc.
Qed.

Lemma sequence_numbers_are_unique_witness :
  exists s,
    push_sites [mkPoint 1 0; mkPoint 1 5] new_queue = Ok s /\
    (forall i j a b, i <> j -> _queue s !! i = Some a -> _queue s !! j = Some b ->
                     e_count a <> e_count b) /\
    Forall (fun en => e_count en <= _counter s) (_queue s).
Proof.
  destruct (push_sites [mkPoint 1 0; mkPoint 1 5] new_queue) as [s| |] eqn:E;
    [|vm_compute in E; discriminate..].
  exists s. split; [reflexivity|].
  apply (sequence_numbers_are_unique Point_eqb px Point_eqb_sym Point_eqb_trans s).
  eapply push_sites_reachable; [|apply reach_new|exact E]. repeat constructor.
Defined.
